(** * mapbox::util::variant (variant.hpp): a shallow embedding

    The header is a class template.  Two layers are kept apart:

    - the build-time layer ([Inst]): template instantiation may be
      ill-formed (a [static_assert] fails, no overload is viable, a
      declared-only primary template is selected).  An instantiation is
      an [option]: [None] is a program that does not compile;
    - the run-time layer ([M]): member functions act on variant objects
      living in memory, may throw, and call the alternatives' own
      constructors, destructors and operators.

    The pack [Types...] is a [list ty]; [sizeof...(Types)] is the length
    of the list as a 64-bit [std::size_t]. *)

From Stdlib Require Import ZArith List String Bool Lia.
Import ListNotations.
Local Open Scope Z_scope.

(** ** std::size_t and int *)

Definition size_t_modulus : Z := 2 ^ 64.

(** Arithmetic on [std::size_t] wraps around. *)
Definition to_size_t (z : Z) : Z := z mod size_t_modulus.

(** [static_cast<int>] of a [std::size_t] (two's complement, 32 bits). *)
Definition to_int (z : Z) : Z := (z + 2 ^ 31) mod 2 ^ 32 - 2 ^ 31.

(** [sizeof...(Types)] *)
Definition sizeof_pack {A : Type} (Types : list A) : Z :=
  to_size_t (Z.of_nat (List.length Types)).

(** The pack is short enough for [sizeof...] to be its length. *)
Definition fits {A : Type} (Types : list A) : Prop :=
  Z.of_nat (List.length Types) < size_t_modulus.

(** ** C++ types *)

Inductive ty : Type :=
| named (n : string)
| const (T : ty)
| recursive_wrapper (T : ty)
| reference_wrapper (T : ty).

Definition ty_eq_dec (T U : ty) : {T = U} + {T <> U}.
Proof. decide equality. apply string_dec. Defined.

(** [std::is_same<T, U>::value] *)
Definition is_same (T U : ty) : bool :=
  if ty_eq_dec T U then true else false.

(** ** Exceptions and outcomes *)

Inductive exn : Type :=
| bad_variant_access (what_arg : string)
| foreign_exception (id : nat).

(** The result of running a piece of code: it returns, it throws, or an
    exception escapes a [noexcept] function and [std::terminate] is
    called. *)
Inductive outcome (A : Type) : Type :=
| Ret (a : A)
| Throw (e : exn)
| Terminate.
Arguments Ret {A} a.
Arguments Throw {A} e.
Arguments Terminate {A}.

(** ** What the alternatives themselves provide

    The header never looks inside an alternative: it calls its
    constructors, destructor and operators.  [obj] is the content of the
    aligned storage, read through [reinterpret_cast<T*>]. *)
Class Alternatives (obj : Type) : Type := {
  (** [std::is_convertible<T, U>::value] *)
  is_convertible : ty -> ty -> bool;
  (** [std::is_default_constructible<T>::value] *)
  is_default_constructible : ty -> bool;
  (** [T()] *)
  default_construct : ty -> outcome obj;
  (** [Target(std::forward<T>(val))], arguments: Target, T, val *)
  construct_from : ty -> ty -> obj -> outcome obj;
  (** [T(std::forward<Args>(args)...)] *)
  construct_args : ty -> list obj -> outcome obj;
  (** [T(const T&)] *)
  copy_construct : ty -> obj -> outcome obj;
  (** [T(T&&)]: the new object or the exception, and what the source is
      left holding *)
  move_construct : ty -> obj -> outcome obj * obj;
  (** [lhs == rhs] and [lhs < rhs] at type T *)
  equal_to : ty -> obj -> obj -> bool;
  less_than : ty -> obj -> obj -> bool;
  (** [recursive_wrapper<T>::get()] and [std::reference_wrapper<T>::get()]
      (recursive_wrapper.hpp and the standard library are not part of
      this header) *)
  recursive_wrapper_get : obj -> obj;
  reference_wrapper_get : obj -> obj
}.

(** ** Build-time layer *)

Definition Inst (A : Type) : Type := option A.

Definition static_assert (b : bool) : Inst unit :=
  if b then Some tt else None.

(** [std::enable_if<b>]: when [b] is false the declaration is not a
    candidate. *)
Definition enable_if (b : bool) : Inst unit :=
  if b then Some tt else None.

Definition inst_bind {A B : Type} (i : Inst A) (k : A -> Inst B) : Inst B :=
  match i with
  | Some a => k a
  | None => None
  end.

Notation "'with_inst' x <- i ; k" := (inst_bind i (fun x => k))
  (at level 10, x name, i at level 100, k at level 200).
Notation "'requires' i ; k" := (inst_bind i (fun _ => k))
  (at level 10, i at level 100, k at level 200).

(** ** detail:: the type resolver *)

Definition invalid_value : Z := to_size_t (-1).

Fixpoint direct_type (T : ty) (Types : list ty) : Z :=
  match Types with
  | [] => invalid_value
  | First :: Types' =>
      if is_same T First then sizeof_pack Types' else direct_type T Types'
  end.

Fixpoint has_type (T : ty) (Types : list ty) : bool :=
  match Types with
  | [] => false
  | First :: Types' => is_same T First || has_type T Types'
  end.

Section Resolver.
Context {obj : Type} {alt : Alternatives obj}.

Fixpoint convertible_type (T : ty) (Types : list ty) : Z :=
  match Types with
  | [] => invalid_value
  | First :: Types' =>
      if is_convertible T First then sizeof_pack Types'
      else convertible_type T Types'
  end.

(** [value_traits<T, Types...>::index] *)
Definition value_traits_index (T : ty) (Types : list ty) : Z :=
  let direct_index := direct_type T Types in
  if direct_index =? invalid_value then convertible_type T Types
  else direct_index.

Fixpoint is_valid_type (T : ty) (Types : list ty) : bool :=
  match Types with
  | [] => false
  | First :: Types' => is_convertible T First || is_valid_type T Types'
  end.
End Resolver.

(** [std::tuple_element<index, std::tuple<Types...>>::type]; out of range
    is ill-formed. *)
Definition tuple_element (index : Z) (Types : list ty) : Inst ty :=
  if index <? 0 then None else nth_error Types (Z.to_nat index).


(** ** Run-time layer: memory, trace and the monad *)

Definition addr : Type := nat.

(** The two data members of [variant<Types...>]. *)
Record variant (obj : Type) : Type := mk_variant {
  type_index : Z;
  data : obj
}.
Arguments mk_variant {obj} type_index data.
Arguments type_index {obj} v.
Arguments data {obj} v.

(** Calls made into an alternative: the destructor, the copy and the
    move constructor (from [variant_helper]), and the constructors run
    by the placement [new] of [variant()], [variant(T&&)] and
    [set<T>()]. *)
Inductive event (obj : Type) : Type :=
| destructor_call (T : ty) (o : obj)
| copy_call (T : ty) (old_value : obj)
| move_call (T : ty) (old_value : obj)
| default_constructor_call (T : ty)
| converting_constructor_call (Target T : ty) (val : obj)
| constructor_call (T : ty) (args : list obj).
Arguments destructor_call {obj} T o.
Arguments copy_call {obj} T old_value.
Arguments move_call {obj} T old_value.
Arguments default_constructor_call {obj} T.
Arguments converting_constructor_call {obj} Target T val.
Arguments constructor_call {obj} T args.

Record world (obj : Type) : Type := mk_world {
  heap : addr -> variant obj;
  trace : list (event obj)
}.
Arguments mk_world {obj} heap trace.
Arguments heap {obj} w a.
Arguments trace {obj} w.

Definition M (obj A : Type) : Type := world obj -> outcome A * world obj.

Section Monad.
Context {obj : Type}.

Definition ret {A : Type} (a : A) : M obj A := fun w => (Ret a, w).

Definition bind {A B : Type} (m : M obj A) (k : A -> M obj B) : M obj B :=
  fun w =>
    match m w with
    | (Ret a, w') => k a w'
    | (Throw e, w') => (Throw e, w')
    | (Terminate, w') => (Terminate, w')
    end.

Definition throw {A : Type} (e : exn) : M obj A := fun w => (Throw e, w).

Definition lift {A : Type} (r : outcome A) : M obj A := fun w => (r, w).

(** An exception leaving a [noexcept] function calls [std::terminate]. *)
Definition noexcept {A : Type} (m : M obj A) : M obj A :=
  fun w =>
    match m w with
    | (Throw _, w') => (Terminate, w')
    | r => r
    end.

Definition update (h : addr -> variant obj) (a : addr) (v : variant obj)
  : addr -> variant obj :=
  fun a' => if Nat.eqb a' a then v else h a'.

Definition load_type_index (a : addr) : M obj Z :=
  fun w => (Ret (type_index (heap w a)), w).

Definition load_data (a : addr) : M obj obj :=
  fun w => (Ret (data (heap w a)), w).

Definition store_type_index (a : addr) (z : Z) : M obj unit :=
  fun w =>
    (Ret tt,
     mk_world (update (heap w) a (mk_variant z (data (heap w a)))) (trace w)).

Definition store_data (a : addr) (o : obj) : M obj unit :=
  fun w =>
    (Ret tt,
     mk_world (update (heap w) a (mk_variant (type_index (heap w a)) o))
              (trace w)).

Definition log (ev : event obj) : M obj unit :=
  fun w => (Ret tt, mk_world (heap w) (trace w ++ [ev])).

End Monad.

Notation "x <- m ;; k" := (bind m (fun x => k))
  (at level 61, m at next level, right associativity).
Notation "m ;; k" := (bind m (fun _ => k))
  (at level 61, right associativity).

(** ** detail::variant_helper, detail::unwrapper *)

Section Variant.
Context {obj : Type} {alt : Alternatives obj}.

(** The [void*] arguments point at the [data] member of a variant; they
    are given as the address of that variant. *)
Fixpoint variant_helper_destroy (Types : list ty) (id : Z) (data_ : addr)
  : M obj unit :=
  match Types with
  | [] => ret tt
  | T :: Types' =>
      if id =? sizeof_pack Types' then
        o <- load_data data_ ;;
        log (destructor_call T o)
      else variant_helper_destroy Types' id data_
  end.

Fixpoint variant_helper_move (Types : list ty) (old_id : Z)
    (old_value new_value : addr) : M obj unit :=
  match Types with
  | [] => ret tt
  | T :: Types' =>
      if old_id =? sizeof_pack Types' then
        src <- load_data old_value ;;
        log (move_call T src) ;;
        store_data old_value (snd (move_construct T src)) ;;
        o <- lift (fst (move_construct T src)) ;;
        store_data new_value o
      else variant_helper_move Types' old_id old_value new_value
  end.

Fixpoint variant_helper_copy (Types : list ty) (old_id : Z)
    (old_value new_value : addr) : M obj unit :=
  match Types with
  | [] => ret tt
  | T :: Types' =>
      if old_id =? sizeof_pack Types' then
        src <- load_data old_value ;;
        log (copy_call T src) ;;
        o <- lift (copy_construct T src) ;;
        store_data new_value o
      else variant_helper_copy Types' old_id old_value new_value
  end.

(** The type [unwrapper<T>::apply_const] returns a const reference to. *)
Definition unwrapper_type (T : ty) : ty :=
  match T with
  | recursive_wrapper U => U
  | reference_wrapper U => U
  | _ => T
  end.

Definition unwrapper_apply_const (T : ty) (o : obj) : obj :=
  match T with
  | recursive_wrapper _ => recursive_wrapper_get o
  | reference_wrapper _ => reference_wrapper_get o
  | _ => o
  end.

Definition remove_const (T : ty) : ty :=
  match T with
  | const U => U
  | _ => T
  end.

(** A visitor is called with a const lvalue; its overloads are told
    apart by the type without the qualifier. *)
Definition visitor_argument (T : ty) : ty := remove_const (unwrapper_type T).

(** ** variant<Types...>: construction

    Members with a build-time condition of their own ([static_assert],
    [enable_if], a type computed from the pack) are instantiations
    ([Inst]); the others are given directly as run-time functions of the
    pack. *)

(** [static_assert(sizeof...(Types) > 0, ...)] at class scope. *)
Definition variant_class (Types : list ty) : Inst unit :=
  static_assert (0 <? sizeof_pack Types).

(** [variant()] *)
Definition variant_default (Types : list ty) : Inst (addr -> M obj unit) :=
  requires variant_class Types;
  with_inst first_type <- tuple_element 0 Types;
  requires static_assert (is_default_constructible first_type);
  Some (fun this =>
    store_type_index this (to_size_t (sizeof_pack Types - 1)) ;;
    log (default_constructor_call first_type) ;;
    o <- lift (default_construct first_type) ;;
    store_data this o).

(** [variant(no_init)] *)
Definition variant_no_init (Types : list ty) : Inst (addr -> M obj unit) :=
  requires variant_class Types;
  Some (fun this => store_type_index this invalid_value).

(** [variant(T && val) noexcept]; [T] is the type after
    [std::remove_reference]. *)
Definition variant_value (T : ty) (Types : list ty)
  : Inst (addr -> obj -> M obj unit) :=
  requires variant_class Types;
  requires enable_if (is_valid_type T Types);
  let index :=
    to_size_t
      (to_size_t (sizeof_pack Types - value_traits_index T Types) - 1) in
  with_inst target_type <- tuple_element index Types;
  Some (fun this val => noexcept (
    store_type_index this (value_traits_index T Types) ;;
    log (converting_constructor_call target_type T val) ;;
    o <- lift (construct_from target_type T val) ;;
    store_data this o)).

(** [variant(variant<Types...> const& old)] *)
Definition variant_copy (Types : list ty) (this old : addr) : M obj unit :=
  i <- load_type_index old ;;
  store_type_index this i ;;
  i <- load_type_index old ;;
  variant_helper_copy Types i old this.

(** [variant(variant<Types...> && old) noexcept] *)
Definition variant_move (Types : list ty) (this old : addr) : M obj unit :=
  noexcept (
    i <- load_type_index old ;;
    store_type_index this i ;;
    i <- load_type_index old ;;
    variant_helper_move Types i old this).

(** [~variant() noexcept] *)
Definition variant_destructor (Types : list ty) (this : addr) : M obj unit :=
  noexcept (
    i <- load_type_index this ;;
    variant_helper_destroy Types i this).

(** ** variant<Types...>: assignment *)

Definition copy_assign (Types : list ty) (this rhs : addr) : M obj unit :=
  i <- load_type_index this ;;
  variant_helper_destroy Types i this ;;
  store_type_index this invalid_value ;;
  i <- load_type_index rhs ;;
  variant_helper_copy Types i rhs this ;;
  i <- load_type_index rhs ;;
  store_type_index this i.

Definition move_assign (Types : list ty) (this rhs : addr) : M obj unit :=
  i <- load_type_index this ;;
  variant_helper_destroy Types i this ;;
  store_type_index this invalid_value ;;
  i <- load_type_index rhs ;;
  variant_helper_move Types i rhs this ;;
  i <- load_type_index rhs ;;
  store_type_index this i.

(** The bodies of the two non-template members [operator=(variant &&)]
    and [operator=(variant const&)].  Which member an assignment
    expression selects is [operator_assign] below. *)
Definition operator_assign_move (Types : list ty) (this other : addr)
  : M obj unit := move_assign Types this other.

Definition operator_assign_copy (Types : list ty) (this other : addr)
  : M obj unit := copy_assign Types this other.

(** ** variant<Types...>: inspection *)

(** [is<T>()] ([is] is reserved) *)
Definition variant_is (T : ty) (Types : list ty)
  : Inst (addr -> M obj bool) :=
  requires variant_class Types;
  requires static_assert (has_type T Types);
  Some (fun this =>
    i <- load_type_index this ;;
    ret (i =? direct_type T Types)).

Definition valid (Types : list ty) (this : addr) : M obj bool :=
  i <- load_type_index this ;;
  ret (negb (i =? invalid_value)).

Definition get_type_index (Types : list ty) (this : addr) : M obj Z :=
  load_type_index this.

Definition which (Types : list ty) (this : addr) : M obj Z :=
  noexcept (
    i <- load_type_index this ;;
    ret (to_int (to_size_t (to_size_t (sizeof_pack Types - i) - 1)))).

(** [set<T>(args...)] *)
Definition set (T : ty) (Types : list ty)
  : Inst (addr -> list obj -> M obj unit) :=
  requires variant_class Types;
  Some (fun this args =>
    i <- load_type_index this ;;
    variant_helper_destroy Types i this ;;
    store_type_index this invalid_value ;;
    log (constructor_call T args) ;;
    o <- lift (construct_args T args) ;;
    store_data this o ;;
    store_type_index this (direct_type T Types)).

(** ** variant<Types...>: get<T>()

    Six member templates named [get]: for each of three ways [T] can be
    stored, a const and a non-const one.  Each is a candidate only when
    its [enable_if] condition holds. *)

Inductive get_overload : Type :=
| get_direct
| get_recursive_wrapper
| get_reference_wrapper.

(** [T const]: qualifying a type that is const already changes
    nothing. *)
Definition add_const (T : ty) : ty :=
  match T with
  | const _ => T
  | _ => const T
  end.

(** The alternative an overload looks for; [const_member] tells the
    const-qualified overloads from the others. *)
Definition get_stored_type (const_member : bool) (o : get_overload) (T : ty)
  : ty :=
  match o with
  | get_direct => T
  | get_recursive_wrapper => recursive_wrapper T
  | get_reference_wrapper =>
      reference_wrapper (if const_member then add_const T else T)
  end.

Definition get_enabled (const_member : bool) (T : ty) (Types : list ty)
    (o : get_overload) : bool :=
  negb (direct_type (get_stored_type const_member o T) Types =? invalid_value).

Definition get_candidates (const_member : bool) (T : ty) (Types : list ty)
  : list get_overload :=
  filter (get_enabled const_member T Types)
         [get_direct; get_recursive_wrapper; get_reference_wrapper].

(** Overload resolution.  The candidates differ only in their default
    template arguments, so two of the same constness are ambiguous.  On a
    const object only the const members are viable; on a non-const
    object a non-const member is the better match. *)
Definition get_resolve (const_object : bool) (T : ty) (Types : list ty)
  : Inst (bool * get_overload) :=
  let among_const :=
    match get_candidates true T Types with
    | [o] => Some (true, o)
    | _ => None
    end in
  if const_object then among_const
  else
    match get_candidates false T Types with
    | [] => among_const
    | [o] => Some (false, o)
    | _ => None
    end.

Definition get_body (const_member : bool) (o : get_overload) (T : ty)
    (Types : list ty) (this : addr) : M obj obj :=
  i <- load_type_index this ;;
  if i =? direct_type (get_stored_type const_member o T) Types then
    d <- load_data this ;;
    ret (match o with
         | get_direct => d
         | get_recursive_wrapper => recursive_wrapper_get d
         | get_reference_wrapper => reference_wrapper_get d
         end)
  else throw (bad_variant_access "in get<T>()").

(** What each overload returns of the stored object [d]. *)
Definition get_project (o : get_overload) (d : obj) : obj :=
  match o with
  | get_direct => d
  | get_recursive_wrapper => recursive_wrapper_get d
  | get_reference_wrapper => reference_wrapper_get d
  end.

Definition get (const_object : bool) (T : ty) (Types : list ty)
  : Inst (addr -> M obj obj) :=
  requires variant_class Types;
  with_inst chosen <- get_resolve const_object T Types;
  Some (get_body (fst chosen) (snd chosen) T Types).

(** ** detail::dispatcher (apply_const)

    A visitor class [F]: for each argument type either a viable
    [operator()] or none; the function object itself is passed by value.
    [V] is the pack of the variant visited, [Types] what is left to
    scan. *)

Definition visitor (F R : Type) : Type :=
  ty -> Inst (F -> obj -> M obj R).

Definition binary_visitor (F R : Type) : Type :=
  ty -> ty -> Inst (F -> obj -> obj -> M obj R).

Fixpoint dispatcher {F R : Type} (F_ : visitor F R) (V Types : list ty)
  : Inst (addr -> F -> M obj R) :=
  match Types with
  | [] => None
  | T :: Types' =>
      with_inst get_T <- get true T V;
      with_inst call <- F_ (visitor_argument T);
      match Types' with
      | [] =>
          Some (fun v f =>
            x <- get_T v ;;
            call f (unwrapper_apply_const T x))
      | _ :: _ =>
          with_inst next <- dispatcher F_ V Types';
          Some (fun v f =>
            i <- get_type_index V v ;;
            if i =? sizeof_pack Types' then
              x <- get_T v ;;
              call f (unwrapper_apply_const T x)
            else next v f)
      end
  end.

(** ** detail::binary_dispatcher_rhs, _lhs and binary_dispatcher

    The two arguments of the call to [f] are evaluated in an unspecified
    order; both are reads that can only throw the same exception, so the
    order cannot be observed.  [Types] is [T1, Types...]. *)

Fixpoint binary_dispatcher_rhs {F R : Type} (F_ : binary_visitor F R)
    (V : list ty) (T0 : ty) (Types : list ty)
  : Inst (addr -> addr -> F -> M obj R) :=
  match Types with
  | [] => None
  | T1 :: Types' =>
      with_inst get_T0 <- get true T0 V;
      with_inst get_T1 <- get true T1 V;
      with_inst call <- F_ (visitor_argument T0) (visitor_argument T1);
      let call_f := fun lhs rhs f =>
        x <- get_T0 lhs ;;
        y <- get_T1 rhs ;;
        call f (unwrapper_apply_const T0 x) (unwrapper_apply_const T1 y) in
      match Types' with
      | [] => Some call_f
      | _ :: _ =>
          with_inst next <- binary_dispatcher_rhs F_ V T0 Types';
          Some (fun lhs rhs f =>
            i <- get_type_index V rhs ;;
            if i =? sizeof_pack Types' then call_f lhs rhs f
            else next lhs rhs f)
      end
  end.

Fixpoint binary_dispatcher_lhs {F R : Type} (F_ : binary_visitor F R)
    (V : list ty) (T0 : ty) (Types : list ty)
  : Inst (addr -> addr -> F -> M obj R) :=
  match Types with
  | [] => None
  | T1 :: Types' =>
      with_inst get_T1 <- get true T1 V;
      with_inst get_T0 <- get true T0 V;
      with_inst call <- F_ (visitor_argument T1) (visitor_argument T0);
      let call_f := fun lhs rhs f =>
        x <- get_T1 lhs ;;
        y <- get_T0 rhs ;;
        call f (unwrapper_apply_const T1 x) (unwrapper_apply_const T0 y) in
      match Types' with
      | [] => Some call_f
      | _ :: _ =>
          with_inst next <- binary_dispatcher_lhs F_ V T0 Types';
          Some (fun lhs rhs f =>
            i <- get_type_index V lhs ;;
            if i =? sizeof_pack Types' then call_f lhs rhs f
            else next lhs rhs f)
      end
  end.

Fixpoint binary_dispatcher {F R : Type} (F_ : binary_visitor F R)
    (V Types : list ty) : Inst (addr -> addr -> F -> M obj R) :=
  match Types with
  | [] => None
  | T :: Types' =>
      with_inst get_T <- get true T V;
      with_inst call <- F_ (visitor_argument T) (visitor_argument T);
      let call_f := fun v0 v1 f =>
        x <- get_T v0 ;;
        y <- get_T v1 ;;
        call f (unwrapper_apply_const T x) (unwrapper_apply_const T y) in
      match Types' with
      | [] => Some call_f
      | _ :: _ =>
          with_inst rhs_scan <- binary_dispatcher_rhs F_ V T Types';
          with_inst lhs_scan <- binary_dispatcher_lhs F_ V T Types';
          with_inst next <- binary_dispatcher F_ V Types';
          Some (fun v0 v1 f =>
            i0 <- get_type_index V v0 ;;
            if i0 =? sizeof_pack Types' then
              i0 <- get_type_index V v0 ;;
              i1 <- get_type_index V v1 ;;
              if i0 =? i1 then call_f v0 v1 f
              else rhs_scan v0 v1 f
            else
              i1 <- get_type_index V v1 ;;
              if i1 =? sizeof_pack Types' then lhs_scan v0 v1 f
              else next v0 v1 f)
      end
  end.

(** ** detail::equal_comp, detail::less_comp, detail::comparer *)

Definition equal_comp (T : ty) (lhs rhs : obj) : bool := equal_to T lhs rhs.

Definition less_comp (T : ty) (lhs rhs : obj) : bool := less_than T lhs rhs.

(** The function object holds [lhs_], a reference to a variant. *)
Definition comparer (Variant : list ty) (Comp : ty -> obj -> obj -> bool)
  : visitor addr bool :=
  fun T =>
    with_inst get_T <- get true T Variant;
    Some (fun lhs_ rhs_content =>
      lhs_content <- get_T lhs_ ;;
      ret (Comp T lhs_content rhs_content)).

(** The ways an alternative can be stored so that the comparer, which
    calls [get] with the type its argument was deduced to, reads the
    same alternative back: [T] itself, [recursive_wrapper<T>] or
    [std::reference_wrapper<T const>], [T] without qualifier. *)
Definition comparable_storage (T : ty) : bool :=
  match T with
  | named _ => true
  | recursive_wrapper (const _) => false
  | recursive_wrapper _ => true
  | reference_wrapper (const (const _)) => false
  | reference_wrapper (const _) => true
  | _ => false
  end.

(** ** What a visitor is to receive, in the words of the specification

    "Unwrap the active value (through indirection if present)": for an
    alternative stored behind a recursive wrapper or a reference wrapper
    the visitor gets the payload, at the payload's type; for any other
    alternative the stored object itself.  The visitor receives a const
    reference, so a const qualifier on the alternative or on the payload
    makes no difference to the overload called: the type is given
    without it.  These two are written from that sentence, to be
    compared with [unwrapper] of the source. *)
Definition payload_type (T : ty) : ty :=
  match T with
  | recursive_wrapper (const U) => U
  | recursive_wrapper U => U
  | reference_wrapper (const U) => U
  | reference_wrapper U => U
  | const U => U
  | named _ => T
  end.

Definition payload_of (T : ty) (stored : obj) : obj :=
  match T with
  | recursive_wrapper _ => recursive_wrapper_get stored
  | reference_wrapper _ => reference_wrapper_get stored
  | const _ => stored
  | named _ => stored
  end.

(** ** variant<Types...>: visitation and comparison

    The const overloads of [visit] and [binary_visit]; the result type
    [R], which the source reads off the visitor, is a parameter. *)

Definition visit {F R : Type} (F_ : visitor F R) (Types : list ty)
  : Inst (addr -> F -> M obj R) :=
  requires variant_class Types;
  dispatcher F_ Types Types.

Definition binary_visit {F R : Type} (F_ : binary_visitor F R)
    (Types : list ty) : Inst (addr -> addr -> F -> M obj R) :=
  requires variant_class Types;
  binary_dispatcher F_ Types Types.

Definition operator_eq (Types : list ty) : Inst (addr -> addr -> M obj bool) :=
  with_inst visit_ <- visit (comparer Types equal_comp) Types;
  Some (fun this rhs =>
    i <- get_type_index Types this ;;
    j <- get_type_index Types rhs ;;
    if negb (i =? j) then ret false
    else visit_ rhs this).

Definition operator_lt (Types : list ty) : Inst (addr -> addr -> M obj bool) :=
  with_inst visit_ <- visit (comparer Types less_comp) Types;
  Some (fun this rhs =>
    i <- get_type_index Types this ;;
    j <- get_type_index Types rhs ;;
    if negb (i =? j) then
      i <- get_type_index Types this ;;
      j <- get_type_index Types rhs ;;
      ret (i <? j)
    else visit_ rhs this).

(** [apply_visitor(f, v)] and [apply_visitor(f, v0, v1)] *)
Definition apply_visitor {F R : Type} (F_ : visitor F R) (V : list ty)
  : Inst (F -> addr -> M obj R) :=
  with_inst visit_ <- visit F_ V;
  Some (fun f v => visit_ v f).

Definition apply_visitor2 {F R : Type} (F_ : binary_visitor F R)
    (V : list ty) : Inst (F -> addr -> addr -> M obj R) :=
  with_inst visit_ <- binary_visit F_ V;
  Some (fun f v0 v1 => visit_ v0 v1 f).

End Variant.

(** ** detail::static_max and the size of the storage

    [static_max<arg1, arg2, others...>] keeps the larger of its first two
    arguments and goes on with the rest; [static_max<arg>] is [arg].
    With no argument only the declaration is left. *)

Fixpoint static_max_from (arg1 : Z) (others : list Z) : Z :=
  match others with
  | [] => arg1
  | arg2 :: others' =>
      if arg1 >=? arg2 then static_max_from arg1 others'
      else static_max_from arg2 others'
  end.

Definition static_max (args : list Z) : Inst Z :=
  match args with
  | [] => None
  | arg1 :: others => Some (static_max_from arg1 others)
  end.

(** [data_size]: [static_max<sizeof(Types)...>::value]; [data_align] is
    the same with [alignof].  [sizeof] (or [alignof]) of a type is given
    by the function [measure]. *)
Definition data_size (measure : ty -> Z) (Types : list ty) : Inst Z :=
  static_max (map measure Types).

(** ** variant<Types...>: assignment from a value *)

Section Conversions.
Context {obj : Type} {alt : Alternatives obj}.

(** A block with a local object: when control leaves [body], by a return
    or by an exception, the destructor of the local runs. *)
Definition scope_exit {A : Type} (body : M obj A) (destructor : M obj unit)
  : M obj A :=
  fun w =>
    match body w with
    | (Terminate, w') => (Terminate, w')
    | (r, w') =>
        match destructor w' with
        | (Terminate, w'') => (Terminate, w'')
        | (_, w'') => (r, w'')
        end
    end.

(** [operator=(T && rhs) noexcept]: a local [temp] is built from [rhs]
    and moved from.  [temp] is the address of the local. *)
Definition operator_assign_value_move (T : ty) (Types : list ty)
  : Inst (addr -> addr -> obj -> M obj unit) :=
  with_inst ctor <- variant_value T Types;
  Some (fun this temp rhs => noexcept (
    ctor temp rhs ;;
    scope_exit (move_assign Types this temp)
               (variant_destructor Types temp))).

(** [operator=(T const& rhs)]: the local is built from a const lvalue,
    so the constructor is instantiated at [T const]; [T], deduced from
    [T const&], carries no qualifier of its own. *)
Definition operator_assign_value_copy (T : ty) (Types : list ty)
  : Inst (addr -> addr -> obj -> M obj unit) :=
  with_inst ctor <- variant_value (const T) Types;
  Some (fun this temp rhs =>
    ctor temp rhs ;;
    scope_exit (copy_assign Types this temp)
               (variant_destructor Types temp)).

(** ** variant<Types...>: which operator= an assignment selects

    The class has four members named [operator=]: the two above and the
    two templates.  For [v = other] with [other] a variant of the same
    type, overload resolution goes by the value category of [other]:

    - a non-const rvalue binds [variant&&] exactly in the non-template
      member, which is preferred to the template;
    - a const lvalue binds [variant const&] exactly in the non-template
      member, preferred to both templates;
    - a non-const lvalue binds [T&&] with [T = variant&] exactly, where
      the non-template member would add const: the template
      [operator=(T&&) noexcept] is selected;
    - a const rvalue binds [T&&] with [T = variant const], an rvalue
      reference, better than the lvalue reference of the others.

    In the template the local is built from [other] by the copy
    constructor: the converting constructor is enabled only for a type
    that converts to an alternative, which the variant type itself is
    taken not to do. *)

Inductive value_category : Type :=
| rvalue
| lvalue
| const_lvalue
| const_rvalue.

(** [operator=(T && rhs) noexcept] at [T = variant&] or
    [T = variant const]. *)
Definition operator_assign_template (Types : list ty)
    (this temp other : addr) : M obj unit :=
  noexcept (
    variant_copy Types temp other ;;
    scope_exit (move_assign Types this temp)
               (variant_destructor Types temp)).

Definition operator_assign (Types : list ty) (category : value_category)
    (this temp other : addr) : M obj unit :=
  match category with
  | rvalue => operator_assign_move Types this other
  | const_lvalue => operator_assign_copy Types this other
  | lvalue => operator_assign_template Types this temp other
  | const_rvalue => operator_assign_template Types this temp other
  end.

End Conversions.

(** ** A concrete universe of alternatives

    [int], [long], [std::string] and a class [fragile] whose copy and
    move constructors throw.  Objects are integers, strings, or a box
    owning another object (what a wrapper's [get()] dereferences). *)

Module Example.

Inductive value : Type :=
| int_value (z : Z)
| string_value (s : string)
| boxed (v : value).

Definition int_ : ty := named "int".
Definition long_ : ty := named "long".
Definition string_ : ty := named "std::string".
Definition fragile_ : ty := named "fragile".

Definition arithmetic (T : ty) : bool := is_same T int_ || is_same T long_.

Definition convertible (T U : ty) : bool :=
  is_same T U || (arithmetic T && arithmetic U).

Fixpoint value_eqb (a b : value) : bool :=
  match a, b with
  | int_value x, int_value y => x =? y
  | string_value s, string_value t => String.eqb s t
  | boxed u, boxed v => value_eqb u v
  | _, _ => false
  end.

Definition value_ltb (a b : value) : bool :=
  match a, b with
  | int_value x, int_value y => x <? y
  | string_value s, string_value t => String.ltb s t
  | _, _ => false
  end.

Definition unbox (v : value) : value :=
  match v with
  | boxed u => u
  | _ => v
  end.

Definition default_value (T : ty) : value :=
  if is_same T string_ then string_value "" else int_value 0.

Definition copy_of (T : ty) (v : value) : outcome value :=
  if is_same T fragile_ then Throw (foreign_exception 7) else Ret v.

Definition moved_from (T : ty) (v : value) : value :=
  if is_same T string_ then string_value "" else v.

#[export] Instance example_alternatives : Alternatives value := {
  is_convertible := convertible;
  is_default_constructible :=
    fun T => match T with reference_wrapper _ => false | _ => true end;
  default_construct := fun T => Ret (default_value T);
  construct_from := fun _ _ v => Ret v;
  construct_args :=
    fun T args => match args with
                  | [] => Ret (default_value T)
                  | v :: _ => Ret v
                  end;
  copy_construct := copy_of;
  move_construct := fun T v => (copy_of T v, moved_from T v);
  equal_to := fun _ => value_eqb;
  less_than := fun _ => value_ltb;
  recursive_wrapper_get := unbox;
  reference_wrapper_get := unbox
}.

Definition to_Z (v : value) : Z :=
  match v with
  | int_value z => z
  | _ => 0
  end.

(** A binary visitor adding two numbers; it has no overload for any
    other pair of types. *)
Definition adder : binary_visitor (obj := value) unit Z :=
  fun T0 T1 =>
    if arithmetic T0 && arithmetic T1
    then Some (fun _ x y => ret (to_Z x + to_Z y))
    else None.

(** Memory holding nothing but raw storage, and memory with two or three
    variants placed at addresses 1, 2 and 3. *)
Definition raw_heap : addr -> variant value :=
  fun _ => mk_variant 0 (int_value 0).

Definition place (a b : variant value) : world value :=
  mk_world (update (update raw_heap 1%nat a) 2%nat b) [].

Definition blank : world value := mk_world raw_heap [].

End Example.

(** ** More of the concrete universe

    Sizes for the storage, a unary visitor, and a second set of
    conversions in which a const-qualified type converts like the type
    itself. *)

Module Example2.
Import Example.

Definition size_of (T : ty) : Z :=
  if is_same T int_ then 4
  else if is_same T long_ then 8
  else 32.

(** A visitor with an overload for every type: the number held, or 0. *)
Definition numeral : visitor (obj := value) unit Z :=
  fun _ => Some (fun _ x => ret (to_Z x)).

Definition cv_alternatives : Alternatives value := {|
  is_convertible := fun T U => convertible (remove_const T) U;
  is_default_constructible :=
    fun T => match T with reference_wrapper _ => false | _ => true end;
  default_construct := fun T => Ret (default_value T);
  construct_from := fun _ _ v => Ret v;
  construct_args :=
    fun T args => match args with
                  | [] => Ret (default_value T)
                  | v :: _ => Ret v
                  end;
  copy_construct := copy_of;
  move_construct := fun T v => (copy_of T v, moved_from T v);
  equal_to := fun _ => value_eqb;
  less_than := fun _ => value_ltb;
  recursive_wrapper_get := unbox;
  reference_wrapper_get := unbox
|}.

(** A class held through [recursive_wrapper]. *)
Definition node : ty := named "node".

(** A binary visitor adding numbers, with overloads for [int], [long]
    and [node] arguments only: none for a wrapper type. *)
Definition numeric (T : ty) : bool := arithmetic T || is_same T node.

Definition node_adder : binary_visitor (obj := value) unit Z :=
  fun T0 T1 =>
    if numeric T0 && numeric T1
    then Some (fun _ x y => ret (to_Z x + to_Z y))
    else None.

End Example2.

(** * Properties *)

(** ** std::size_t arithmetic *)

Lemma invalid_value_eq : invalid_value = size_t_modulus - 1.
Proof. reflexivity. Qed.

Lemma to_size_t_small (z : Z) :
  0 <= z < size_t_modulus -> to_size_t z = z.
Proof. intros H. unfold to_size_t. apply Z.mod_small. exact H. Qed.

Lemma sizeof_pack_fits {A : Type} (Types : list A) :
  fits Types -> sizeof_pack Types = Z.of_nat (List.length Types).
Proof.
  intros H. unfold sizeof_pack. apply to_size_t_small.
  unfold fits in H. lia.
Qed.

Lemma fits_tail {A : Type} (T : A) (Types : list A) :
  fits (T :: Types) -> fits Types.
Proof. unfold fits. simpl List.length. lia. Qed.

Lemma fits_app_r {A : Type} (pre post : list A) :
  fits (pre ++ post) -> fits post.
Proof. unfold fits. rewrite length_app. lia. Qed.

Lemma is_same_true (T U : ty) : is_same T U = true <-> T = U.
Proof.
  unfold is_same. destruct (ty_eq_dec T U); split; congruence.
Qed.

Lemma is_same_refl (T : ty) : is_same T T = true.
Proof. apply is_same_true. reflexivity. Qed.

(** ** The type resolver *)

Lemma direct_type_range (T : ty) (Types : list ty) :
  fits Types ->
  direct_type T Types = invalid_value \/
  0 <= direct_type T Types < Z.of_nat (List.length Types).
Proof.
  induction Types as [|First Types' IH]; intros Hfit; simpl.
  - left. reflexivity.
  - destruct (is_same T First).
    + right. rewrite (sizeof_pack_fits Types' (fits_tail _ _ Hfit)).
      simpl List.length. lia.
    + destruct (IH (fits_tail _ _ Hfit)) as [E | R].
      * left. exact E.
      * right. simpl List.length. lia.
Qed.

Lemma has_type_direct_type (T : ty) (Types : list ty) :
  fits Types ->
  has_type T Types = true <-> direct_type T Types <> invalid_value.
Proof.
  induction Types as [|First Types' IH]; intros Hfit; simpl.
  - split; [discriminate | congruence].
  - destruct (is_same T First); simpl.
    + rewrite (sizeof_pack_fits Types' (fits_tail _ _ Hfit)).
      rewrite invalid_value_eq. unfold fits in Hfit. simpl List.length in Hfit.
      split; [lia | reflexivity].
    + apply IH. exact (fits_tail _ _ Hfit).
Qed.

(** A found type sits at position [N - 1 - index] of the pack. *)
Lemma direct_type_nth (T : ty) (Types : list ty) :
  fits Types ->
  direct_type T Types <> invalid_value ->
  nth_error Types
    (Z.to_nat (Z.of_nat (List.length Types) - 1 - direct_type T Types))
  = Some T.
Proof.
  induction Types as [|First Types' IH]; intros Hfit Hfound.
  - simpl in Hfound. congruence.
  - pose proof (fits_tail _ _ Hfit) as Hfit'.
    cbn [direct_type] in *. destruct (is_same T First) eqn:E.
    + apply is_same_true in E. subst First.
      rewrite (sizeof_pack_fits Types' Hfit').
      replace (Z.to_nat (Z.of_nat (List.length (T :: Types')) - 1
                         - Z.of_nat (List.length Types'))) with 0%nat
        by (cbn [List.length]; lia).
      reflexivity.
    + destruct (direct_type_range T Types' Hfit') as [E' | R]; [congruence|].
      replace (Z.to_nat (Z.of_nat (List.length (First :: Types')) - 1
                         - direct_type T Types'))
        with (S (Z.to_nat (Z.of_nat (List.length Types') - 1
                           - direct_type T Types')))
        by (cbn [List.length]; lia).
      cbn [nth_error]. apply IH; assumption.
Qed.

(** The first occurrence of [T], at position [i], has index [N - 1 - i]. *)
Lemma direct_type_first_occurrence (T : ty) (pre post : list ty) :
  fits (pre ++ T :: post) ->
  ~ In T pre ->
  direct_type T (pre ++ T :: post) = Z.of_nat (List.length post).
Proof.
  induction pre as [|P pre' IH]; intros Hfit Hnot; simpl.
  - rewrite is_same_refl. apply sizeof_pack_fits.
    exact (fits_tail _ _ Hfit).
  - destruct (is_same T P) eqn:E.
    + apply is_same_true in E. subst P. exfalso. apply Hnot. left. reflexivity.
    + apply IH.
      * exact (fits_tail _ _ Hfit).
      * intros Hin. apply Hnot. right. exact Hin.
Qed.

(** ** Build-time layer: inversion *)

Lemma inst_bind_inv {A B : Type} (i : Inst A) (k : A -> Inst B) (b : B) :
  inst_bind i k = Some b -> exists a, i = Some a /\ k a = Some b.
Proof.
  destruct i as [a|]; simpl; intros H.
  - exists a. split; [reflexivity | exact H].
  - discriminate.
Qed.

Ltac inst_inv H :=
  let a := fresh "a" in
  let E := fresh "E" in
  apply inst_bind_inv in H; destruct H as [a [E H]].

Ltac run :=
  unfold get_type_index, valid, bind, ret, throw, lift, load_type_index,
    load_data, store_type_index, store_data, log, noexcept;
  cbn [fst snd heap trace type_index data].

Section Properties.
Context {obj : Type} {alt : Alternatives obj}.

Lemma update_same (h : addr -> variant obj) (a : addr) (v : variant obj) :
  update h a v a = v.
Proof. unfold update. rewrite Nat.eqb_refl. reflexivity. Qed.

Lemma update_other (h : addr -> variant obj) (a b : addr) (v : variant obj) :
  a <> b -> update h a v b = h b.
Proof.
  intros H. unfold update. destruct (Nat.eqb b a) eqn:E.
  - apply Nat.eqb_eq in E. congruence.
  - reflexivity.
Qed.

Ltac lookup :=
  repeat first
    [ rewrite update_same
    | rewrite update_other by congruence
    | progress cbn [type_index data heap trace fst snd] ].

(** ** get<T>() *)

Lemma get_inv (c : bool) (T : ty) (Types : list ty) (g : addr -> M obj obj) :
  get c T Types = Some g ->
  exists cm o,
    get_resolve c T Types = Some (cm, o) /\ g = get_body cm o T Types.
Proof.
  unfold get. intros H. inst_inv H. inst_inv H.
  destruct a0 as [cm o]. exists cm, o. split; [exact E0|].
  simpl in H. congruence.
Qed.

(** An enabled overload of the constness asked for is the one chosen,
    when the call is well-formed at all. *)
Lemma get_resolve_enabled (c : bool) (T : ty) (Types : list ty)
    (chosen : bool * get_overload) (o : get_overload) :
  get_resolve c T Types = Some chosen ->
  get_enabled c T Types o = true ->
  chosen = (c, o).
Proof.
  unfold get_resolve, get_candidates. cbn [filter].
  destruct c.
  - destruct (get_enabled true T Types get_direct) eqn:E1,
             (get_enabled true T Types get_recursive_wrapper) eqn:E2,
             (get_enabled true T Types get_reference_wrapper) eqn:E3;
      intros H He; destruct o; try congruence.
  - destruct (get_enabled false T Types get_direct) eqn:E1,
             (get_enabled false T Types get_recursive_wrapper) eqn:E2,
             (get_enabled false T Types get_reference_wrapper) eqn:E3;
      intros H He; destruct o; try congruence.
Qed.

Lemma get_body_match (cm : bool) (o : get_overload) (T : ty)
    (Types : list ty) (this : addr) (w : world obj) :
  type_index (heap w this) = direct_type (get_stored_type cm o T) Types ->
  get_body cm o T Types this w = (Ret (get_project o (data (heap w this))), w).
Proof.
  intros H. unfold get_body. run. rewrite H, Z.eqb_refl. run.
  destruct o; reflexivity.
Qed.

Lemma get_body_mismatch (cm : bool) (o : get_overload) (T : ty)
    (Types : list ty) (this : addr) (w : world obj) :
  type_index (heap w this) <> direct_type (get_stored_type cm o T) Types ->
  get_body cm o T Types this w
  = (Throw (bad_variant_access "in get<T>()"), w).
Proof.
  intros H. unfold get_body. run.
  destruct (Z.eqb_spec (type_index (heap w this))
              (direct_type (get_stored_type cm o T) Types)); [contradiction|].
  reflexivity.
Qed.

(** When [T] itself is in the pack, a well-formed [get<T>()] is the
    direct overload. *)
Lemma get_declared (c : bool) (T : ty) (Types : list ty)
    (g : addr -> M obj obj) :
  get c T Types = Some g ->
  direct_type T Types <> invalid_value ->
  g = get_body c get_direct T Types.
Proof.
  intros Hg Hfound. apply get_inv in Hg. destruct Hg as [cm [o [Hr Hg]]].
  assert (He : get_enabled c T Types get_direct = true).
  { unfold get_enabled. cbn [get_stored_type].
    destruct (Z.eqb_spec (direct_type T Types) invalid_value);
      [contradiction | reflexivity]. }
  pose proof (get_resolve_enabled _ _ _ _ _ Hr He) as Hc.
  injection Hc as -> ->. exact Hg.
Qed.

(** ** Construction from a value *)

Lemma value_traits_index_declared (T : ty) (Types : list ty) :
  direct_type T Types <> invalid_value ->
  value_traits_index T Types = direct_type T Types.
Proof.
  intros H. unfold value_traits_index.
  destruct (Z.eqb_spec (direct_type T Types) invalid_value);
    [contradiction | reflexivity].
Qed.

Lemma tuple_element_declared (T : ty) (Types : list ty) :
  fits Types ->
  direct_type T Types <> invalid_value ->
  tuple_element
    (to_size_t (to_size_t (sizeof_pack Types - direct_type T Types) - 1))
    Types = Some T.
Proof.
  intros Hfit Hfound.
  destruct (direct_type_range T Types Hfit) as [E | R]; [contradiction|].
  rewrite (sizeof_pack_fits Types Hfit).
  assert (Hlen : Z.of_nat (List.length Types) < size_t_modulus) by exact Hfit.
  rewrite (to_size_t_small (Z.of_nat (List.length Types) - direct_type T Types))
    by lia.
  rewrite to_size_t_small by lia.
  unfold tuple_element.
  destruct (Z.ltb_spec
              (Z.of_nat (List.length Types) - direct_type T Types - 1) 0);
    [lia|].
  replace (Z.of_nat (List.length Types) - direct_type T Types - 1)
    with (Z.of_nat (List.length Types) - 1 - direct_type T Types) by lia.
  apply direct_type_nth; assumption.
Qed.

(** What the converting constructor does when [T] is a declared
    alternative and its construction from [val] returns [o]. *)
Lemma variant_value_declared (T : ty) (Types : list ty)
    (ctor : addr -> obj -> M obj unit) (this : addr) (val o : obj)
    (w : world obj) :
  fits Types ->
  direct_type T Types <> invalid_value ->
  variant_value T Types = Some ctor ->
  construct_from T T val = Ret o ->
  exists w',
    ctor this val w = (Ret tt, w') /\
    heap w' this = mk_variant (direct_type T Types) o /\
    (forall a, a <> this -> heap w' a = heap w a) /\
    trace w' = trace w ++ [converting_constructor_call T T val].
Proof.
  intros Hfit Hfound Hctor Hval.
  unfold variant_value in Hctor. inst_inv Hctor. inst_inv Hctor.
  cbv zeta in Hctor. inst_inv Hctor.
  rewrite (value_traits_index_declared T Types Hfound) in E1.
  rewrite (tuple_element_declared T Types Hfit Hfound) in E1.
  injection E1 as <-.
  injection Hctor as <-.
  rewrite (value_traits_index_declared T Types Hfound).
  run. rewrite Hval. run.
  eexists. split; [reflexivity|]. cbn [heap trace].
  split; [|split].
  - rewrite !update_same. reflexivity.
  - intros b Hb. rewrite !update_other by congruence. reflexivity.
  - reflexivity.
Qed.

(** X20: the converting constructor instantiated at a declared
    alternative [T] itself, which is what an rvalue or a non-const
    lvalue of type [T] selects: the variant built from [v] is one on
    which [is<T>()] and [valid()] return true and [get<T>()] (on a const
    or a non-const object) returns [v].  The constructor and the
    accessor are any well-formed instantiations, and constructing a [T]
    from [v] is assumed to reproduce [v].  A const lvalue instantiates
    the constructor at [T const] and is not covered. *)
Theorem construct_then_is_valid_get (Types : list ty) (T : ty) (c : bool)
    (ctor : addr -> obj -> M obj unit) (get_T : addr -> M obj obj)
    (this : addr) (v : obj) (w : world obj) :
  fits Types ->
  has_type T Types = true ->
  variant_value T Types = Some ctor ->
  get c T Types = Some get_T ->
  construct_from T T v = Ret v ->
  exists is_T w',
    variant_is T Types = Some is_T /\
    ctor this v w = (Ret tt, w') /\
    is_T this w' = (Ret true, w') /\
    valid Types this w' = (Ret true, w') /\
    get_T this w' = (Ret v, w').
Proof.
  intros Hfit Hhas Hctor Hget Hval.
  pose proof (proj1 (has_type_direct_type T Types Hfit) Hhas) as Hfound.
  destruct (variant_value_declared T Types ctor this v v w
              Hfit Hfound Hctor Hval) as [w' [Hrun [Hthis [_ _]]]].
  assert (Hclass : variant_class Types = Some tt).
  { unfold variant_value in Hctor. inst_inv Hctor. destruct a. exact E. }
  exists (fun this0 =>
            i <- load_type_index this0 ;; ret (i =? direct_type T Types)), w'.
  split; [|split; [exact Hrun|split; [|split]]].
  - unfold variant_is. rewrite Hclass, Hhas. reflexivity.
  - run. rewrite Hthis. cbn [type_index]. rewrite Z.eqb_refl. reflexivity.
  - run. rewrite Hthis. cbn [type_index].
    destruct (Z.eqb_spec (direct_type T Types) invalid_value);
      [contradiction | reflexivity].
  - rewrite (get_declared c T Types get_T Hget Hfound).
    rewrite get_body_match by (rewrite Hthis; reflexivity).
    rewrite Hthis. reflexivity.
Qed.

(** Two declared types with the same index are the same type. *)
Lemma direct_type_inj (T U : ty) (Types : list ty) :
  fits Types ->
  direct_type T Types <> invalid_value ->
  direct_type T Types = direct_type U Types ->
  T = U.
Proof.
  intros Hfit HT HTU.
  pose proof (direct_type_nth T Types Hfit HT) as ET.
  assert (HU : direct_type U Types <> invalid_value) by congruence.
  pose proof (direct_type_nth U Types Hfit HU) as EU.
  rewrite HTU in ET. congruence.
Qed.

Lemma variant_is_inv (T : ty) (Types : list ty) (is_T : addr -> M obj bool) :
  variant_is T Types = Some is_T ->
  has_type T Types = true /\
  is_T = (fun this =>
            i <- load_type_index this ;; ret (i =? direct_type T Types)).
Proof.
  unfold variant_is. intros H. inst_inv H. inst_inv H.
  unfold static_assert in E0.
  destruct (has_type T Types); [|discriminate].
  split; [reflexivity | congruence].
Qed.

(** ** Access with the wrong type *)

(** C3: on a variant whose active alternative is [U] ([is<U>()] returns
    true), [get<T>()] for a declared alternative [T] other than [U]
    throws [bad_variant_access] with the message of the source and leaves
    memory and trace as they were, so [is<U>()] still returns true and
    the stored object is the same.  Conversely [get<T>()] never changes
    memory, and when it throws, it throws that exception and the tag is
    not the index of [T]. *)
Theorem get_wrong_type_throws (Types : list ty) (T U : ty) (c : bool)
    (get_T : addr -> M obj obj) (is_U : addr -> M obj bool)
    (this : addr) (w : world obj) :
  fits Types ->
  has_type T Types = true ->
  get c T Types = Some get_T ->
  variant_is U Types = Some is_U ->
  is_U this w = (Ret true, w) ->
  U <> T ->
  get_T this w = (Throw (bad_variant_access "in get<T>()"), w) /\
  is_U this (snd (get_T this w)) = (Ret true, snd (get_T this w)) /\
  heap (snd (get_T this w)) this = heap w this /\
  (forall (that : addr) (w0 : world obj),
      snd (get_T that w0) = w0 /\
      forall e, fst (get_T that w0) = Throw e ->
                e = bad_variant_access "in get<T>()" /\
                type_index (heap w0 that) <> direct_type T Types).
Proof.
  intros Hfit HhasT Hget His Hactive Hne.
  pose proof (proj1 (has_type_direct_type T Types Hfit) HhasT) as HT.
  rewrite (get_declared c T Types get_T Hget HT).
  destruct (variant_is_inv U Types is_U His) as [HhasU ->].
  pose proof (proj1 (has_type_direct_type U Types Hfit) HhasU) as HU.
  assert (Htag : type_index (heap w this) = direct_type U Types).
  { revert Hactive. run. intros Hactive.
    destruct (Z.eqb_spec (type_index (heap w this)) (direct_type U Types));
      [assumption | discriminate]. }
  assert (Hmis : type_index (heap w this) <> direct_type T Types).
  { rewrite Htag. intros Heq. apply Hne.
    exact (direct_type_inj U T Types Hfit HU Heq). }
  rewrite (get_body_mismatch c get_direct T Types this w Hmis).
  cbn [snd fst].
  split; [reflexivity|]. split; [exact Hactive|]. split; [reflexivity|].
  intros that w0.
  destruct (Z.eq_dec (type_index (heap w0 that)) (direct_type T Types))
    as [Heq | Hneq].
  - rewrite (get_body_match c get_direct T Types that w0 Heq). cbn [snd fst].
    split; [reflexivity | discriminate].
  - rewrite (get_body_mismatch c get_direct T Types that w0 Hneq).
    cbn [snd fst]. split; [reflexivity|].
    intros e He. injection He as <-. split; [reflexivity | exact Hneq].
Qed.

(** ** Unary dispatch *)

Lemma sizeof_pack_suffix_ne {A : Type} (pre : list A) (T : A) (post : list A) :
  fits (pre ++ T :: post) ->
  sizeof_pack post <> sizeof_pack (pre ++ T :: post).
Proof.
  intros Hfit.
  rewrite (sizeof_pack_fits _ Hfit).
  rewrite (sizeof_pack_fits post (fits_tail T post (fits_app_r pre _ Hfit))).
  rewrite length_app. cbn [List.length]. lia.
Qed.

Lemma dispatcher_cons {F R : Type} (F_ : visitor F R) (V : list ty)
    (T Q : ty) (rest : list ty) :
  dispatcher F_ V (T :: Q :: rest) =
  (with_inst get_T <- get true T V;
   with_inst call <- F_ (visitor_argument T);
   with_inst next <- dispatcher F_ V (Q :: rest);
   Some (fun v f =>
     i <- get_type_index V v ;;
     if i =? sizeof_pack (Q :: rest) then
       x <- get_T v ;;
       call f (unwrapper_apply_const T x)
     else next v f)).
Proof. reflexivity. Qed.

(** The scan stops at the alternative whose index is the tag. *)
Lemma dispatcher_scan {F R : Type} (F_ : visitor F R) (V : list ty)
    (pre : list ty) (T : ty) (post : list ty)
    (d : addr -> F -> M obj R) (v : addr) (f : F) (w : world obj) :
  dispatcher F_ V (pre ++ T :: post) = Some d ->
  fits (pre ++ T :: post) ->
  type_index (heap w v) = sizeof_pack post ->
  exists get_T call,
    get true T V = Some get_T /\
    F_ (visitor_argument T) = Some call /\
    d v f w = (x <- get_T v ;; call f (unwrapper_apply_const T x)) w.
Proof.
  revert d. induction pre as [|P pre' IH]; intros d Hd Hfit Htag.
  - cbn [app] in Hd. destruct post as [|Q rest].
    + cbn [dispatcher] in Hd. inst_inv Hd. inst_inv Hd.
      injection Hd as <-. exists a, a0. repeat split; assumption.
    + rewrite dispatcher_cons in Hd. inst_inv Hd. inst_inv Hd. inst_inv Hd.
      injection Hd as <-. exists a, a0. split; [assumption|].
      split; [assumption|].
      unfold get_type_index, load_type_index, bind at 1.
      rewrite Htag, Z.eqb_refl. reflexivity.
  - cbn [app] in Hd, Hfit.
    pose proof (sizeof_pack_suffix_ne pre' T post (fits_tail _ _ Hfit)) as Hne.
    destruct (pre' ++ T :: post) as [|Q rest] eqn:Erest.
    + destruct pre'; discriminate.
    + rewrite dispatcher_cons in Hd. inst_inv Hd. inst_inv Hd. inst_inv Hd.
      injection Hd as <-.
      destruct (IH a1 E1 (fits_tail _ _ Hfit) Htag)
        as [get_T [call [Hg [Hc Hrun]]]].
      exists get_T, call. split; [assumption|]. split; [assumption|].
      rewrite <- Hrun.
      unfold get_type_index, load_type_index, bind at 1.
      rewrite Htag.
      destruct (Z.eqb_spec (sizeof_pack post) (sizeof_pack (Q :: rest)));
        [contradiction | reflexivity].
Qed.

(** With a tag that is the index of no earlier alternative the scan
    reaches the last alternative, which is not compared with the tag. *)
Lemma dispatcher_last {F R : Type} (F_ : visitor F R) (V : list ty)
    (pre : list ty) (T : ty)
    (d : addr -> F -> M obj R) (v : addr) (f : F) (w : world obj) :
  dispatcher F_ V (pre ++ [T]) = Some d ->
  fits (pre ++ [T]) ->
  ~ (0 < type_index (heap w v) < Z.of_nat (List.length (pre ++ [T]))) ->
  exists get_T call,
    get true T V = Some get_T /\
    F_ (visitor_argument T) = Some call /\
    d v f w = (x <- get_T v ;; call f (unwrapper_apply_const T x)) w.
Proof.
  revert d. induction pre as [|P pre' IH]; intros d Hd Hfit Htag.
  - cbn [app dispatcher] in Hd. inst_inv Hd. inst_inv Hd.
    injection Hd as <-. exists a, a0. repeat split; assumption.
  - cbn [app] in Hd, Hfit, Htag.
    assert (Hsz : sizeof_pack (pre' ++ [T])
                  = Z.of_nat (List.length (pre' ++ [T])))
      by (apply sizeof_pack_fits; exact (fits_tail _ _ Hfit)).
    assert (Hpos : 0 < Z.of_nat (List.length (pre' ++ [T])))
      by (rewrite length_app; cbn [List.length]; lia).
    cbn [List.length] in Htag.
    destruct (pre' ++ [T]) as [|Q rest] eqn:Erest.
    + destruct pre'; discriminate.
    + rewrite dispatcher_cons in Hd. inst_inv Hd. inst_inv Hd. inst_inv Hd.
      injection Hd as <-.
      assert (Htag' : ~ (0 < type_index (heap w v)
                         < Z.of_nat (List.length (Q :: rest)))) by lia.
      destruct (IH a1 E1 (fits_tail _ _ Hfit) Htag')
        as [get_T [call [Hg [Hc Hrun]]]].
      exists get_T, call. split; [assumption|]. split; [assumption|].
      rewrite <- Hrun.
      unfold get_type_index, load_type_index, bind at 1.
      destruct (Z.eqb_spec (type_index (heap w v)) (sizeof_pack (Q :: rest)));
        [lia | reflexivity].
Qed.

(** ** Comparison visitors *)

Lemma comparable_storage_overload (T : ty) :
  comparable_storage T = true ->
  exists o,
    get_stored_type true o (visitor_argument T) = T /\
    forall d, get_project o d = unwrapper_apply_const T d.
Proof.
  destruct T as [n | U | U | U]; cbn [comparable_storage]; intros H.
  - exists get_direct. split; reflexivity.
  - discriminate.
  - exists get_recursive_wrapper. destruct U; try discriminate;
      split; reflexivity.
  - exists get_reference_wrapper. destruct U as [n | V | V | V];
      try discriminate.
    destruct V; try discriminate; split; reflexivity.
Qed.

Lemma direct_type_split (T : ty) (Types : list ty) :
  direct_type T Types <> invalid_value ->
  exists pre post,
    Types = pre ++ T :: post /\ direct_type T Types = sizeof_pack post.
Proof.
  induction Types as [|First Types' IH]; cbn [direct_type]; intros H.
  - congruence.
  - destruct (is_same T First) eqn:E.
    + apply is_same_true in E. subst First.
      exists [], Types'. split; reflexivity.
    + destruct (IH H) as [pre [post [-> Hidx]]].
      exists (First :: pre), post. split; [reflexivity | exact Hidx].
Qed.

Lemma comparer_call (Types : list ty) (Comp : ty -> obj -> obj -> bool)
    (T : ty) (call : addr -> obj -> M obj bool)
    (lhs_ : addr) (rhs_content : obj) (w : world obj) :
  comparer Types Comp (visitor_argument T) = Some call ->
  direct_type T Types <> invalid_value ->
  comparable_storage T = true ->
  type_index (heap w lhs_) = direct_type T Types ->
  call lhs_ rhs_content w
  = (Ret (Comp (visitor_argument T)
               (unwrapper_apply_const T (data (heap w lhs_))) rhs_content), w).
Proof.
  intros Hcall Hfound Hstore Htag.
  unfold comparer in Hcall. inst_inv Hcall. injection Hcall as <-.
  destruct (comparable_storage_overload T Hstore) as [o [Hst Hproj]].
  apply get_inv in E. destruct E as [cm [o' [Hres ->]]].
  assert (He : get_enabled true (visitor_argument T) Types o = true).
  { unfold get_enabled. rewrite Hst.
    destruct (Z.eqb_spec (direct_type T Types) invalid_value);
      [contradiction | reflexivity]. }
  pose proof (get_resolve_enabled _ _ _ _ _ Hres He) as Hc.
  injection Hc as -> ->.
  unfold bind at 1.
  rewrite get_body_match by (rewrite Hst; exact Htag).
  rewrite Hproj. reflexivity.
Qed.

(** Both operands hold the declared alternative [T]: the comparer is
    called once, with the two unwrapped objects. *)
Lemma visit_comparer_same (Types : list ty) (Comp : ty -> obj -> obj -> bool)
    (T : ty) (visit_ : addr -> addr -> M obj bool)
    (this rhs : addr) (w : world obj) :
  visit (comparer Types Comp) Types = Some visit_ ->
  fits Types ->
  direct_type T Types <> invalid_value ->
  comparable_storage T = true ->
  type_index (heap w this) = direct_type T Types ->
  type_index (heap w rhs) = direct_type T Types ->
  visit_ rhs this w
  = (Ret (Comp (visitor_argument T)
               (unwrapper_apply_const T (data (heap w this)))
               (unwrapper_apply_const T (data (heap w rhs)))), w).
Proof.
  intros Hvisit Hfit Hfound Hstore Hthis Hrhs.
  unfold visit in Hvisit. inst_inv Hvisit.
  destruct (direct_type_split T Types Hfound) as [pre [post [HTypes Hidx]]].
  assert (Hd : dispatcher (comparer Types Comp) Types (pre ++ T :: post)
               = Some visit_) by (rewrite <- HTypes; exact Hvisit).
  assert (Hfit' : fits (pre ++ T :: post)) by (rewrite <- HTypes; exact Hfit).
  rewrite Hidx in Hrhs.
  destruct (dispatcher_scan _ _ _ _ _ _ rhs this w Hd Hfit' Hrhs)
    as [get_T [call [Hg [Hc ->]]]].
  rewrite (get_declared true T Types get_T Hg Hfound).
  unfold bind.
  rewrite get_body_match by (cbn [get_stored_type]; rewrite Hidx; exact Hrhs).
  cbn [get_project].
  apply (comparer_call Types Comp T call this _ w Hc Hfound Hstore Hthis).
Qed.

Lemma variant_class_nonempty (Types : list ty) :
  variant_class Types = Some tt ->
  exists pre T, Types = pre ++ [T].
Proof.
  intros H. destruct Types as [|T0 rest].
  - discriminate.
  - destruct (exists_last (l := T0 :: rest)) as [pre [T E]]; [discriminate|].
    exists pre, T. exact E.
Qed.

(** The visited operand has the invalid tag: the scan falls through to
    the last alternative and [get] throws. *)
Lemma visit_invalid {F R : Type} (F_ : visitor F R) (Types : list ty)
    (visit_ : addr -> F -> M obj R) (v : addr) (f : F) (w : world obj) :
  visit F_ Types = Some visit_ ->
  fits Types ->
  type_index (heap w v) = invalid_value ->
  visit_ v f w = (Throw (bad_variant_access "in get<T>()"), w).
Proof.
  intros Hvisit Hfit Htag.
  unfold visit in Hvisit. inst_inv Hvisit. destruct a.
  destruct (variant_class_nonempty Types E) as [pre [T HTypes]].
  assert (Hlast : ~ (0 < type_index (heap w v)
                     < Z.of_nat (List.length (pre ++ [T])))).
  { rewrite Htag, invalid_value_eq. rewrite <- HTypes.
    unfold fits in Hfit. lia. }
  assert (Hd : dispatcher F_ Types (pre ++ [T]) = Some visit_)
    by (rewrite <- HTypes; exact Hvisit).
  assert (Hfit' : fits (pre ++ [T])) by (rewrite <- HTypes; exact Hfit).
  destruct (dispatcher_last _ _ _ _ _ v f w Hd Hfit' Hlast)
    as [get_T [call [Hg [Hc ->]]]].
  assert (Hfound : direct_type T Types <> invalid_value).
  { apply has_type_direct_type; [exact Hfit|].
    rewrite HTypes. clear. induction pre as [|P pre' IH]; cbn [app has_type].
    - rewrite is_same_refl. reflexivity.
    - rewrite IH. apply orb_true_r. }
  rewrite (get_declared true T Types get_T Hg Hfound).
  unfold bind.
  rewrite get_body_mismatch; [reflexivity|].
  cbn [get_stored_type]. rewrite Htag. congruence.
Qed.

Lemma is_true_tag (T : ty) (Types : list ty) (is_T : addr -> M obj bool)
    (this : addr) (w : world obj) :
  variant_is T Types = Some is_T ->
  is_T this w = (Ret true, w) ->
  type_index (heap w this) = direct_type T Types.
Proof.
  intros His Hrun. destruct (variant_is_inv T Types is_T His) as [_ ->].
  revert Hrun. run. intros Hrun.
  destruct (Z.eqb_spec (type_index (heap w this)) (direct_type T Types));
    [assumption | discriminate].
Qed.

Lemma is_declared (T : ty) (Types : list ty) (is_T : addr -> M obj bool) :
  fits Types ->
  variant_is T Types = Some is_T ->
  direct_type T Types <> invalid_value.
Proof.
  intros Hfit His. apply has_type_direct_type; [exact Hfit|].
  exact (proj1 (variant_is_inv T Types is_T His)).
Qed.

(** In a pack of distinct types the alternative at position [i] has
    index [N - 1 - i]. *)
Lemma direct_type_position (Types : list ty) (i : nat) (T : ty) :
  fits Types ->
  NoDup Types ->
  nth_error Types i = Some T ->
  direct_type T Types = Z.of_nat (List.length Types) - 1 - Z.of_nat i.
Proof.
  intros Hfit Hnd Hnth.
  destruct (nth_error_split Types i Hnth) as [l1 [l2 [-> Hlen]]].
  rewrite direct_type_first_occurrence.
  - rewrite length_app. cbn [List.length]. lia.
  - exact Hfit.
  - apply NoDup_remove_2 in Hnd. intros Hin. apply Hnd.
    apply in_or_app. left. exact Hin.
Qed.

(** ** operator== and operator<: what the bodies compute *)

Lemma operator_eq_inv (Types : list ty) (op : addr -> addr -> M obj bool) :
  operator_eq Types = Some op ->
  exists visit_,
    visit (comparer Types equal_comp) Types = Some visit_ /\
    forall a b w,
      op a b w =
      if type_index (heap w a) =? type_index (heap w b)
      then visit_ b a w
      else (Ret false, w).
Proof.
  unfold operator_eq. intros H. inst_inv H. injection H as <-.
  exists a. split; [exact E|]. intros x y w. run.
  destruct (type_index (heap w x) =? type_index (heap w y)); reflexivity.
Qed.

Lemma operator_lt_inv (Types : list ty) (op : addr -> addr -> M obj bool) :
  operator_lt Types = Some op ->
  exists visit_,
    visit (comparer Types less_comp) Types = Some visit_ /\
    forall a b w,
      op a b w =
      if type_index (heap w a) =? type_index (heap w b)
      then visit_ b a w
      else (Ret (type_index (heap w a) <? type_index (heap w b)), w).
Proof.
  unfold operator_lt. intros H. inst_inv H. injection H as <-.
  exists a. split; [exact E|]. intros x y w. run.
  destruct (type_index (heap w x) =? type_index (heap w y)); reflexivity.
Qed.

(** ** unwrapper against the payload of the specification *)

Lemma visitor_argument_payload (T : ty) : visitor_argument T = payload_type T.
Proof.
  destruct T as [n | V | V | V]; try reflexivity;
    destruct V; reflexivity.
Qed.

Lemma unwrapper_apply_const_payload (T : ty) (o : obj) :
  unwrapper_apply_const T o = payload_of T o.
Proof. destruct T; reflexivity. Qed.

(** ** operator== *)

(** X22: for operands holding the declared alternatives [T] and [U],
    [operator==] returns false when [T] and [U] differ, whatever the
    storage holds, equal contents included.  When [T] is stored so that
    the comparer reads it back ([T] an unqualified type, or
    [recursive_wrapper] of one, or [std::reference_wrapper] of a const
    one), [operator==] returns true exactly when the tags are equal and
    the two payloads are equal under the equality of the payload
    type. *)
Theorem operator_eq_tags_then_values (Types : list ty) (T U : ty)
    (op : addr -> addr -> M obj bool) (is_T is_U : addr -> M obj bool)
    (a b : addr) (w : world obj) :
  fits Types ->
  operator_eq Types = Some op ->
  variant_is T Types = Some is_T ->
  variant_is U Types = Some is_U ->
  is_T a w = (Ret true, w) ->
  is_U b w = (Ret true, w) ->
  (comparable_storage T = true ->
   op a b w
   = (Ret ((type_index (heap w a) =? type_index (heap w b))
           && equal_to (payload_type T)
                (payload_of T (data (heap w a)))
                (payload_of T (data (heap w b)))), w)) /\
  (T <> U -> op a b w = (Ret false, w)) /\
  (T <> U -> data (heap w a) = data (heap w b) -> op a b w = (Ret false, w)).
Proof.
  intros Hfit Hop HisT HisU Ha Hb.
  rewrite <- visitor_argument_payload, <- !unwrapper_apply_const_payload.
  pose proof (is_true_tag T Types is_T a w HisT Ha) as Hta.
  pose proof (is_true_tag U Types is_U b w HisU Hb) as Htb.
  pose proof (is_declared T Types is_T Hfit HisT) as HT.
  destruct (operator_eq_inv Types op Hop) as [visit_ [Hvisit Hrun]].
  assert (Hdiff : T <> U -> type_index (heap w a) <> type_index (heap w b)).
  { intros Hne Heq. apply Hne. rewrite Hta, Htb in Heq.
    exact (direct_type_inj T U Types Hfit HT Heq). }
  rewrite Hrun.
  destruct (Z.eqb_spec (type_index (heap w a)) (type_index (heap w b)))
    as [Heq | Hneq]; cbn [andb].
  - split; [|split]; try (intros Hne; exfalso; exact (Hdiff Hne Heq)).
    intros Hstore.
    apply (visit_comparer_same Types equal_comp T visit_ a b w Hvisit Hfit HT
             Hstore Hta).
    rewrite <- Heq. exact Hta.
  - repeat split.
Qed.

(** ** operator< *)

(** X21: what [operator<] does between different alternatives.  In a
    pack of distinct types, with [i < j], a value holding the
    alternative at position [j] is less than a value holding the
    alternative at position [i], and not the other way round, whatever
    the two objects are: the tags are compared, and the tag of an
    alternative is the number of alternatives declared after it.  Between
    two values of the same alternative, stored so that the comparer
    reads it back (an unqualified type, [recursive_wrapper] of one, or
    [std::reference_wrapper] of a const one), the ordering of the
    payload type decides. *)
Theorem operator_lt_tags_then_values (Types : list ty) (i j : nat)
    (Ti Tj : ty) (op : addr -> addr -> M obj bool)
    (is_i is_j : addr -> M obj bool) (a b : addr) (w : world obj) :
  fits Types ->
  NoDup Types ->
  nth_error Types i = Some Ti ->
  nth_error Types j = Some Tj ->
  (i < j)%nat ->
  operator_lt Types = Some op ->
  variant_is Ti Types = Some is_i ->
  variant_is Tj Types = Some is_j ->
  is_i a w = (Ret true, w) ->
  is_j b w = (Ret true, w) ->
  op a b w = (Ret false, w) /\
  op b a w = (Ret true, w) /\
  (comparable_storage Ti = true ->
   forall a', is_i a' w = (Ret true, w) ->
     op a a' w
     = (Ret (less_than (payload_type Ti)
               (payload_of Ti (data (heap w a)))
               (payload_of Ti (data (heap w a')))), w)).
Proof.
  intros Hfit Hnd Hi Hj Hlt Hop Hisi Hisj Ha Hb.
  pose proof (is_true_tag Ti Types is_i a w Hisi Ha) as Hta.
  pose proof (is_true_tag Tj Types is_j b w Hisj Hb) as Htb.
  pose proof (direct_type_position Types i Ti Hfit Hnd Hi) as Hpi.
  pose proof (direct_type_position Types j Tj Hfit Hnd Hj) as Hpj.
  destruct (operator_lt_inv Types op Hop) as [visit_ [Hvisit Hrun]].
  rewrite !Hrun.
  split; [|split].
  - destruct (Z.eqb_spec (type_index (heap w a)) (type_index (heap w b)));
      [lia|].
    destruct (Z.ltb_spec (type_index (heap w a)) (type_index (heap w b)));
      [lia | reflexivity].
  - destruct (Z.eqb_spec (type_index (heap w b)) (type_index (heap w a)));
      [lia|].
    destruct (Z.ltb_spec (type_index (heap w b)) (type_index (heap w a)));
      [reflexivity | lia].
  - intros Hstore a' Ha'.
    rewrite <- visitor_argument_payload, <- !unwrapper_apply_const_payload.
    pose proof (is_true_tag Ti Types is_i a' w Hisi Ha') as Hta'.
    pose proof (is_declared Ti Types is_i Hfit Hisi) as HT.
    rewrite Hrun, Hta, Hta', Z.eqb_refl.
    apply (visit_comparer_same Types less_comp Ti visit_ a a' w Hvisit Hfit HT
             Hstore Hta Hta').
Qed.

(** C10: two variants built with [variant(no_init)]: [operator==] and
    [operator<] both throw [bad_variant_access] and return no result. *)
Theorem compare_two_empty_throws (Types : list ty)
    (ctor : addr -> M obj unit) (op_eq op_lt : addr -> addr -> M obj bool)
    (a b : addr) (w : world obj) :
  fits Types ->
  variant_no_init Types = Some ctor ->
  operator_eq Types = Some op_eq ->
  operator_lt Types = Some op_lt ->
  exists w1 w2,
    ctor a w = (Ret tt, w1) /\
    ctor b w1 = (Ret tt, w2) /\
    valid Types a w2 = (Ret false, w2) /\
    valid Types b w2 = (Ret false, w2) /\
    op_eq a b w2 = (Throw (bad_variant_access "in get<T>()"), w2) /\
    op_lt a b w2 = (Throw (bad_variant_access "in get<T>()"), w2).
Proof.
  intros Hfit Hctor Heq Hlt.
  unfold variant_no_init in Hctor. inst_inv Hctor. injection Hctor as <-.
  destruct (operator_eq_inv Types op_eq Heq) as [visit_eq [Hveq Hreq]].
  destruct (operator_lt_inv Types op_lt Hlt) as [visit_lt [Hvlt Hrlt]].
  pose (w1 := snd (store_type_index a invalid_value w)).
  pose (w2 := snd (store_type_index b invalid_value w1)).
  assert (Ha : type_index (heap w2 a) = invalid_value).
  { unfold w2, w1, store_type_index. cbn [snd heap].
    unfold update at 1. destruct (Nat.eqb a b); [reflexivity|].
    rewrite update_same. reflexivity. }
  assert (Hb : type_index (heap w2 b) = invalid_value).
  { unfold w2, store_type_index. cbn [snd heap].
    rewrite update_same. reflexivity. }
  exists w1, w2.
  split; [reflexivity|]. split; [reflexivity|].
  rewrite Hreq, Hrlt.
  unfold valid, load_type_index, bind, ret.
  rewrite Ha, Hb, Z.eqb_refl. cbn [negb].
  repeat split.
  - apply (visit_invalid _ Types visit_eq b a w2 Hveq Hfit Hb).
  - apply (visit_invalid _ Types visit_lt b a w2 Hvlt Hfit Hb).
Qed.

(** ** Tags, positions and default construction *)

Lemma variant_class_inv (Types : list ty) (u : unit) :
  variant_class Types = Some u -> (0 < List.length Types)%nat.
Proof.
  destruct Types; [discriminate | cbn [List.length]; lia].
Qed.

Lemma which_of_position (Types : list ty) (i : nat) (this : addr)
    (w : world obj) :
  fits Types ->
  (i < List.length Types)%nat ->
  Z.of_nat i < 2 ^ 31 ->
  type_index (heap w this) = Z.of_nat (List.length Types) - 1 - Z.of_nat i ->
  which Types this w = (Ret (Z.of_nat i), w).
Proof.
  intros Hfit Hi Hint Htag. unfold which. run. rewrite Htag.
  rewrite (sizeof_pack_fits Types Hfit).
  assert (Hlen : Z.of_nat (List.length Types) < size_t_modulus) by exact Hfit.
  replace (Z.of_nat (List.length Types)
           - (Z.of_nat (List.length Types) - 1 - Z.of_nat i))
    with (Z.of_nat i + 1) by lia.
  rewrite (to_size_t_small (Z.of_nat i + 1)) by lia.
  replace (Z.of_nat i + 1 - 1) with (Z.of_nat i) by lia.
  rewrite to_size_t_small by lia.
  unfold to_int. rewrite Z.mod_small by lia.
  replace (Z.of_nat i + 2 ^ 31 - 2 ^ 31) with (Z.of_nat i) by lia.
  reflexivity.
Qed.

(** C7, as the code has it: the raw tag of the alternative at position
    [i] of [N] distinct types is [N - 1 - i], the number of alternatives
    declared after it, and [which()] gives [i] back.  A
    default-constructed variant holds the first alternative, with raw
    tag [N - 1] and [which()] 0; the default constructor exists only
    when the first alternative is default-constructible. *)
Theorem tag_counts_alternatives_after (Types : list ty) :
  fits Types ->
  NoDup Types ->
  (forall (i : nat) (T : ty) (ctor : addr -> obj -> M obj unit)
          (this : addr) (v o : obj) (w : world obj),
      nth_error Types i = Some T ->
      variant_value T Types = Some ctor ->
      construct_from T T v = Ret o ->
      Z.of_nat i < 2 ^ 31 ->
      exists w',
        ctor this v w = (Ret tt, w') /\
        get_type_index Types this w'
        = (Ret (Z.of_nat (List.length Types) - 1 - Z.of_nat i), w') /\
        which Types this w' = (Ret (Z.of_nat i), w')) /\
  (forall ctor : addr -> M obj unit,
      variant_default Types = Some ctor ->
      exists first_type,
        nth_error Types 0 = Some first_type /\
        is_default_constructible first_type = true /\
        forall (this : addr) (o : obj) (w : world obj),
          default_construct first_type = Ret o ->
          exists w',
            ctor this w = (Ret tt, w') /\
            get_type_index Types this w'
            = (Ret (Z.of_nat (List.length Types) - 1), w') /\
            which Types this w' = (Ret 0, w') /\
            data (heap w' this) = o) /\
  (forall first_type,
      nth_error Types 0 = Some first_type ->
      is_default_constructible first_type = false ->
      variant_default Types = None).
Proof.
  intros Hfit Hnd. split; [|split].
  - intros i T ctor this v o w Hnth Hctor Hval Hint.
    pose proof (direct_type_position Types i T Hfit Hnd Hnth) as Hpos.
    assert (Hi : (i < List.length Types)%nat)
      by (apply nth_error_Some; congruence).
    assert (Hfound : direct_type T Types <> invalid_value).
    { rewrite Hpos, invalid_value_eq. unfold fits in Hfit. lia. }
    destruct (variant_value_declared T Types ctor this v o w
                Hfit Hfound Hctor Hval) as [w' [Hrun [Hthis _]]].
    exists w'. split; [exact Hrun|]. split.
    + unfold get_type_index, load_type_index. rewrite Hthis.
      cbn [type_index]. rewrite Hpos. reflexivity.
    + apply which_of_position; try assumption.
      rewrite Hthis. cbn [type_index]. exact Hpos.
  - intros ctor Hctor. unfold variant_default in Hctor.
    inst_inv Hctor. inst_inv Hctor. inst_inv Hctor.
    injection Hctor as <-.
    pose proof (variant_class_inv Types a E) as Hlen.
    exists a0. split; [exact E0|]. split.
    + unfold static_assert in E1.
      destruct (is_default_constructible a0); [reflexivity | discriminate].
    + intros this o w Ho.
      assert (Htag : to_size_t (sizeof_pack Types - 1)
                     = Z.of_nat (List.length Types) - 1 - Z.of_nat 0).
      { rewrite (sizeof_pack_fits Types Hfit).
        unfold fits in Hfit. rewrite to_size_t_small; lia. }
      eexists. split; [run; rewrite Ho; run; reflexivity|].
      split; [|split].
      * run. rewrite !update_same. cbn [type_index]. rewrite Htag.
        f_equal. f_equal. lia.
      * apply (which_of_position Types 0); try assumption; try lia.
        cbn [heap]. rewrite !update_same. cbn [type_index]. exact Htag.
      * cbn [heap]. rewrite update_same. reflexivity.
  - intros first_type Hfirst Hno. unfold variant_default.
    destruct (variant_class Types); [|reflexivity]. cbn [inst_bind].
    unfold tuple_element. cbn [Z.ltb Z.compare Z.to_nat].
    rewrite Hfirst. cbn [inst_bind]. rewrite Hno. reflexivity.
Qed.

(** ** Types outside the pack *)

Lemma has_type_false_invalid (T : ty) (Types : list ty) :
  has_type T Types = false -> direct_type T Types = invalid_value.
Proof.
  induction Types as [|First Types' IH]; cbn [has_type direct_type].
  - reflexivity.
  - destruct (is_same T First); cbn [orb]; [discriminate | exact IH].
Qed.

Lemma get_enabled_false (c : bool) (T : ty) (Types : list ty)
    (o : get_overload) :
  has_type (get_stored_type c o T) Types = false ->
  get_enabled c T Types o = false.
Proof.
  intros H. unfold get_enabled.
  rewrite (has_type_false_invalid _ _ H), Z.eqb_refl. reflexivity.
Qed.

(** X24: [is<T>()] with [T] outside the pack does not compile, and
    neither does [get<T>()] when the pack holds none of [T],
    [recursive_wrapper<T>] and [std::reference_wrapper<T const>] (for a
    non-const object: nor [std::reference_wrapper<T>]); [T const] is [T]
    when [T] is const already.  There is then no function to run. *)
Theorem undeclared_type_is_get_rejected (Types : list ty) (T : ty) :
  has_type T Types = false ->
  variant_is (obj := obj) T Types = None /\
  (has_type (recursive_wrapper T) Types = false ->
   has_type (reference_wrapper (add_const T)) Types = false ->
   get (obj := obj) true T Types = None /\
   (has_type (reference_wrapper T) Types = false ->
    get (obj := obj) false T Types = None)).
Proof.
  intros Hno. split.
  - unfold variant_is. destruct (variant_class Types); [|reflexivity].
    cbn [inst_bind]. rewrite Hno. reflexivity.
  - intros Hrec Hrefc.
    assert (Hconst : get_candidates true T Types = []).
    { unfold get_candidates. cbn [filter].
      rewrite (get_enabled_false true T Types get_direct Hno).
      rewrite (get_enabled_false true T Types get_recursive_wrapper Hrec).
      rewrite (get_enabled_false true T Types get_reference_wrapper Hrefc).
      reflexivity. }
    split.
    + unfold get. destruct (variant_class Types); [|reflexivity].
      cbn [inst_bind]. unfold get_resolve. rewrite Hconst. reflexivity.
    + intros Href. unfold get. destruct (variant_class Types); [|reflexivity].
      cbn [inst_bind]. unfold get_resolve. rewrite Hconst.
      unfold get_candidates. cbn [filter].
      rewrite (get_enabled_false false T Types get_direct Hno).
      rewrite (get_enabled_false false T Types get_recursive_wrapper Hrec).
      rewrite (get_enabled_false false T Types get_reference_wrapper Href).
      reflexivity.
Qed.

(** ** Lifecycle dispatch *)

(** [destroy] returns, touches no object, and calls at most one
    destructor. *)
Lemma variant_helper_destroy_total (Types : list ty) (id : Z) (a : addr)
    (w : world obj) :
  exists calls,
    variant_helper_destroy Types id a w
    = (Ret tt, mk_world (heap w) (trace w ++ calls)) /\
    (List.length calls <= 1)%nat.
Proof.
  induction Types as [|T Types' IH]; cbn [variant_helper_destroy].
  - exists []. rewrite app_nil_r. destruct w. split; [reflexivity|].
    cbn [List.length]. lia.
  - destruct (id =? sizeof_pack Types').
    + exists [destructor_call T (data (heap w a))]. split; [reflexivity|].
      cbn [List.length]. lia.
    + exact IH.
Qed.

Lemma variant_helper_destroy_declared (Types : list ty) (T : ty) (a : addr)
    (w : world obj) :
  fits Types ->
  direct_type T Types <> invalid_value ->
  variant_helper_destroy Types (direct_type T Types) a w
  = (Ret tt,
     mk_world (heap w) (trace w ++ [destructor_call T (data (heap w a))])).
Proof.
  induction Types as [|First Types' IH]; intros Hfit Hfound;
    cbn [variant_helper_destroy direct_type] in *.
  - congruence.
  - pose proof (fits_tail _ _ Hfit) as Hfit'.
    destruct (is_same T First) eqn:E.
    + apply is_same_true in E. subst First. rewrite Z.eqb_refl. reflexivity.
    + destruct (direct_type_range T Types' Hfit') as [? | R]; [congruence|].
      rewrite (sizeof_pack_fits Types' Hfit').
      destruct (Z.eqb_spec (direct_type T Types')
                           (Z.of_nat (List.length Types'))); [lia|].
      apply IH; assumption.
Qed.

Lemma variant_helper_destroy_invalid (Types : list ty) (a : addr)
    (w : world obj) :
  fits Types ->
  variant_helper_destroy Types invalid_value a w = (Ret tt, w).
Proof.
  induction Types as [|First Types' IH]; intros Hfit;
    cbn [variant_helper_destroy].
  - reflexivity.
  - pose proof (fits_tail _ _ Hfit) as Hfit'.
    rewrite (sizeof_pack_fits Types' Hfit').
    destruct (Z.eqb_spec invalid_value (Z.of_nat (List.length Types'))).
    + rewrite invalid_value_eq in e. unfold fits in Hfit.
      cbn [List.length] in Hfit. lia.
    + apply IH. exact Hfit'.
Qed.

Lemma variant_helper_copy_declared (Types : list ty) (T : ty)
    (old_value new_value : addr) (w : world obj) :
  fits Types ->
  direct_type T Types <> invalid_value ->
  variant_helper_copy Types (direct_type T Types) old_value new_value w
  = (src <- load_data old_value ;;
     log (copy_call T src) ;;
     o <- lift (copy_construct T src) ;;
     store_data new_value o) w.
Proof.
  induction Types as [|First Types' IH]; intros Hfit Hfound;
    cbn [variant_helper_copy direct_type] in *.
  - congruence.
  - pose proof (fits_tail _ _ Hfit) as Hfit'.
    destruct (is_same T First) eqn:E.
    + apply is_same_true in E. subst First. rewrite Z.eqb_refl. reflexivity.
    + destruct (direct_type_range T Types' Hfit') as [? | R]; [congruence|].
      rewrite (sizeof_pack_fits Types' Hfit').
      destruct (Z.eqb_spec (direct_type T Types')
                           (Z.of_nat (List.length Types'))); [lia|].
      apply IH; assumption.
Qed.

Lemma variant_helper_move_declared (Types : list ty) (T : ty)
    (old_value new_value : addr) (w : world obj) :
  fits Types ->
  direct_type T Types <> invalid_value ->
  variant_helper_move Types (direct_type T Types) old_value new_value w
  = (src <- load_data old_value ;;
     log (move_call T src) ;;
     store_data old_value (snd (move_construct T src)) ;;
     o <- lift (fst (move_construct T src)) ;;
     store_data new_value o) w.
Proof.
  induction Types as [|First Types' IH]; intros Hfit Hfound;
    cbn [variant_helper_move direct_type] in *.
  - congruence.
  - pose proof (fits_tail _ _ Hfit) as Hfit'.
    destruct (is_same T First) eqn:E.
    + apply is_same_true in E. subst First. rewrite Z.eqb_refl. reflexivity.
    + destruct (direct_type_range T Types' Hfit') as [? | R]; [congruence|].
      rewrite (sizeof_pack_fits Types' Hfit').
      destruct (Z.eqb_spec (direct_type T Types')
                           (Z.of_nat (List.length Types'))); [lia|].
      apply IH; assumption.
Qed.

(** ** Assignment *)

(** X23: assignment from a variant that is a const lvalue, which
    selects [operator=(variant const&)], and from one that is an rvalue,
    which selects [operator=(variant&&)].  [this] holds the declared
    alternative [U], [rhs] (another object) holds [T].  The destructor
    of [U] is called on the old object, then the copy (for the const
    lvalue) or move (for the rvalue) constructor of [T] on the source,
    in this order and nothing else.  When the constructor returns,
    [this] holds the new object under the tag of [rhs]; when it throws
    (or terminates), the exception leaves the assignment and [this] is
    left with the invalid tag: [valid()] returns false.  Assignment
    from a non-const lvalue selects another member and is not
    covered. *)
Theorem assign_destroy_invalidate_construct (Types : list ty) (T U : ty)
    (is_T is_U : addr -> M obj bool) (this temp rhs : addr) (w : world obj) :
  fits Types ->
  variant_is U Types = Some is_U ->
  variant_is T Types = Some is_T ->
  is_U this w = (Ret true, w) ->
  is_T rhs w = (Ret true, w) ->
  this <> rhs ->
  let old := data (heap w this) in
  let src := data (heap w rhs) in
  (let r := operator_assign Types const_lvalue this temp rhs w in
   trace (snd r) = trace w ++ [destructor_call U old; copy_call T src] /\
   heap (snd r) rhs = heap w rhs /\
   (forall c, c <> this -> heap (snd r) c = heap w c) /\
   match copy_construct T src with
   | Ret o =>
       fst r = Ret tt /\
       heap (snd r) this = mk_variant (direct_type T Types) o
   | Throw e =>
       fst r = Throw e /\
       heap (snd r) this = mk_variant invalid_value old /\
       valid Types this (snd r) = (Ret false, snd r)
   | Terminate =>
       fst r = Terminate /\
       heap (snd r) this = mk_variant invalid_value old /\
       valid Types this (snd r) = (Ret false, snd r)
   end) /\
  (let r := operator_assign Types rvalue this temp rhs w in
   trace (snd r) = trace w ++ [destructor_call U old; move_call T src] /\
   heap (snd r) rhs
   = mk_variant (direct_type T Types) (snd (move_construct T src)) /\
   (forall c, c <> this -> c <> rhs -> heap (snd r) c = heap w c) /\
   match fst (move_construct T src) with
   | Ret o =>
       fst r = Ret tt /\
       heap (snd r) this = mk_variant (direct_type T Types) o
   | Throw e =>
       fst r = Throw e /\
       heap (snd r) this = mk_variant invalid_value old /\
       valid Types this (snd r) = (Ret false, snd r)
   | Terminate =>
       fst r = Terminate /\
       heap (snd r) this = mk_variant invalid_value old /\
       valid Types this (snd r) = (Ret false, snd r)
   end).
Proof.
  intros Hfit HisU HisT Hthis Hrhs Hne old src.
  pose proof (is_true_tag U Types is_U this w HisU Hthis) as Hta.
  pose proof (is_true_tag T Types is_T rhs w HisT Hrhs) as Htb.
  pose proof (is_declared U Types is_U Hfit HisU) as HU.
  pose proof (is_declared T Types is_T Hfit HisT) as HT.
  assert (Hrt : heap w rhs = mk_variant (direct_type T Types) src).
  { revert Htb. unfold src. destruct (heap w rhs) as [ti d].
    cbn [type_index data]. intros ->. reflexivity. }
  split.
  - unfold operator_assign, operator_assign_copy, copy_assign.
    run. rewrite Hta.
    rewrite (variant_helper_destroy_declared Types U this w Hfit HU).
    run. rewrite (update_other _ this rhs) by exact Hne.
    rewrite Htb.
    rewrite (variant_helper_copy_declared Types T rhs this _ Hfit HT).
    run. rewrite (update_other _ this rhs) by exact Hne.
    fold src. fold old.
    destruct (copy_construct T src) as [o | e |]; run.
    + rewrite !update_same. cbn [type_index data].
      rewrite !(update_other _ this rhs) by exact Hne. rewrite Htb.
      repeat split.
      * rewrite <- app_assoc. reflexivity.
      * intros c Hc. rewrite !update_other by congruence. reflexivity.
    + rewrite !update_same. cbn [type_index data].
      rewrite !(update_other _ this rhs) by exact Hne.
      repeat split.
      * rewrite <- app_assoc. reflexivity.
      * intros c Hc. rewrite !update_other by congruence. reflexivity.
    + rewrite !update_same. cbn [type_index data].
      rewrite !(update_other _ this rhs) by exact Hne.
      repeat split.
      * rewrite <- app_assoc. reflexivity.
      * intros c Hc. rewrite !update_other by congruence. reflexivity.
  - unfold operator_assign, operator_assign_move, move_assign.
    run. rewrite Hta.
    rewrite (variant_helper_destroy_declared Types U this w Hfit HU).
    run. rewrite (update_other _ this rhs) by exact Hne.
    rewrite Htb.
    rewrite (variant_helper_move_declared Types T rhs this _ Hfit HT).
    run. rewrite (update_other _ this rhs) by exact Hne.
    fold src. fold old.
    destruct (fst (move_construct T src)) as [o | e |]; run; lookup;
      rewrite ?Htb; (split; [rewrite <- app_assoc; reflexivity|]);
      (split; [reflexivity|]);
      (split; [intros c Hc Hc'; lookup; reflexivity|]);
      repeat split.
Qed.

Lemma variant_helper_copy_invalid (Types : list ty) (old_value new_value : addr)
    (w : world obj) :
  fits Types ->
  variant_helper_copy Types invalid_value old_value new_value w = (Ret tt, w).
Proof.
  induction Types as [|First Types' IH]; intros Hfit;
    cbn [variant_helper_copy].
  - reflexivity.
  - pose proof (fits_tail _ _ Hfit) as Hfit'.
    rewrite (sizeof_pack_fits Types' Hfit').
    destruct (Z.eqb_spec invalid_value (Z.of_nat (List.length Types'))).
    + rewrite invalid_value_eq in e. unfold fits in Hfit.
      cbn [List.length] in Hfit. lia.
    + apply IH. exact Hfit'.
Qed.

(** [copy_assign] with the object itself as source: the source is the
    object just destroyed, its tag has become invalid, nothing is
    copied, and the only call is the destructor of the alternative. *)
Lemma copy_assign_self (Types : list ty) (U : ty)
    (is_U : addr -> M obj bool) (this : addr) (w : world obj) :
  fits Types ->
  variant_is U Types = Some is_U ->
  is_U this w = (Ret true, w) ->
  fst (copy_assign Types this this w) = Ret tt /\
  heap (snd (copy_assign Types this this w)) this
  = mk_variant invalid_value (data (heap w this)) /\
  trace (snd (copy_assign Types this this w))
  = trace w ++ [destructor_call U (data (heap w this))].
Proof.
  intros Hfit His Hthis.
  pose proof (is_true_tag U Types is_U this w His Hthis) as Hta.
  pose proof (is_declared U Types is_U Hfit His) as HU.
  unfold copy_assign. run. rewrite Hta.
  rewrite (variant_helper_destroy_declared Types U this w Hfit HU).
  run. lookup.
  rewrite (variant_helper_copy_invalid Types this this _ Hfit).
  lookup. repeat split.
Qed.

(** ** Move construction *)

(** C9: [old] holds the declared alternative [T]; a new variant is
    move-constructed from it at another address.  The move constructor
    of [T] is called once on the source object.  The new variant holds
    what it built; [old] keeps its tag and holds what the move left
    behind, so [is<T>()] is still true on it, and destroying it calls the
    destructor of [T] exactly once, on that object.  An exception from
    the move constructor ends in [std::terminate]. *)
Theorem move_construct_keeps_source_tag (Types : list ty) (T : ty)
    (is_T : addr -> M obj bool) (this old : addr) (w : world obj) :
  fits Types ->
  variant_is T Types = Some is_T ->
  is_T old w = (Ret true, w) ->
  this <> old ->
  let src := data (heap w old) in
  let r := variant_move Types this old w in
  trace (snd r) = trace w ++ [move_call T src] /\
  heap (snd r) old
  = mk_variant (direct_type T Types) (snd (move_construct T src)) /\
  is_T old (snd r) = (Ret true, snd r) /\
  variant_destructor Types old (snd r)
  = (Ret tt,
     mk_world (heap (snd r))
       (trace (snd r) ++ [destructor_call T (snd (move_construct T src))])) /\
  match fst (move_construct T src) with
  | Ret o =>
      fst r = Ret tt /\
      heap (snd r) this = mk_variant (direct_type T Types) o
  | _ => fst r = Terminate
  end.
Proof.
  intros Hfit His Hold Hne src r.
  pose proof (is_true_tag T Types is_T old w His Hold) as Htag.
  pose proof (is_declared T Types is_T Hfit His) as HT.
  destruct (variant_is_inv T Types is_T His) as [_ ->].
  assert (Hr : trace (snd r) = trace w ++ [move_call T src] /\
               heap (snd r) old
               = mk_variant (direct_type T Types)
                            (snd (move_construct T src)) /\
               match fst (move_construct T src) with
               | Ret o =>
                   fst r = Ret tt /\
                   heap (snd r) this = mk_variant (direct_type T Types) o
               | _ => fst r = Terminate
               end).
  { unfold r, variant_move. run. lookup. rewrite Htag.
    rewrite (variant_helper_move_declared Types T old this _ Hfit HT).
    run. lookup. fold src.
    destruct (fst (move_construct T src)) as [o | e |]; run; lookup;
      rewrite ?Htag; repeat split. }
  destruct Hr as [Htr [Hheap Hout]].
  split; [exact Htr|]. split; [exact Hheap|]. split; [|split].
  - run. rewrite Hheap. cbn [type_index]. rewrite Z.eqb_refl. reflexivity.
  - unfold variant_destructor. run. rewrite Hheap. cbn [type_index].
    rewrite (variant_helper_destroy_declared Types T old _ Hfit HT).
    rewrite Hheap. reflexivity.
  - exact Hout.
Qed.

(** ** Binary dispatch *)

Lemma binary_dispatcher_rhs_cons {F R : Type} (F_ : binary_visitor F R)
    (V : list ty) (T0 T1 Q : ty) (rest : list ty) :
  binary_dispatcher_rhs F_ V T0 (T1 :: Q :: rest) =
  (with_inst get_T0 <- get true T0 V;
   with_inst get_T1 <- get true T1 V;
   with_inst call <- F_ (visitor_argument T0) (visitor_argument T1);
   with_inst next <- binary_dispatcher_rhs F_ V T0 (Q :: rest);
   Some (fun lhs rhs f =>
     i <- get_type_index V rhs ;;
     if i =? sizeof_pack (Q :: rest) then
       x <- get_T0 lhs ;;
       y <- get_T1 rhs ;;
       call f (unwrapper_apply_const T0 x) (unwrapper_apply_const T1 y)
     else next lhs rhs f)).
Proof. reflexivity. Qed.

Lemma binary_dispatcher_lhs_cons {F R : Type} (F_ : binary_visitor F R)
    (V : list ty) (T0 T1 Q : ty) (rest : list ty) :
  binary_dispatcher_lhs F_ V T0 (T1 :: Q :: rest) =
  (with_inst get_T1 <- get true T1 V;
   with_inst get_T0 <- get true T0 V;
   with_inst call <- F_ (visitor_argument T1) (visitor_argument T0);
   with_inst next <- binary_dispatcher_lhs F_ V T0 (Q :: rest);
   Some (fun lhs rhs f =>
     i <- get_type_index V lhs ;;
     if i =? sizeof_pack (Q :: rest) then
       x <- get_T1 lhs ;;
       y <- get_T0 rhs ;;
       call f (unwrapper_apply_const T1 x) (unwrapper_apply_const T0 y)
     else next lhs rhs f)).
Proof. reflexivity. Qed.

Lemma binary_dispatcher_cons {F R : Type} (F_ : binary_visitor F R)
    (V : list ty) (T Q : ty) (rest : list ty) :
  binary_dispatcher F_ V (T :: Q :: rest) =
  (with_inst get_T <- get true T V;
   with_inst call <- F_ (visitor_argument T) (visitor_argument T);
   with_inst rhs_scan <- binary_dispatcher_rhs F_ V T (Q :: rest);
   with_inst lhs_scan <- binary_dispatcher_lhs F_ V T (Q :: rest);
   with_inst next <- binary_dispatcher F_ V (Q :: rest);
   Some (fun v0 v1 f =>
     i0 <- get_type_index V v0 ;;
     if i0 =? sizeof_pack (Q :: rest) then
       i0 <- get_type_index V v0 ;;
       i1 <- get_type_index V v1 ;;
       if i0 =? i1 then
         x <- get_T v0 ;;
         y <- get_T v1 ;;
         call f (unwrapper_apply_const T x) (unwrapper_apply_const T y)
       else rhs_scan v0 v1 f
     else
       i1 <- get_type_index V v1 ;;
       if i1 =? sizeof_pack (Q :: rest) then lhs_scan v0 v1 f
       else next v0 v1 f)).
Proof. reflexivity. Qed.

(** [v0] holds [T0]; the scan for the alternative of [rhs] stops where
    its tag says. *)
Lemma binary_dispatcher_rhs_scan {F R : Type} (F_ : binary_visitor F R)
    (V : list ty) (T0 : ty) (pre : list ty) (T1 : ty) (post : list ty)
    (d : addr -> addr -> F -> M obj R) (lhs rhs : addr) (f : F)
    (w : world obj) :
  binary_dispatcher_rhs F_ V T0 (pre ++ T1 :: post) = Some d ->
  fits (pre ++ T1 :: post) ->
  type_index (heap w rhs) = sizeof_pack post ->
  exists get_T0 get_T1 call,
    get true T0 V = Some get_T0 /\
    get true T1 V = Some get_T1 /\
    F_ (visitor_argument T0) (visitor_argument T1) = Some call /\
    d lhs rhs f w
    = (x <- get_T0 lhs ;;
       y <- get_T1 rhs ;;
       call f (unwrapper_apply_const T0 x) (unwrapper_apply_const T1 y)) w.
Proof.
  revert d. induction pre as [|P pre' IH]; intros d Hd Hfit Htag.
  - cbn [app] in Hd. destruct post as [|Q rest].
    + cbn [binary_dispatcher_rhs] in Hd.
      inst_inv Hd. inst_inv Hd. inst_inv Hd. cbv zeta in Hd.
      injection Hd as <-. exists a, a0, a1. repeat split; assumption.
    + rewrite binary_dispatcher_rhs_cons in Hd.
      inst_inv Hd. inst_inv Hd. inst_inv Hd. inst_inv Hd.
      injection Hd as <-. exists a, a0, a1.
      split; [assumption|]. split; [assumption|]. split; [assumption|].
      unfold get_type_index, load_type_index, bind at 1.
      rewrite Htag, Z.eqb_refl. reflexivity.
  - cbn [app] in Hd, Hfit.
    pose proof (sizeof_pack_suffix_ne pre' T1 post (fits_tail _ _ Hfit)) as Hne.
    destruct (pre' ++ T1 :: post) as [|Q rest] eqn:Erest.
    + destruct pre'; discriminate.
    + rewrite binary_dispatcher_rhs_cons in Hd.
      inst_inv Hd. inst_inv Hd. inst_inv Hd. inst_inv Hd.
      injection Hd as <-.
      destruct (IH a2 E2 (fits_tail _ _ Hfit) Htag)
        as [g0 [g1 [call [Hg0 [Hg1 [Hc Hrun]]]]]].
      exists g0, g1, call.
      split; [assumption|]. split; [assumption|]. split; [assumption|].
      rewrite <- Hrun.
      unfold get_type_index, load_type_index, bind at 1.
      rewrite Htag.
      destruct (Z.eqb_spec (sizeof_pack post) (sizeof_pack (Q :: rest)));
        [contradiction | reflexivity].
Qed.

(** [v1] holds [T0]; the scan for the alternative of [lhs]. *)
Lemma binary_dispatcher_lhs_scan {F R : Type} (F_ : binary_visitor F R)
    (V : list ty) (T0 : ty) (pre : list ty) (T1 : ty) (post : list ty)
    (d : addr -> addr -> F -> M obj R) (lhs rhs : addr) (f : F)
    (w : world obj) :
  binary_dispatcher_lhs F_ V T0 (pre ++ T1 :: post) = Some d ->
  fits (pre ++ T1 :: post) ->
  type_index (heap w lhs) = sizeof_pack post ->
  exists get_T1 get_T0 call,
    get true T1 V = Some get_T1 /\
    get true T0 V = Some get_T0 /\
    F_ (visitor_argument T1) (visitor_argument T0) = Some call /\
    d lhs rhs f w
    = (x <- get_T1 lhs ;;
       y <- get_T0 rhs ;;
       call f (unwrapper_apply_const T1 x) (unwrapper_apply_const T0 y)) w.
Proof.
  revert d. induction pre as [|P pre' IH]; intros d Hd Hfit Htag.
  - cbn [app] in Hd. destruct post as [|Q rest].
    + cbn [binary_dispatcher_lhs] in Hd.
      inst_inv Hd. inst_inv Hd. inst_inv Hd. cbv zeta in Hd.
      injection Hd as <-. exists a, a0, a1. repeat split; assumption.
    + rewrite binary_dispatcher_lhs_cons in Hd.
      inst_inv Hd. inst_inv Hd. inst_inv Hd. inst_inv Hd.
      injection Hd as <-. exists a, a0, a1.
      split; [assumption|]. split; [assumption|]. split; [assumption|].
      unfold get_type_index, load_type_index, bind at 1.
      rewrite Htag, Z.eqb_refl. reflexivity.
  - cbn [app] in Hd, Hfit.
    pose proof (sizeof_pack_suffix_ne pre' T1 post (fits_tail _ _ Hfit)) as Hne.
    destruct (pre' ++ T1 :: post) as [|Q rest] eqn:Erest.
    + destruct pre'; discriminate.
    + rewrite binary_dispatcher_lhs_cons in Hd.
      inst_inv Hd. inst_inv Hd. inst_inv Hd. inst_inv Hd.
      injection Hd as <-.
      destruct (IH a2 E2 (fits_tail _ _ Hfit) Htag)
        as [g1 [g0 [call [Hg1 [Hg0 [Hc Hrun]]]]]].
      exists g1, g0, call.
      split; [assumption|]. split; [assumption|]. split; [assumption|].
      rewrite <- Hrun.
      unfold get_type_index, load_type_index, bind at 1.
      rewrite Htag.
      destruct (Z.eqb_spec (sizeof_pack post) (sizeof_pack (Q :: rest)));
        [contradiction | reflexivity].
Qed.

Lemma direct_type_app_skip (T : ty) (pre post : list ty) :
  fits (pre ++ post) ->
  direct_type T (pre ++ post) < Z.of_nat (List.length post) ->
  direct_type T (pre ++ post) = direct_type T post.
Proof.
  induction pre as [|P pre' IH]; intros Hfit Hlt.
  - reflexivity.
  - cbn [app direct_type] in *.
    pose proof (fits_tail _ _ Hfit) as Hfit'.
    destruct (is_same T P).
    + rewrite (sizeof_pack_fits _ Hfit') in Hlt.
      rewrite length_app in Hlt. lia.
    + apply IH; assumption.
Qed.

(** Alternatives with a larger index than both tags are passed over. *)
Lemma binary_dispatcher_reach {F R : Type} (F_ : binary_visitor F R)
    (V : list ty) (pre : list ty) (T : ty) (post : list ty)
    (d : addr -> addr -> F -> M obj R) (v0 v1 : addr) (f : F)
    (w : world obj) :
  binary_dispatcher F_ V (pre ++ T :: post) = Some d ->
  fits (pre ++ T :: post) ->
  type_index (heap w v0) <= Z.of_nat (List.length post) ->
  type_index (heap w v1) <= Z.of_nat (List.length post) ->
  exists d',
    binary_dispatcher F_ V (T :: post) = Some d' /\
    d v0 v1 f w = d' v0 v1 f w.
Proof.
  revert d. induction pre as [|P pre' IH]; intros d Hd Hfit H0 H1.
  - exists d. split; [exact Hd | reflexivity].
  - cbn [app] in Hd, Hfit.
    pose proof (fits_tail _ _ Hfit) as Hfit'.
    assert (Hsz : Z.of_nat (List.length post)
                  < sizeof_pack (pre' ++ T :: post)).
    { rewrite (sizeof_pack_fits _ Hfit'), length_app.
      cbn [List.length]. lia. }
    destruct (pre' ++ T :: post) as [|Q rest] eqn:Erest.
    + destruct pre'; discriminate.
    + rewrite binary_dispatcher_cons in Hd.
      inst_inv Hd. inst_inv Hd. inst_inv Hd. inst_inv Hd. inst_inv Hd.
      injection Hd as <-.
      destruct (IH a3 E3 Hfit' H0 H1) as [d' [Hd' Hrun]].
      exists d'. split; [exact Hd'|]. rewrite <- Hrun.
      unfold get_type_index, load_type_index, bind at 1.
      destruct (Z.eqb_spec (type_index (heap w v0)) (sizeof_pack (Q :: rest)));
        [lia|].
      unfold bind at 1.
      destruct (Z.eqb_spec (type_index (heap w v1)) (sizeof_pack (Q :: rest)));
        [lia | reflexivity].
Qed.

Lemma get_declared_run (T : ty) (Types : list ty) (g : addr -> M obj obj)
    (v : addr) (w : world obj) :
  get true T Types = Some g ->
  direct_type T Types <> invalid_value ->
  type_index (heap w v) = direct_type T Types ->
  g v w = (Ret (data (heap w v)), w).
Proof.
  intros Hg Hfound Htag.
  rewrite (get_declared true T Types g Hg Hfound).
  apply (get_body_match true get_direct T Types v w). exact Htag.
Qed.

(** Binary dispatch on operands holding the declared alternatives [T0]
    and [T1], the same or not: the visitor is called once, with the
    object of [v0] unwrapped as a [T0] and that of [v1] as a [T1]. *)
Lemma binary_dispatcher_declared {F R : Type} (F_ : binary_visitor F R)
    (Types : list ty) (T0 T1 : ty)
    (d : addr -> addr -> F -> M obj R) (v0 v1 : addr) (f : F)
    (w : world obj) :
  binary_dispatcher F_ Types Types = Some d ->
  fits Types ->
  direct_type T0 Types <> invalid_value ->
  direct_type T1 Types <> invalid_value ->
  type_index (heap w v0) = direct_type T0 Types ->
  type_index (heap w v1) = direct_type T1 Types ->
  exists call,
    F_ (visitor_argument T0) (visitor_argument T1) = Some call /\
    d v0 v1 f w
    = call f (unwrapper_apply_const T0 (data (heap w v0)))
             (unwrapper_apply_const T1 (data (heap w v1))) w.
Proof.
  intros Hd Hfit HT0 HT1 Hv0 Hv1.
  destruct (direct_type_split T0 Types HT0) as [pre0 [post0 [E0 Hi0]]].
  destruct (direct_type_split T1 Types HT1) as [pre1 [post1 [E1 Hi1]]].
  assert (Hfit0 : fits (pre0 ++ T0 :: post0)) by (rewrite <- E0; exact Hfit).
  assert (Hfit1 : fits (pre1 ++ T1 :: post1)) by (rewrite <- E1; exact Hfit).
  assert (Hs0 : sizeof_pack post0 = Z.of_nat (List.length post0))
    by (apply sizeof_pack_fits; exact (fits_tail _ _ (fits_app_r _ _ Hfit0))).
  assert (Hs1 : sizeof_pack post1 = Z.of_nat (List.length post1))
    by (apply sizeof_pack_fits; exact (fits_tail _ _ (fits_app_r _ _ Hfit1))).
  destruct (Z.lt_trichotomy (direct_type T0 Types) (direct_type T1 Types))
    as [Hlt | [Heq | Hgt]].
  - (* T1 is declared first: the scan stops at T1 and looks for T0 *)
    assert (Hd1 : binary_dispatcher F_ Types (pre1 ++ T1 :: post1) = Some d)
      by (rewrite <- E1; exact Hd).
    destruct (binary_dispatcher_reach F_ Types pre1 T1 post1 d v0 v1 f w
                Hd1 Hfit1 ltac:(lia) ltac:(lia)) as [d' [Hd' ->]].
    assert (Hskip : direct_type T0 Types = direct_type T0 post1).
    { rewrite E1.
      replace (pre1 ++ T1 :: post1) with ((pre1 ++ [T1]) ++ post1)
        by (rewrite <- app_assoc; reflexivity).
      apply direct_type_app_skip.
      - rewrite <- app_assoc. exact Hfit1.
      - rewrite <- app_assoc. cbn [app]. rewrite <- E1. lia. }
    assert (HT0' : direct_type T0 post1 <> invalid_value) by congruence.
    destruct (direct_type_split T0 post1 HT0') as [mid [post0' [Epost Hi0']]].
    destruct post1 as [|Q rest]; [destruct mid; discriminate|].
    rewrite binary_dispatcher_cons in Hd'.
    inst_inv Hd'. inst_inv Hd'. inst_inv Hd'. inst_inv Hd'. inst_inv Hd'.
    injection Hd' as <-.
    unfold get_type_index, load_type_index, bind at 1.
    destruct (Z.eqb_spec (type_index (heap w v0)) (sizeof_pack (Q :: rest)));
      [lia|].
    unfold bind at 1.
    destruct (Z.eqb_spec (type_index (heap w v1)) (sizeof_pack (Q :: rest)));
      [|lia].
    rewrite Epost in E4.
    assert (Hfitp : fits (mid ++ T0 :: post0')).
    { rewrite <- Epost. exact (fits_tail _ _ (fits_app_r _ _ Hfit1)). }
    assert (Htag0 : type_index (heap w v0) = sizeof_pack post0') by congruence.
    destruct (binary_dispatcher_lhs_scan F_ Types T1 mid T0 post0' a2 v0 v1 f w
                E4 Hfitp Htag0) as [g0 [g1 [call [Hg0 [Hg1 [Hc ->]]]]]].
    exists call. split; [exact Hc|].
    unfold bind.
    rewrite (get_declared_run T0 Types g0 v0 w Hg0 HT0 Hv0).
    rewrite (get_declared_run T1 Types g1 v1 w Hg1 HT1 Hv1).
    reflexivity.
  - (* the same alternative *)
    assert (ET : T0 = T1) by exact (direct_type_inj T0 T1 Types Hfit HT0 Heq).
    subst T1.
    assert (Hd0 : binary_dispatcher F_ Types (pre0 ++ T0 :: post0) = Some d)
      by (rewrite <- E0; exact Hd).
    destruct (binary_dispatcher_reach F_ Types pre0 T0 post0 d v0 v1 f w
                Hd0 Hfit0 ltac:(lia) ltac:(lia)) as [d' [Hd' ->]].
    destruct post0 as [|Q rest].
    + cbn [binary_dispatcher] in Hd'. inst_inv Hd'. inst_inv Hd'.
      cbv zeta in Hd'. injection Hd' as <-.
      exists a0. split; [exact E2|].
      unfold bind.
      rewrite (get_declared_run T0 Types a v0 w E HT0 Hv0).
      rewrite (get_declared_run T0 Types a v1 w E HT0 Hv1).
      reflexivity.
    + rewrite binary_dispatcher_cons in Hd'.
      inst_inv Hd'. inst_inv Hd'. inst_inv Hd'. inst_inv Hd'. inst_inv Hd'.
      injection Hd' as <-.
      exists a0. split; [exact E2|].
      unfold get_type_index, load_type_index, bind at 1.
      destruct (Z.eqb_spec (type_index (heap w v0)) (sizeof_pack (Q :: rest)));
        [|congruence].
      unfold bind at 1 2.
      destruct (Z.eqb_spec (type_index (heap w v0)) (type_index (heap w v1)));
        [|congruence].
      unfold bind.
      rewrite (get_declared_run T0 Types a v0 w E HT0 Hv0).
      rewrite (get_declared_run T0 Types a v1 w E HT0 Hv1).
      reflexivity.
  - (* T0 is declared first: the scan stops at T0 and looks for T1 *)
    assert (Hd0 : binary_dispatcher F_ Types (pre0 ++ T0 :: post0) = Some d)
      by (rewrite <- E0; exact Hd).
    destruct (binary_dispatcher_reach F_ Types pre0 T0 post0 d v0 v1 f w
                Hd0 Hfit0 ltac:(lia) ltac:(lia)) as [d' [Hd' ->]].
    assert (Hskip : direct_type T1 Types = direct_type T1 post0).
    { rewrite E0.
      replace (pre0 ++ T0 :: post0) with ((pre0 ++ [T0]) ++ post0)
        by (rewrite <- app_assoc; reflexivity).
      apply direct_type_app_skip.
      - rewrite <- app_assoc. exact Hfit0.
      - rewrite <- app_assoc. cbn [app]. rewrite <- E0. lia. }
    assert (HT1' : direct_type T1 post0 <> invalid_value) by congruence.
    destruct (direct_type_split T1 post0 HT1') as [mid [post1' [Epost Hi1']]].
    destruct post0 as [|Q rest]; [destruct mid; discriminate|].
    rewrite binary_dispatcher_cons in Hd'.
    inst_inv Hd'. inst_inv Hd'. inst_inv Hd'. inst_inv Hd'. inst_inv Hd'.
    injection Hd' as <-.
    unfold get_type_index, load_type_index, bind at 1.
    destruct (Z.eqb_spec (type_index (heap w v0)) (sizeof_pack (Q :: rest)));
      [|congruence].
    unfold bind at 1 2.
    destruct (Z.eqb_spec (type_index (heap w v0)) (type_index (heap w v1)));
      [lia|].
    rewrite Epost in E3.
    assert (Hfitp : fits (mid ++ T1 :: post1')).
    { rewrite <- Epost. exact (fits_tail _ _ (fits_app_r _ _ Hfit0)). }
    assert (Htag1 : type_index (heap w v1) = sizeof_pack post1') by congruence.
    destruct (binary_dispatcher_rhs_scan F_ Types T0 mid T1 post1' a1 v0 v1 f w
                E3 Hfitp Htag1) as [g0 [g1 [call [Hg0 [Hg1 [Hc ->]]]]]].
    exists call. split; [exact Hc|].
    unfold bind.
    rewrite (get_declared_run T0 Types g0 v0 w Hg0 HT0 Hv0).
    rewrite (get_declared_run T1 Types g1 v1 w Hg1 HT1 Hv1).
    reflexivity.
Qed.

(** ** set<T>() has no build-time check *)

(** X25: [set<T>()] does not check that [T] is an alternative.  For a
    [T] outside the pack it compiles, and whenever the constructor of
    [T] returns it returns too, leaving the variant with the invalid
    tag and the object built in its storage: [valid()] is false
    afterwards. *)
Theorem set_outside_pack_unchecked (Types : list ty) (T : ty) (this : addr)
    (args : list obj) (o : obj) (w : world obj) :
  variant_class Types = Some tt ->
  has_type T Types = false ->
  construct_args T args = Ret o ->
  exists set_T w',
    set T Types = Some set_T /\
    set_T this args w = (Ret tt, w') /\
    heap w' this = mk_variant invalid_value o /\
    valid Types this w' = (Ret false, w').
Proof.
  intros Hclass Hno Ho. unfold set. rewrite Hclass. cbn [inst_bind].
  rewrite (has_type_false_invalid T Types Hno).
  destruct (variant_helper_destroy_total Types (type_index (heap w this))
              this w) as [calls [Hd _]].
  eexists. eexists. split; [reflexivity|].
  run. rewrite Hd. run. rewrite Ho. run.
  split; [reflexivity|]. lookup. rewrite Z.eqb_refl.
  split; reflexivity.
Qed.

End Properties.

(** * Further properties of the header *)

Ltac lookup_heap :=
  repeat first
    [ rewrite update_same
    | rewrite update_other by congruence
    | progress cbn [type_index data heap trace fst snd] ].

(** ** The size of the storage *)

Lemma static_max_from_bounds (arg1 : Z) (others : list Z) :
  arg1 <= static_max_from arg1 others /\
  (forall x, In x others -> x <= static_max_from arg1 others) /\
  In (static_max_from arg1 others) (arg1 :: others).
Proof.
  revert arg1. induction others as [|arg2 others' IH]; intros arg1.
  - cbn. repeat split; [lia | intros x [] | left; reflexivity].
  - cbn [static_max_from].
    destruct (Z.geb_spec arg1 arg2) as [Hge | Hlt].
    + destruct (IH arg1) as [H1 [H2 H3]].
      split; [exact H1|]. split.
      * intros x [<- | Hin]; [lia | exact (H2 x Hin)].
      * destruct H3 as [H3 | H3]; [left; exact H3 | right; right; exact H3].
    + destruct (IH arg2) as [H1 [H2 H3]].
      split; [lia|]. split.
      * intros x [<- | Hin]; [exact H1 | exact (H2 x Hin)].
      * right. exact H3.
Qed.

(** X1: the storage is sized by the largest alternative: [data_size] is
    the size of one of the alternatives and no alternative is larger;
    for the empty pack there is no value at all. *)
Theorem data_size_is_largest (measure : ty -> Z) (Types : list ty) :
  (Types <> [] ->
   exists size,
     data_size measure Types = Some size /\
     (exists T, In T Types /\ measure T = size) /\
     (forall T, In T Types -> measure T <= size)) /\
  (Types = [] -> data_size measure Types = None).
Proof.
  split.
  - intros Hne. destruct Types as [|T0 rest]; [congruence|].
    unfold data_size. cbn [map static_max].
    destruct (static_max_from_bounds (measure T0) (map measure rest))
      as [H1 [H2 H3]].
    eexists. split; [reflexivity|]. split.
    + destruct H3 as [H3 | H3].
      * exists T0. split; [left; reflexivity | exact H3].
      * apply in_map_iff in H3. destruct H3 as [T [HT Hin]].
        exists T. split; [right; exact Hin | exact HT].
    + intros T [<- | Hin]; [exact H1|].
      apply H2. apply in_map. exact Hin.
  - intros ->. reflexivity.
Qed.

Section Further.
Context {obj : Type} {alt : Alternatives obj}.

(** ** Unary visitation *)

Lemma apply_visitor_inv {F R : Type} (F_ : visitor F R) (V : list ty)
    (av : F -> addr -> M obj R) :
  apply_visitor F_ V = Some av ->
  exists visit_,
    visit F_ V = Some visit_ /\ av = (fun f v => visit_ v f).
Proof.
  unfold apply_visitor. intros H. inst_inv H. injection H as <-.
  exists a. split; [exact E | reflexivity].
Qed.

(** X2: [apply_visitor(f, v)] on a variant holding the declared
    alternative [T] is one call of the visitor, on the stored object
    unwrapped as a [T]; nothing else happens. *)
Theorem apply_visitor_calls_once {F R : Type} (F_ : visitor F R)
    (Types : list ty) (T : ty) (av : F -> addr -> M obj R)
    (is_T : addr -> M obj bool) (v : addr) (f : F) (w : world obj) :
  fits Types ->
  apply_visitor F_ Types = Some av ->
  variant_is T Types = Some is_T ->
  is_T v w = (Ret true, w) ->
  exists call,
    F_ (visitor_argument T) = Some call /\
    av f v w = call f (unwrapper_apply_const T (data (heap w v))) w.
Proof.
  intros Hfit Hav His Hv.
  destruct (apply_visitor_inv F_ Types av Hav) as [visit_ [Hvisit ->]].
  pose proof (is_true_tag T Types is_T v w His Hv) as Htag.
  pose proof (is_declared T Types is_T Hfit His) as HT.
  unfold visit in Hvisit. inst_inv Hvisit.
  destruct (direct_type_split T Types HT) as [pre [post [HTypes Hidx]]].
  assert (Hd : dispatcher F_ Types (pre ++ T :: post) = Some visit_)
    by (rewrite <- HTypes; exact Hvisit).
  assert (Hfit' : fits (pre ++ T :: post)) by (rewrite <- HTypes; exact Hfit).
  assert (Htag' : type_index (heap w v) = sizeof_pack post) by congruence.
  destruct (dispatcher_scan F_ Types pre T post visit_ v f w Hd Hfit' Htag')
    as [get_T [call [Hg [Hc Hrun]]]].
  exists call. split; [exact Hc|].
  cbv beta. rewrite Hrun. unfold bind.
  rewrite (get_declared_run T Types get_T v w Hg HT Htag). reflexivity.
Qed.

(** X3: [apply_visitor(f, v)] on an empty variant ([valid()] false)
    throws [bad_variant_access]; the visitor is not called and nothing
    changes. *)
Theorem apply_visitor_empty_throws {F R : Type} (F_ : visitor F R)
    (Types : list ty) (av : F -> addr -> M obj R)
    (v : addr) (f : F) (w : world obj) :
  fits Types ->
  apply_visitor F_ Types = Some av ->
  valid Types v w = (Ret false, w) ->
  av f v w = (Throw (bad_variant_access "in get<T>()"), w).
Proof.
  intros Hfit Hav Hv.
  destruct (apply_visitor_inv F_ Types av Hav) as [visit_ [Hvisit ->]].
  assert (Htag : type_index (heap w v) = invalid_value).
  { revert Hv. run. intros Hv.
    destruct (Z.eqb_spec (type_index (heap w v)) invalid_value);
      [assumption | discriminate]. }
  exact (visit_invalid F_ Types visit_ v f w Hvisit Hfit Htag).
Qed.

(** ** Binary visitation with an empty operand *)

Lemma sizeof_pack_ne_invalid {A : Type} (T : A) (l : list A) :
  fits (T :: l) -> sizeof_pack l <> invalid_value.
Proof.
  intros Hfit. rewrite (sizeof_pack_fits l (fits_tail _ _ Hfit)).
  rewrite invalid_value_eq. unfold fits in Hfit. cbn [List.length] in Hfit.
  lia.
Qed.

Lemma get_declared_either (T : ty) (Types : list ty) (g : addr -> M obj obj)
    (v : addr) (w : world obj) :
  get true T Types = Some g ->
  direct_type T Types <> invalid_value ->
  g v w = (Ret (data (heap w v)), w) \/
  g v w = (Throw (bad_variant_access "in get<T>()"), w).
Proof.
  intros Hg HT. rewrite (get_declared true T Types g Hg HT).
  destruct (Z.eq_dec (type_index (heap w v)) (direct_type T Types)) as [E | E].
  - left. apply (get_body_match true get_direct T Types v w E).
  - right. apply (get_body_mismatch true get_direct T Types v w E).
Qed.

Lemma get_declared_invalid (T : ty) (Types : list ty) (g : addr -> M obj obj)
    (v : addr) (w : world obj) :
  get true T Types = Some g ->
  direct_type T Types <> invalid_value ->
  type_index (heap w v) = invalid_value ->
  g v w = (Throw (bad_variant_access "in get<T>()"), w).
Proof.
  intros Hg HT Htag. rewrite (get_declared true T Types g Hg HT).
  apply get_body_mismatch. cbn [get_stored_type]. congruence.
Qed.

(** Two reads in a row, one of them of an empty variant. *)
Lemma two_gets_throw {R : Type} (T0 T1 : ty) (Types : list ty)
    (g0 g1 : addr -> M obj obj) (k : obj -> obj -> M obj R)
    (v0 v1 : addr) (w : world obj) :
  get true T0 Types = Some g0 ->
  get true T1 Types = Some g1 ->
  direct_type T0 Types <> invalid_value ->
  direct_type T1 Types <> invalid_value ->
  type_index (heap w v0) = invalid_value \/
  type_index (heap w v1) = invalid_value ->
  (x <- g0 v0 ;; y <- g1 v1 ;; k x y) w
  = (Throw (bad_variant_access "in get<T>()"), w).
Proof.
  intros Hg0 Hg1 HT0 HT1 [Hv | Hv]; unfold bind.
  - rewrite (get_declared_invalid T0 Types g0 v0 w Hg0 HT0 Hv). reflexivity.
  - destruct (get_declared_either T0 Types g0 v0 w Hg0 HT0) as [-> | ->];
      [|reflexivity].
    rewrite (get_declared_invalid T1 Types g1 v1 w Hg1 HT1 Hv). reflexivity.
Qed.

Lemma binary_dispatcher_rhs_invalid {F R : Type} (F_ : binary_visitor F R)
    (V : list ty) (T0 : ty) (Types : list ty)
    (d : addr -> addr -> F -> M obj R) (lhs rhs : addr) (f : F)
    (w : world obj) :
  binary_dispatcher_rhs F_ V T0 Types = Some d ->
  fits Types ->
  direct_type T0 V <> invalid_value ->
  (forall T, In T Types -> direct_type T V <> invalid_value) ->
  type_index (heap w rhs) = invalid_value ->
  d lhs rhs f w = (Throw (bad_variant_access "in get<T>()"), w).
Proof.
  revert d. induction Types as [|T1 Types' IH]; intros d Hd Hfit HT0 Hall Hv.
  - discriminate.
  - assert (HT1 : direct_type T1 V <> invalid_value)
      by (apply Hall; left; reflexivity).
    destruct Types' as [|Q rest].
    + cbn [binary_dispatcher_rhs] in Hd.
      inst_inv Hd. inst_inv Hd. inst_inv Hd. cbv zeta in Hd.
      injection Hd as <-.
      apply (two_gets_throw T0 T1 V a a0 _ lhs rhs w E E0 HT0 HT1).
      right. exact Hv.
    + rewrite binary_dispatcher_rhs_cons in Hd.
      inst_inv Hd. inst_inv Hd. inst_inv Hd. inst_inv Hd.
      injection Hd as <-.
      unfold get_type_index, load_type_index, bind at 1. rewrite Hv.
      pose proof (sizeof_pack_ne_invalid T1 (Q :: rest) Hfit) as Hne.
      destruct (Z.eqb_spec invalid_value (sizeof_pack (Q :: rest)));
        [congruence|].
      apply (IH a2 E2 (fits_tail _ _ Hfit) HT0); [|exact Hv].
      intros T HT. apply Hall. right. exact HT.
Qed.

Lemma binary_dispatcher_lhs_invalid {F R : Type} (F_ : binary_visitor F R)
    (V : list ty) (T0 : ty) (Types : list ty)
    (d : addr -> addr -> F -> M obj R) (lhs rhs : addr) (f : F)
    (w : world obj) :
  binary_dispatcher_lhs F_ V T0 Types = Some d ->
  fits Types ->
  direct_type T0 V <> invalid_value ->
  (forall T, In T Types -> direct_type T V <> invalid_value) ->
  type_index (heap w lhs) = invalid_value ->
  d lhs rhs f w = (Throw (bad_variant_access "in get<T>()"), w).
Proof.
  revert d. induction Types as [|T1 Types' IH]; intros d Hd Hfit HT0 Hall Hv.
  - discriminate.
  - assert (HT1 : direct_type T1 V <> invalid_value)
      by (apply Hall; left; reflexivity).
    destruct Types' as [|Q rest].
    + cbn [binary_dispatcher_lhs] in Hd.
      inst_inv Hd. inst_inv Hd. inst_inv Hd. cbv zeta in Hd.
      injection Hd as <-.
      apply (two_gets_throw T1 T0 V a a0 _ lhs rhs w E E0 HT1 HT0).
      left. exact Hv.
    + rewrite binary_dispatcher_lhs_cons in Hd.
      inst_inv Hd. inst_inv Hd. inst_inv Hd. inst_inv Hd.
      injection Hd as <-.
      unfold get_type_index, load_type_index, bind at 1. rewrite Hv.
      pose proof (sizeof_pack_ne_invalid T1 (Q :: rest) Hfit) as Hne.
      destruct (Z.eqb_spec invalid_value (sizeof_pack (Q :: rest)));
        [congruence|].
      apply (IH a2 E2 (fits_tail _ _ Hfit) HT0); [|exact Hv].
      intros T HT. apply Hall. right. exact HT.
Qed.

Lemma binary_dispatcher_invalid {F R : Type} (F_ : binary_visitor F R)
    (V Types : list ty)
    (d : addr -> addr -> F -> M obj R) (v0 v1 : addr) (f : F)
    (w : world obj) :
  binary_dispatcher F_ V Types = Some d ->
  fits Types ->
  (forall T, In T Types -> direct_type T V <> invalid_value) ->
  type_index (heap w v0) = invalid_value \/
  type_index (heap w v1) = invalid_value ->
  d v0 v1 f w = (Throw (bad_variant_access "in get<T>()"), w).
Proof.
  revert d. induction Types as [|T Types' IH]; intros d Hd Hfit Hall Hv.
  - discriminate.
  - assert (HT : direct_type T V <> invalid_value)
      by (apply Hall; left; reflexivity).
    assert (Hall' : forall U, In U Types' -> direct_type U V <> invalid_value)
      by (intros U HU; apply Hall; right; exact HU).
    destruct Types' as [|Q rest].
    + cbn [binary_dispatcher] in Hd. inst_inv Hd. inst_inv Hd.
      cbv zeta in Hd. injection Hd as <-.
      exact (two_gets_throw T T V a a _ v0 v1 w E E HT HT Hv).
    + rewrite binary_dispatcher_cons in Hd.
      inst_inv Hd. inst_inv Hd. inst_inv Hd. inst_inv Hd. inst_inv Hd.
      injection Hd as <-.
      pose proof (sizeof_pack_ne_invalid T (Q :: rest) Hfit) as Hne.
      pose proof (fits_tail _ _ Hfit) as Hfit'.
      unfold get_type_index, load_type_index, bind at 1.
      destruct (Z.eqb_spec (type_index (heap w v0)) (sizeof_pack (Q :: rest)))
        as [E0' | N0].
      * (* v0 holds T, so v1 is the empty one *)
        destruct Hv as [Hv | Hv]; [congruence|].
        unfold bind at 1 2.
        destruct (Z.eqb_spec (type_index (heap w v0)) (type_index (heap w v1)));
          [congruence|].
        exact (binary_dispatcher_rhs_invalid F_ V T (Q :: rest) a1 v0 v1 f w
                 E1 Hfit' HT Hall' Hv).
      * unfold bind at 1.
        destruct (Z.eqb_spec (type_index (heap w v1)) (sizeof_pack (Q :: rest)))
          as [E1' | N1].
        -- (* v1 holds T, so v0 is the empty one *)
           destruct Hv as [Hv | Hv]; [|congruence].
           exact (binary_dispatcher_lhs_invalid F_ V T (Q :: rest) a2 v0 v1 f w
                    E2 Hfit' HT Hall' Hv).
        -- exact (IH a3 E3 Hfit' Hall' Hv).
Qed.

(** X4: [apply_visitor(f, v0, v1)] with an empty variant as either
    operand throws [bad_variant_access], whatever the other operand
    holds; the visitor is not called and nothing changes. *)
Theorem binary_visit_empty_throws {F R : Type} (F_ : binary_visitor F R)
    (Types : list ty) (av : F -> addr -> addr -> M obj R)
    (v0 v1 : addr) (f : F) (w : world obj) :
  fits Types ->
  apply_visitor2 F_ Types = Some av ->
  valid Types v0 w = (Ret false, w) \/ valid Types v1 w = (Ret false, w) ->
  av f v0 v1 w = (Throw (bad_variant_access "in get<T>()"), w).
Proof.
  intros Hfit Hav Hv.
  unfold apply_visitor2 in Hav. inst_inv Hav. injection Hav as <-.
  unfold binary_visit in E. inst_inv E.
  assert (Htag : type_index (heap w v0) = invalid_value \/
                 type_index (heap w v1) = invalid_value).
  { destruct Hv as [Hv | Hv]; [left | right]; revert Hv; run; intros Hv.
    - destruct (Z.eqb_spec (type_index (heap w v0)) invalid_value);
        [assumption | discriminate].
    - destruct (Z.eqb_spec (type_index (heap w v1)) invalid_value);
        [assumption | discriminate]. }
  apply (binary_dispatcher_invalid F_ Types Types a v0 v1 f w E Hfit);
    [|exact Htag].
  intros T HT. apply has_type_direct_type; [exact Hfit|].
  clear - HT. induction Types as [|P rest IH]; [destruct HT|].
  cbn [has_type]. destruct HT as [-> | HT].
  - rewrite is_same_refl. reflexivity.
  - rewrite (IH HT). apply orb_true_r.
Qed.

(** ** Copy construction *)

Lemma valid_false_tag (Types : list ty) (v : addr) (w : world obj) :
  valid Types v w = (Ret false, w) ->
  type_index (heap w v) = invalid_value.
Proof.
  run. intros Hv.
  destruct (Z.eqb_spec (type_index (heap w v)) invalid_value);
    [assumption | discriminate].
Qed.

Lemma variant_helper_move_invalid (Types : list ty)
    (old_value new_value : addr) (w : world obj) :
  fits Types ->
  variant_helper_move Types invalid_value old_value new_value w = (Ret tt, w).
Proof.
  induction Types as [|First Types' IH]; intros Hfit;
    cbn [variant_helper_move].
  - reflexivity.
  - destruct (Z.eqb_spec invalid_value (sizeof_pack Types')) as [E | _].
    + exfalso. exact (sizeof_pack_ne_invalid First Types' Hfit (eq_sym E)).
    + apply IH. exact (fits_tail _ _ Hfit).
Qed.

(** X5: copy construction from a variant holding the declared
    alternative [T] calls the copy constructor of [T] once, on the
    source object, and changes no other variant, the source included.
    When that constructor returns, the new variant has the tag of the
    source and the object built; when it throws, the exception leaves
    the constructor.  When moreover [T] is stored so that the comparer
    reads it back (an unqualified type, [recursive_wrapper] of one, or
    [std::reference_wrapper] of a const one), [copy == source] is what
    the equality of the payload type says of the two objects; of other
    alternatives nothing is said about [==]. *)
Theorem copy_construct_then_equal (Types : list ty) (T : ty)
    (is_T : addr -> M obj bool) (this old : addr) (w : world obj) :
  fits Types ->
  variant_is T Types = Some is_T ->
  is_T old w = (Ret true, w) ->
  this <> old ->
  let src := data (heap w old) in
  let r := variant_copy Types this old w in
  trace (snd r) = trace w ++ [copy_call T src] /\
  (forall c, c <> this -> heap (snd r) c = heap w c) /\
  match copy_construct T src with
  | Ret o =>
      fst r = Ret tt /\
      heap (snd r) this = mk_variant (direct_type T Types) o /\
      (forall op,
          operator_eq Types = Some op ->
          comparable_storage T = true ->
          op this old (snd r)
          = (Ret (equal_to (visitor_argument T)
                    (unwrapper_apply_const T o)
                    (unwrapper_apply_const T src)), snd r))
  | Throw e => fst r = Throw e
  | Terminate => fst r = Terminate
  end.
Proof.
  intros Hfit His Hold Hne src r.
  pose proof (is_true_tag T Types is_T old w His Hold) as Htag.
  pose proof (is_declared T Types is_T Hfit His) as HT.
  assert (Hr : trace (snd r) = trace w ++ [copy_call T src] /\
               (forall c, c <> this -> heap (snd r) c = heap w c) /\
               match copy_construct T src with
               | Ret o =>
                   fst r = Ret tt /\
                   heap (snd r) this = mk_variant (direct_type T Types) o
               | Throw e => fst r = Throw e
               | Terminate => fst r = Terminate
               end).
  { unfold r, variant_copy. run. lookup_heap. rewrite Htag.
    rewrite (variant_helper_copy_declared Types T old this _ Hfit HT).
    run. lookup_heap. fold src.
    destruct (copy_construct T src) as [o | e |]; run; lookup_heap;
      (split; [reflexivity|]);
      (split; [intros c Hc; lookup_heap; reflexivity|]);
      repeat split. }
  destruct Hr as [Htr [Hframe Hout]].
  split; [exact Htr|]. split; [exact Hframe|].
  destruct (copy_construct T src) as [o | e |]; [|exact Hout|exact Hout].
  destruct Hout as [Hret Hthis].
  split; [exact Hret|]. split; [exact Hthis|].
  intros op Hop Hstore.
  destruct (operator_eq_inv Types op Hop) as [visit_ [Hvisit Hrun]].
  rewrite Hrun, Hthis, (Hframe old ltac:(congruence)).
  cbn [type_index]. rewrite Htag, Z.eqb_refl.
  rewrite (visit_comparer_same Types equal_comp T visit_ this old (snd r)
             Hvisit Hfit HT Hstore).
  - rewrite Hthis, (Hframe old ltac:(congruence)). reflexivity.
  - rewrite Hthis. reflexivity.
  - rewrite (Hframe old ltac:(congruence)). exact Htag.
Qed.

(** X6: copy or move construction from an empty variant gives an empty
    variant: no constructor of an alternative is called, no exception is
    thrown, and the storage of the new variant is left as it was. *)
Theorem construct_from_empty_is_empty (Types : list ty)
    (this old : addr) (w : world obj) :
  fits Types ->
  valid Types old w = (Ret false, w) ->
  (let r := variant_copy Types this old w in
   fst r = Ret tt /\
   heap (snd r) this = mk_variant invalid_value (data (heap w this)) /\
   (forall c, c <> this -> heap (snd r) c = heap w c) /\
   trace (snd r) = trace w /\
   valid Types this (snd r) = (Ret false, snd r)) /\
  (let r := variant_move Types this old w in
   fst r = Ret tt /\
   heap (snd r) this = mk_variant invalid_value (data (heap w this)) /\
   (forall c, c <> this -> heap (snd r) c = heap w c) /\
   trace (snd r) = trace w /\
   valid Types this (snd r) = (Ret false, snd r)).
Proof.
  intros Hfit Hold.
  pose proof (valid_false_tag Types old w Hold) as Htag.
  assert (Hold' : forall v : variant obj,
             type_index (update (heap w) this v old) = invalid_value
             \/ this = old).
  { intros v. destruct (Nat.eq_dec this old) as [E | N]; [right; exact E|].
    left. rewrite update_other by exact N. exact Htag. }
  split.
  - unfold variant_copy. run. rewrite Htag.
    assert (Hi : type_index
                   (update (heap w) this
                      (mk_variant invalid_value (data (heap w this))) old)
                 = invalid_value).
    { destruct (Hold' (mk_variant invalid_value (data (heap w this))))
        as [E | <-]; [exact E | rewrite update_same; reflexivity]. }
    rewrite Hi.
    rewrite (variant_helper_copy_invalid Types old this _ Hfit).
    lookup_heap. rewrite Z.eqb_refl.
    repeat split. intros c Hc. lookup_heap. reflexivity.
  - unfold variant_move. run. rewrite Htag.
    assert (Hi : type_index
                   (update (heap w) this
                      (mk_variant invalid_value (data (heap w this))) old)
                 = invalid_value).
    { destruct (Hold' (mk_variant invalid_value (data (heap w this))))
        as [E | <-]; [exact E | rewrite update_same; reflexivity]. }
    rewrite Hi.
    rewrite (variant_helper_move_invalid Types old this _ Hfit).
    lookup_heap. rewrite Z.eqb_refl.
    repeat split. intros c Hc. lookup_heap. reflexivity.
Qed.

(** ** Destruction *)

(** X7: the destructor of a variant never throws and changes no variant;
    it calls at most one destructor of an alternative: none for an empty
    variant, and for a variant holding the declared alternative [T] the
    destructor of [T], once, on the stored object. *)
Theorem destructor_calls_at_most_one (Types : list ty) (this : addr)
    (w : world obj) :
  fits Types ->
  (exists calls,
      variant_destructor Types this w
      = (Ret tt, mk_world (heap w) (trace w ++ calls)) /\
      (List.length calls <= 1)%nat) /\
  (valid Types this w = (Ret false, w) ->
   variant_destructor Types this w = (Ret tt, w)) /\
  (forall T is_T,
      variant_is T Types = Some is_T ->
      is_T this w = (Ret true, w) ->
      variant_destructor Types this w
      = (Ret tt,
         mk_world (heap w)
           (trace w ++ [destructor_call T (data (heap w this))]))).
Proof.
  intros Hfit. split; [|split].
  - destruct (variant_helper_destroy_total Types (type_index (heap w this))
                this w) as [calls [Hd Hlen]].
    exists calls. split; [|exact Hlen].
    unfold variant_destructor. run. rewrite Hd. reflexivity.
  - intros Hv. unfold variant_destructor. run.
    rewrite (valid_false_tag Types this w Hv).
    rewrite (variant_helper_destroy_invalid Types this w Hfit). reflexivity.
  - intros T is_T His Hthis.
    unfold variant_destructor. run.
    rewrite (is_true_tag T Types is_T this w His Hthis).
    rewrite (variant_helper_destroy_declared Types T this w Hfit
               (is_declared T Types is_T Hfit His)).
    reflexivity.
Qed.

(** ** set<T>() *)

Lemma set_inv (T : ty) (Types : list ty)
    (set_T : addr -> list obj -> M obj unit) :
  set T Types = Some set_T ->
  set_T = (fun this args =>
    i <- load_type_index this ;;
    variant_helper_destroy Types i this ;;
    store_type_index this invalid_value ;;
    log (constructor_call T args) ;;
    o <- lift (construct_args T args) ;;
    store_data this o ;;
    store_type_index this (direct_type T Types)).
Proof.
  unfold set. intros H. inst_inv H. congruence.
Qed.

(** X8: [set<T>(args...)] on a variant holding the declared alternative
    [U] calls the destructor of [U] once on the old object, whether or
    not [U] is [T], then the constructor of [T] on the arguments, and
    touches no other variant.  When the constructor
    of [T] returns, the variant holds what it built under the tag of
    [T]; when it throws, the exception leaves [set] and the variant is
    left empty. *)
Theorem set_destroys_then_constructs (Types : list ty) (T U : ty)
    (set_T : addr -> list obj -> M obj unit) (is_U : addr -> M obj bool)
    (this : addr) (args : list obj) (w : world obj) :
  fits Types ->
  set T Types = Some set_T ->
  variant_is U Types = Some is_U ->
  is_U this w = (Ret true, w) ->
  let old := data (heap w this) in
  let r := set_T this args w in
  trace (snd r)
  = trace w ++ [destructor_call U old; constructor_call T args] /\
  (forall c, c <> this -> heap (snd r) c = heap w c) /\
  match construct_args T args with
  | Ret o =>
      fst r = Ret tt /\
      heap (snd r) this = mk_variant (direct_type T Types) o
  | Throw e =>
      fst r = Throw e /\
      heap (snd r) this = mk_variant invalid_value old /\
      valid Types this (snd r) = (Ret false, snd r)
  | Terminate =>
      fst r = Terminate /\
      heap (snd r) this = mk_variant invalid_value old
  end.
Proof.
  intros Hfit Hset His Hthis old r.
  pose proof (is_true_tag U Types is_U this w His Hthis) as Htag.
  pose proof (is_declared U Types is_U Hfit His) as HU.
  unfold r. rewrite (set_inv T Types set_T Hset). run. rewrite Htag.
  rewrite (variant_helper_destroy_declared Types U this w Hfit HU).
  run. fold old.
  destruct (construct_args T args) as [o | e |]; run; lookup_heap;
    (split; [rewrite <- app_assoc; reflexivity|]);
    (split; [intros c Hc; lookup_heap; reflexivity|]);
    rewrite ?Z.eqb_refl; repeat split.
Qed.

(** ** Inspection *)

(** X9: at most one alternative is active: when [is<T>()] returns true,
    [valid()] returns true and [is<U>()] returns false for every other
    declared [U]; on an empty variant [is<T>()] returns false for every
    declared [T]. *)
Theorem is_exclusive (Types : list ty) (T : ty)
    (is_T : addr -> M obj bool) (this : addr) (w : world obj) :
  fits Types ->
  variant_is T Types = Some is_T ->
  (is_T this w = (Ret true, w) ->
   valid Types this w = (Ret true, w) /\
   forall U is_U,
     variant_is U Types = Some is_U ->
     U <> T ->
     is_U this w = (Ret false, w)) /\
  (valid Types this w = (Ret false, w) -> is_T this w = (Ret false, w)).
Proof.
  intros Hfit His.
  pose proof (is_declared T Types is_T Hfit His) as HT.
  split.
  - intros Hthis.
    pose proof (is_true_tag T Types is_T this w His Hthis) as Htag.
    split.
    + run. rewrite Htag.
      destruct (Z.eqb_spec (direct_type T Types) invalid_value);
        [contradiction | reflexivity].
    + intros U is_U HisU Hne.
      destruct (variant_is_inv U Types is_U HisU) as [_ ->].
      run. rewrite Htag.
      destruct (Z.eqb_spec (direct_type T Types) (direct_type U Types))
        as [E | _]; [|reflexivity].
      exfalso. apply Hne. symmetry.
      exact (direct_type_inj T U Types Hfit HT E).
  - intros Hv. pose proof (valid_false_tag Types this w Hv) as Htag.
    destruct (variant_is_inv T Types is_T His) as [_ ->].
    run. rewrite Htag.
    destruct (Z.eqb_spec invalid_value (direct_type T Types));
      [congruence | reflexivity].
Qed.

(** X10: [which()] on a variant holding the declared alternative [T] is
    a position of the pack, and the type declared there is [T]; on an
    empty variant [which()] is the number of alternatives, one past the
    last position.  (Packs of fewer than 2^31 types.) *)
Theorem which_is_declared_position (Types : list ty) (this : addr)
    (w : world obj) :
  Z.of_nat (List.length Types) < 2 ^ 31 ->
  (forall T is_T,
      variant_is T Types = Some is_T ->
      is_T this w = (Ret true, w) ->
      exists i : nat,
        which Types this w = (Ret (Z.of_nat i), w) /\
        nth_error Types i = Some T) /\
  (valid Types this w = (Ret false, w) ->
   which Types this w = (Ret (Z.of_nat (List.length Types)), w)).
Proof.
  intros Hint.
  assert (Hfit : fits Types) by (unfold fits, size_t_modulus; lia).
  split.
  - intros T is_T His Hthis.
    pose proof (is_true_tag T Types is_T this w His Hthis) as Htag.
    pose proof (is_declared T Types is_T Hfit His) as HT.
    destruct (direct_type_range T Types Hfit) as [E | R]; [contradiction|].
    exists (Z.to_nat (Z.of_nat (List.length Types) - 1 - direct_type T Types)).
    split.
    + apply which_of_position; try assumption; try lia.
    + apply direct_type_nth; assumption.
  - intros Hv. pose proof (valid_false_tag Types this w Hv) as Htag.
    unfold which. run. rewrite Htag.
    rewrite (sizeof_pack_fits Types Hfit).
    unfold invalid_value, to_size_t, to_int, size_t_modulus.
    replace (Z.of_nat (List.length Types) - (-1) mod 2 ^ 64)
      with (Z.of_nat (List.length Types) + 1 + (-1) * 2 ^ 64)
      by (change ((-1) mod 2 ^ 64) with (2 ^ 64 - 1); lia).
    rewrite Z.mod_add by lia.
    rewrite (Z.mod_small (Z.of_nat (List.length Types) + 1)) by lia.
    replace (Z.of_nat (List.length Types) + 1 - 1)
      with (Z.of_nat (List.length Types)) by lia.
    rewrite (Z.mod_small (Z.of_nat (List.length Types))) by lia.
    rewrite (Z.mod_small (Z.of_nat (List.length Types) + 2 ^ 31)) by lia.
    f_equal. f_equal. lia.
Qed.

(** ** Comparing an empty variant with a non-empty one *)

(** X11: between an empty variant and one holding a declared
    alternative the comparison operators do not throw: [operator==]
    returns false both ways, and [operator<] puts the empty variant
    after the other one. *)
Theorem empty_compares_greater (Types : list ty) (T : ty)
    (op_eq op_lt : addr -> addr -> M obj bool) (is_T : addr -> M obj bool)
    (a e : addr) (w : world obj) :
  fits Types ->
  operator_eq Types = Some op_eq ->
  operator_lt Types = Some op_lt ->
  variant_is T Types = Some is_T ->
  is_T a w = (Ret true, w) ->
  valid Types e w = (Ret false, w) ->
  op_eq a e w = (Ret false, w) /\
  op_eq e a w = (Ret false, w) /\
  op_lt a e w = (Ret true, w) /\
  op_lt e a w = (Ret false, w).
Proof.
  intros Hfit Heq Hlt His Ha He.
  pose proof (is_true_tag T Types is_T a w His Ha) as Hta.
  pose proof (is_declared T Types is_T Hfit His) as HT.
  pose proof (valid_false_tag Types e w He) as Hte.
  destruct (direct_type_range T Types Hfit) as [E | R]; [contradiction|].
  destruct (operator_eq_inv Types op_eq Heq) as [veq [_ Hreq]].
  destruct (operator_lt_inv Types op_lt Hlt) as [vlt [_ Hrlt]].
  rewrite !Hreq, !Hrlt, Hta, Hte.
  assert (Hlt' : direct_type T Types < invalid_value).
  { rewrite invalid_value_eq. unfold fits in Hfit. lia. }
  destruct (Z.eqb_spec (direct_type T Types) invalid_value); [lia|].
  destruct (Z.eqb_spec invalid_value (direct_type T Types)); [lia|].
  destruct (Z.ltb_spec (direct_type T Types) invalid_value); [|lia].
  destruct (Z.ltb_spec invalid_value (direct_type T Types)); [lia|].
  repeat split.
Qed.

(** ** Construction from a type outside the pack *)

Lemma convertible_type_first (U First : ty) (pre post : list ty) :
  fits (pre ++ First :: post) ->
  (forall P, In P pre -> is_convertible U P = false) ->
  is_convertible U First = true ->
  convertible_type U (pre ++ First :: post) = Z.of_nat (List.length post).
Proof.
  induction pre as [|P pre' IH]; intros Hfit Hpre Hconv;
    cbn [app convertible_type].
  - rewrite Hconv. apply sizeof_pack_fits. exact (fits_tail _ _ Hfit).
  - rewrite (Hpre P (or_introl eq_refl)).
    apply IH; [exact (fits_tail _ _ Hfit) | | exact Hconv].
    intros Q HQ. apply Hpre. right. exact HQ.
Qed.

Lemma is_valid_type_iff (U : ty) (Types : list ty) :
  is_valid_type U Types = true <->
  exists P, In P Types /\ is_convertible U P = true.
Proof.
  induction Types as [|First rest IH]; cbn [is_valid_type].
  - split; [discriminate | intros [P [[] _]]].
  - rewrite orb_true_iff, IH. split.
    + intros [H | [P [HP Hc]]].
      * exists First. split; [left; reflexivity | exact H].
      * exists P. split; [right; exact HP | exact Hc].
    + intros [P [[<- | HP] Hc]]; [left; exact Hc|].
      right. exists P. split; assumption.
Qed.

(** The converting constructor at a type outside the pack that
    converts to [First] and to nothing declared before it. *)
Lemma variant_value_by_convertible (U : ty) (pre : list ty) (First : ty)
    (post : list ty) :
  fits (pre ++ First :: post) ->
  has_type U (pre ++ First :: post) = false ->
  (forall P, In P pre -> is_convertible U P = false) ->
  is_convertible U First = true ->
  exists ctor,
    variant_value U (pre ++ First :: post) = Some ctor /\
    forall (this : addr) (val : obj) (w : world obj),
      let r := ctor this val w in
      trace (snd r) = trace w ++ [converting_constructor_call First U val] /\
      (forall c, c <> this -> heap (snd r) c = heap w c) /\
      match construct_from First U val with
      | Ret o =>
          fst r = Ret tt /\
          heap (snd r) this = mk_variant (Z.of_nat (List.length post)) o
      | _ => fst r = Terminate
      end.
Proof.
  intros Hfit Hno Hpre Hconv.
  set (Types := pre ++ First :: post) in *.
  assert (Hclass : variant_class Types = Some tt).
  { unfold variant_class, static_assert.
    rewrite (sizeof_pack_fits Types Hfit). unfold Types.
    rewrite length_app. cbn [List.length].
    destruct (Z.ltb_spec 0 (Z.of_nat (List.length pre
                                      + S (List.length post))));
      [reflexivity | lia]. }
  assert (Hvalid : is_valid_type U Types = true).
  { apply is_valid_type_iff. exists First. split; [|exact Hconv].
    unfold Types. apply in_or_app. right. left. reflexivity. }
  assert (Hidx : value_traits_index U Types = Z.of_nat (List.length post)).
  { unfold value_traits_index.
    rewrite (has_type_false_invalid U Types Hno), Z.eqb_refl.
    exact (convertible_type_first U First pre post Hfit Hpre Hconv). }
  assert (Helem : tuple_element
                    (to_size_t
                       (to_size_t (sizeof_pack Types
                                   - value_traits_index U Types) - 1))
                    Types = Some First).
  { rewrite Hidx, (sizeof_pack_fits Types Hfit).
    assert (Hlen : Z.of_nat (List.length Types)
                   = Z.of_nat (List.length pre)
                     + 1 + Z.of_nat (List.length post)).
    { unfold Types. rewrite length_app. cbn [List.length]. lia. }
    assert (Hlt : Z.of_nat (List.length Types) < size_t_modulus)
      by exact Hfit.
    rewrite (to_size_t_small (Z.of_nat (List.length Types)
                              - Z.of_nat (List.length post))) by lia.
    rewrite to_size_t_small by lia.
    unfold tuple_element.
    destruct (Z.ltb_spec (Z.of_nat (List.length Types)
                          - Z.of_nat (List.length post) - 1) 0); [lia|].
    replace (Z.to_nat (Z.of_nat (List.length Types)
                       - Z.of_nat (List.length post) - 1))
      with (List.length pre) by lia.
    unfold Types. rewrite nth_error_app2 by lia.
    rewrite Nat.sub_diag. reflexivity. }
  unfold variant_value. rewrite Hclass, Hvalid. cbn [inst_bind enable_if].
  rewrite Helem. cbn [inst_bind].
  eexists. split; [reflexivity|].
  intros this val w. rewrite Hidx. run.
  destruct (construct_from First U val) as [o | e |]; run; lookup_heap;
    (split; [reflexivity|]);
    (split; [intros c Hc; lookup_heap; reflexivity|]);
    repeat split.
Qed.

(** X12: constructing a variant from a value of a type [U] that is not
    in the pack selects the first declared alternative [U] converts to,
    whatever is declared after it: the one call made is that
    alternative's constructor on the value, and the variant gets that
    alternative's tag and the object built.  When [U] converts to no
    alternative the constructor does not exist. *)
Theorem construct_by_first_convertible (U : ty) :
  (forall (pre : list ty) (First : ty) (post : list ty),
      fits (pre ++ First :: post) ->
      has_type U (pre ++ First :: post) = false ->
      (forall P, In P pre -> is_convertible U P = false) ->
      is_convertible U First = true ->
      exists ctor,
        variant_value U (pre ++ First :: post) = Some ctor /\
        forall (this : addr) (val : obj) (w : world obj),
          let r := ctor this val w in
          trace (snd r)
          = trace w ++ [converting_constructor_call First U val] /\
          (forall c, c <> this -> heap (snd r) c = heap w c) /\
          match construct_from First U val with
          | Ret o =>
              fst r = Ret tt /\
              heap (snd r) this = mk_variant (Z.of_nat (List.length post)) o
          | _ => fst r = Terminate
          end) /\
  (forall Types : list ty,
      (forall P, In P Types -> is_convertible U P = false) ->
      variant_value (obj := obj) U Types = None).
Proof.
  split.
  - intros pre First post Hfit Hno Hpre Hconv.
    exact (variant_value_by_convertible U pre First post Hfit Hno Hpre Hconv).
  - intros Types Hnone. unfold variant_value.
    destruct (variant_class Types); [|reflexivity]. cbn [inst_bind].
    destruct (is_valid_type U Types) eqn:E; [|reflexivity].
    apply is_valid_type_iff in E. destruct E as [P [HP Hc]].
    rewrite (Hnone P HP) in Hc. discriminate.
Qed.

(** ** Assignment, step by step *)

(** Move assignment between two distinct variants holding declared
    alternatives, when the move constructor returns. *)
Lemma move_assign_returns (Types : list ty) (T U : ty) (this rhs : addr)
    (o : obj) (w : world obj) :
  fits Types ->
  direct_type U Types <> invalid_value ->
  direct_type T Types <> invalid_value ->
  type_index (heap w this) = direct_type U Types ->
  type_index (heap w rhs) = direct_type T Types ->
  this <> rhs ->
  fst (move_construct T (data (heap w rhs))) = Ret o ->
  exists w',
    move_assign Types this rhs w = (Ret tt, w') /\
    heap w' this = mk_variant (direct_type T Types) o /\
    heap w' rhs
    = mk_variant (direct_type T Types)
                 (snd (move_construct T (data (heap w rhs)))) /\
    (forall c, c <> this -> c <> rhs -> heap w' c = heap w c) /\
    trace w' = trace w ++ [destructor_call U (data (heap w this));
                           move_call T (data (heap w rhs))].
Proof.
  intros Hfit HU HT Hta Htb Hne Ho.
  unfold move_assign. run. rewrite Hta.
  rewrite (variant_helper_destroy_declared Types U this w Hfit HU).
  run. lookup_heap. rewrite Htb.
  rewrite (variant_helper_move_declared Types T rhs this _ Hfit HT).
  run. lookup_heap. rewrite Ho. run. lookup_heap. rewrite Htb.
  eexists. split; [reflexivity|]. lookup_heap.
  split; [reflexivity|]. split; [reflexivity|].
  split; [intros c Hc Hc'; lookup_heap; reflexivity|].
  rewrite <- app_assoc. reflexivity.
Qed.

Lemma copy_assign_returns (Types : list ty) (T U : ty) (this rhs : addr)
    (o : obj) (w : world obj) :
  fits Types ->
  direct_type U Types <> invalid_value ->
  direct_type T Types <> invalid_value ->
  type_index (heap w this) = direct_type U Types ->
  type_index (heap w rhs) = direct_type T Types ->
  this <> rhs ->
  copy_construct T (data (heap w rhs)) = Ret o ->
  exists w',
    copy_assign Types this rhs w = (Ret tt, w') /\
    heap w' this = mk_variant (direct_type T Types) o /\
    (forall c, c <> this -> heap w' c = heap w c) /\
    trace w' = trace w ++ [destructor_call U (data (heap w this));
                           copy_call T (data (heap w rhs))].
Proof.
  intros Hfit HU HT Hta Htb Hne Ho.
  unfold copy_assign. run. rewrite Hta.
  rewrite (variant_helper_destroy_declared Types U this w Hfit HU).
  run. lookup_heap. rewrite Htb.
  rewrite (variant_helper_copy_declared Types T rhs this _ Hfit HT).
  run. lookup_heap. rewrite Ho. run. lookup_heap. rewrite Htb.
  eexists. split; [reflexivity|]. lookup_heap.
  split; [reflexivity|].
  split; [intros c Hc; lookup_heap; reflexivity|].
  rewrite <- app_assoc. reflexivity.
Qed.

Lemma variant_destructor_declared (Types : list ty) (T : ty) (this : addr)
    (w : world obj) :
  fits Types ->
  direct_type T Types <> invalid_value ->
  type_index (heap w this) = direct_type T Types ->
  variant_destructor Types this w
  = (Ret tt,
     mk_world (heap w) (trace w ++ [destructor_call T (data (heap w this))])).
Proof.
  intros Hfit HT Htag. unfold variant_destructor. run. rewrite Htag.
  rewrite (variant_helper_destroy_declared Types T this w Hfit HT).
  reflexivity.
Qed.

(** X13: [v = value] for an rvalue of the declared alternative [T], on a
    variant holding the declared alternative [U]: a local variant is
    built from the value and moved from.  The old object is destroyed
    and a new one move-constructed even when [U] is [T]; the local is
    destroyed on the way out, so four calls are made: the constructor of
    [T] on the value (for the local), the destructor of [U], the move
    constructor of [T] on the local's object, the destructor of [T] on
    what the move left. *)
Theorem assign_value_rebuilds (Types : list ty) (T U : ty)
    (assign : addr -> addr -> obj -> M obj unit)
    (is_U : addr -> M obj bool)
    (this temp : addr) (rhs o1 o2 : obj) (w : world obj) :
  fits Types ->
  has_type T Types = true ->
  operator_assign_value_move T Types = Some assign ->
  variant_is U Types = Some is_U ->
  is_U this w = (Ret true, w) ->
  this <> temp ->
  construct_from T T rhs = Ret o1 ->
  fst (move_construct T o1) = Ret o2 ->
  let r := assign this temp rhs w in
  fst r = Ret tt /\
  heap (snd r) this = mk_variant (direct_type T Types) o2 /\
  (forall c, c <> this -> c <> temp -> heap (snd r) c = heap w c) /\
  trace (snd r)
  = trace w ++ [converting_constructor_call T T rhs;
                destructor_call U (data (heap w this));
                move_call T o1;
                destructor_call T (snd (move_construct T o1))].
Proof.
  intros Hfit Hhas Hassign His Hthis Hne Ho1 Ho2 r.
  pose proof (proj1 (has_type_direct_type T Types Hfit) Hhas) as HT.
  pose proof (is_true_tag U Types is_U this w His Hthis) as Hta.
  pose proof (is_declared U Types is_U Hfit His) as HU.
  unfold operator_assign_value_move in Hassign. inst_inv Hassign.
  injection Hassign as <-.
  destruct (variant_value_declared T Types a temp rhs o1 w Hfit HT E Ho1)
    as [w1 [Hctor [Htemp [Hframe1 Htrace1]]]].
  assert (Hta1 : type_index (heap w1 this) = direct_type U Types).
  { rewrite (Hframe1 this Hne). exact Hta. }
  assert (Htb1 : type_index (heap w1 temp) = direct_type T Types).
  { rewrite Htemp. reflexivity. }
  assert (Ho2' : fst (move_construct T (data (heap w1 temp))) = Ret o2).
  { rewrite Htemp. exact Ho2. }
  destruct (move_assign_returns Types T U this temp o2 w1
              Hfit HU HT Hta1 Htb1 Hne Ho2')
    as [w2 [Hmove [Hthis2 [Htemp2 [Hframe2 Htrace2]]]]].
  assert (Htb2 : type_index (heap w2 temp) = direct_type T Types).
  { rewrite Htemp2. reflexivity. }
  pose proof (variant_destructor_declared Types T temp w2 Hfit HT Htb2)
    as Hdtor.
  assert (Hr : r = (Ret tt,
                    mk_world (heap w2)
                      (trace w2
                       ++ [destructor_call T (data (heap w2 temp))]))).
  { unfold r, noexcept, bind, scope_exit.
    rewrite Hctor, Hmove, Hdtor. reflexivity. }
  rewrite Hr. cbn [fst snd heap trace].
  split; [reflexivity|]. split; [exact Hthis2|]. split.
  - intros c Hc Hc'. rewrite (Hframe2 c Hc Hc'). apply Hframe1. exact Hc'.
  - rewrite Htrace2, Htemp2, Htrace1, (Hframe1 this Hne), Htemp.
    cbn [data]. rewrite <- !app_assoc. reflexivity.
Qed.

(** X14: [v = value] for a const lvalue of type [T]: the local variant
    is built at the type [T const], so when [T const] is not itself in
    the pack the alternative assigned is the first one [T const]
    converts to.  The variant ends holding that alternative [First],
    built in the local by its constructor on the value and
    copy-constructed from the local, which is then destroyed. *)
Theorem assign_const_value_by_first_convertible (T U First : ty)
    (pre post : list ty)
    (assign : addr -> addr -> obj -> M obj unit)
    (is_U : addr -> M obj bool)
    (this temp : addr) (rhs o1 o2 : obj) (w : world obj) :
  let Types := pre ++ First :: post in
  fits Types ->
  has_type (const T) Types = false ->
  (forall P, In P pre -> is_convertible (const T) P = false) ->
  is_convertible (const T) First = true ->
  ~ In First pre ->
  operator_assign_value_copy T Types = Some assign ->
  variant_is U Types = Some is_U ->
  is_U this w = (Ret true, w) ->
  this <> temp ->
  construct_from First (const T) rhs = Ret o1 ->
  copy_construct First o1 = Ret o2 ->
  let r := assign this temp rhs w in
  fst r = Ret tt /\
  heap (snd r) this = mk_variant (direct_type First Types) o2 /\
  direct_type First Types = Z.of_nat (List.length post) /\
  (forall c, c <> this -> c <> temp -> heap (snd r) c = heap w c) /\
  trace (snd r)
  = trace w ++ [converting_constructor_call First (const T) rhs;
                destructor_call U (data (heap w this));
                copy_call First o1;
                destructor_call First o1].
Proof.
  intros Types Hfit Hno Hpre Hconv Hfirst Hassign His Hthis Hne Ho1 Ho2 r.
  pose proof (is_true_tag U Types is_U this w His Hthis) as Hta.
  pose proof (is_declared U Types is_U Hfit His) as HU.
  pose proof (direct_type_first_occurrence First pre post Hfit Hfirst) as Hidx.
  fold Types in Hidx.
  assert (HF : direct_type First Types <> invalid_value).
  { rewrite Hidx, invalid_value_eq. unfold fits, Types in Hfit.
    rewrite length_app in Hfit. cbn [List.length] in Hfit. lia. }
  unfold operator_assign_value_copy in Hassign. inst_inv Hassign.
  injection Hassign as <-.
  destruct (variant_value_by_convertible (const T) pre First post
              Hfit Hno Hpre Hconv) as [ctor [Hctor Hrun]].
  fold Types in Hctor. rewrite Hctor in E. injection E as <-.
  destruct (Hrun temp rhs w) as [Htrace1 [Hframe1 Hbuilt]].
  rewrite Ho1 in Hbuilt. destruct Hbuilt as [Hret1 Htemp].
  destruct (ctor temp rhs w) as [r1 w1] eqn:Ector.
  cbn [fst snd] in Htrace1, Hframe1, Hret1, Htemp. subst r1.
  assert (Hta1 : type_index (heap w1 this) = direct_type U Types).
  { rewrite (Hframe1 this Hne). exact Hta. }
  assert (Htb1 : type_index (heap w1 temp) = direct_type First Types).
  { rewrite Htemp, Hidx. reflexivity. }
  assert (Ho2' : copy_construct First (data (heap w1 temp)) = Ret o2).
  { rewrite Htemp. exact Ho2. }
  destruct (copy_assign_returns Types First U this temp o2 w1
              Hfit HU HF Hta1 Htb1 Hne Ho2')
    as [w2 [Hcopy [Hthis2 [Hframe2 Htrace2]]]].
  assert (Htb2 : type_index (heap w2 temp) = direct_type First Types).
  { rewrite (Hframe2 temp ltac:(congruence)). exact Htb1. }
  pose proof (variant_destructor_declared Types First temp w2 Hfit HF Htb2)
    as Hdtor.
  assert (Hr : r = (Ret tt,
                    mk_world (heap w2)
                      (trace w2
                       ++ [destructor_call First (data (heap w2 temp))]))).
  { unfold r, bind, scope_exit.
    rewrite Ector, Hcopy, Hdtor. reflexivity. }
  rewrite Hr. cbn [fst snd heap trace].
  split; [reflexivity|]. split; [exact Hthis2|]. split; [exact Hidx|]. split.
  - intros c Hc Hc'. rewrite (Hframe2 c Hc). apply Hframe1. exact Hc'.
  - rewrite Htrace2, (Hframe2 temp ltac:(congruence)), Htemp, Htrace1.
    rewrite (Hframe1 this Hne). cbn [data].
    rewrite <- !app_assoc. reflexivity.
Qed.

(** ** Assignment with an empty variant on either side *)

(** X15: assigning from an empty variant, by copy or by move, empties the
    target: the destructor of the alternative it held is called, no
    constructor is, nothing is thrown, and [valid()] is false
    afterwards. *)
Theorem assign_from_empty_empties (Types : list ty) (U : ty)
    (is_U : addr -> M obj bool) (this rhs : addr) (w : world obj) :
  fits Types ->
  variant_is U Types = Some is_U ->
  is_U this w = (Ret true, w) ->
  valid Types rhs w = (Ret false, w) ->
  let old := data (heap w this) in
  (let r := copy_assign Types this rhs w in
   fst r = Ret tt /\
   heap (snd r) this = mk_variant invalid_value old /\
   (forall c, c <> this -> heap (snd r) c = heap w c) /\
   trace (snd r) = trace w ++ [destructor_call U old] /\
   valid Types this (snd r) = (Ret false, snd r)) /\
  (let r := move_assign Types this rhs w in
   fst r = Ret tt /\
   heap (snd r) this = mk_variant invalid_value old /\
   (forall c, c <> this -> heap (snd r) c = heap w c) /\
   trace (snd r) = trace w ++ [destructor_call U old] /\
   valid Types this (snd r) = (Ret false, snd r)).
Proof.
  intros Hfit His Hthis Hrhs old.
  pose proof (is_true_tag U Types is_U this w His Hthis) as Hta.
  pose proof (is_declared U Types is_U Hfit His) as HU.
  pose proof (valid_false_tag Types rhs w Hrhs) as Htb.
  assert (Hne : this <> rhs) by (intros ->; congruence).
  split.
  - unfold copy_assign. run. rewrite Hta.
    rewrite (variant_helper_destroy_declared Types U this w Hfit HU).
    run. lookup_heap. rewrite Htb.
    rewrite (variant_helper_copy_invalid Types rhs this _ Hfit).
    lookup_heap. rewrite Htb. fold old. rewrite Z.eqb_refl.
    repeat split. intros c Hc. lookup_heap. reflexivity.
  - unfold move_assign. run. rewrite Hta.
    rewrite (variant_helper_destroy_declared Types U this w Hfit HU).
    run. lookup_heap. rewrite Htb.
    rewrite (variant_helper_move_invalid Types rhs this _ Hfit).
    lookup_heap. rewrite Htb. fold old. rewrite Z.eqb_refl.
    repeat split. intros c Hc. lookup_heap. reflexivity.
Qed.

(** Copy construction from a variant holding a declared alternative. *)
Lemma variant_copy_declared (Types : list ty) (T : ty) (this old : addr)
    (w : world obj) :
  fits Types ->
  direct_type T Types <> invalid_value ->
  type_index (heap w old) = direct_type T Types ->
  this <> old ->
  let src := data (heap w old) in
  let r := variant_copy Types this old w in
  trace (snd r) = trace w ++ [copy_call T src] /\
  (forall c, c <> this -> heap (snd r) c = heap w c) /\
  match copy_construct T src with
  | Ret o =>
      fst r = Ret tt /\
      heap (snd r) this = mk_variant (direct_type T Types) o
  | Throw e => fst r = Throw e
  | Terminate => fst r = Terminate
  end.
Proof.
  intros Hfit HT Htag Hne src r.
  unfold r, variant_copy. run. lookup_heap. rewrite Htag.
  rewrite (variant_helper_copy_declared Types T old this _ Hfit HT).
  run. lookup_heap. fold src.
  destruct (copy_construct T src) as [o | e |]; run; lookup_heap;
    (split; [reflexivity|]);
    (split; [intros c Hc; lookup_heap; reflexivity|]);
    repeat split.
Qed.

(** [move_assign] into an empty variant. *)
Lemma move_assign_into_empty (Types : list ty) (T : ty) (this rhs : addr)
    (w : world obj) :
  fits Types ->
  direct_type T Types <> invalid_value ->
  type_index (heap w this) = invalid_value ->
  type_index (heap w rhs) = direct_type T Types ->
  let src := data (heap w rhs) in
  let r := move_assign Types this rhs w in
  trace (snd r) = trace w ++ [move_call T src] /\
  heap (snd r) rhs
  = mk_variant (direct_type T Types) (snd (move_construct T src)) /\
  (forall c, c <> this -> c <> rhs -> heap (snd r) c = heap w c) /\
  match fst (move_construct T src) with
  | Ret o =>
      fst r = Ret tt /\
      heap (snd r) this = mk_variant (direct_type T Types) o
  | Throw e =>
      fst r = Throw e /\ type_index (heap (snd r) this) = invalid_value
  | Terminate => fst r = Terminate
  end.
Proof.
  intros Hfit HT Hta Htb src r.
  assert (Hne : this <> rhs) by (intros ->; congruence).
  unfold r, move_assign. run. rewrite Hta.
  rewrite (variant_helper_destroy_invalid Types this w Hfit).
  run. lookup_heap. rewrite Htb.
  rewrite (variant_helper_move_declared Types T rhs this _ Hfit HT).
  run. lookup_heap. fold src.
  destruct (fst (move_construct T src)) as [o | e |]; run; lookup_heap;
    rewrite ?Htb;
    (split; [reflexivity|]);
    (split; [reflexivity|]);
    (split; [intros c Hc Hc'; lookup_heap; reflexivity|]);
    repeat split.
Qed.

(** An exception in the body of [operator=(T&&) noexcept], after the
    local was built, ends in [std::terminate]. *)
Lemma scope_exit_noexcept_terminates (body destructor : M obj unit)
    (w : world obj) :
  fst (body w) <> Ret tt ->
  fst (noexcept (scope_exit body destructor) w) = Terminate.
Proof.
  intros Hbody. unfold noexcept, scope_exit.
  destruct (body w) as [[[] | e |] w1]; cbn [fst] in Hbody;
    [congruence | | reflexivity].
  destruct (destructor w1) as [[u | e' |] w2]; reflexivity.
Qed.

(** X16: assigning to an empty variant destroys nothing of the target.
    From a variant that is a const lvalue or an rvalue, the only call is
    the copy or the move constructor of the alternative of the source;
    when it throws, the exception leaves the assignment and the target
    stays empty.  From a non-const lvalue, [operator=(T&&) noexcept] is
    selected: the source is copied into a local, the local is moved
    into the target and then destroyed, three calls in this order; a
    copy constructor that throws ends in [std::terminate], with the
    target still empty. *)
Theorem assign_into_empty_constructs_only (Types : list ty) (T : ty)
    (is_T : addr -> M obj bool) (this temp rhs : addr) (w : world obj) :
  fits Types ->
  variant_is T Types = Some is_T ->
  is_T rhs w = (Ret true, w) ->
  valid Types this w = (Ret false, w) ->
  let src := data (heap w rhs) in
  (let r := operator_assign Types const_lvalue this temp rhs w in
   trace (snd r) = trace w ++ [copy_call T src] /\
   match copy_construct T src with
   | Ret o =>
       fst r = Ret tt /\
       heap (snd r) this = mk_variant (direct_type T Types) o
   | Throw e =>
       fst r = Throw e /\ valid Types this (snd r) = (Ret false, snd r)
   | Terminate => fst r = Terminate
   end) /\
  (let r := operator_assign Types rvalue this temp rhs w in
   trace (snd r) = trace w ++ [move_call T src] /\
   match fst (move_construct T src) with
   | Ret o =>
       fst r = Ret tt /\
       heap (snd r) this = mk_variant (direct_type T Types) o
   | Throw e =>
       fst r = Throw e /\ valid Types this (snd r) = (Ret false, snd r)
   | Terminate => fst r = Terminate
   end) /\
  (temp <> this ->
   temp <> rhs ->
   let r := operator_assign Types lvalue this temp rhs w in
   match copy_construct T src with
   | Ret o1 =>
       match fst (move_construct T o1) with
       | Ret o2 =>
           fst r = Ret tt /\
           heap (snd r) this = mk_variant (direct_type T Types) o2 /\
           trace (snd r)
           = trace w ++ [copy_call T src;
                         move_call T o1;
                         destructor_call T (snd (move_construct T o1))]
       | _ => fst r = Terminate
       end
   | _ =>
       fst r = Terminate /\
       trace (snd r) = trace w ++ [copy_call T src] /\
       valid Types this (snd r) = (Ret false, snd r)
   end).
Proof.
  intros Hfit His Hrhs Hthis src.
  pose proof (is_true_tag T Types is_T rhs w His Hrhs) as Htb.
  pose proof (is_declared T Types is_T Hfit His) as HT.
  pose proof (valid_false_tag Types this w Hthis) as Hta.
  assert (Hne : this <> rhs) by (intros ->; congruence).
  split; [|split].
  - unfold operator_assign, operator_assign_copy, copy_assign.
    run. rewrite Hta.
    rewrite (variant_helper_destroy_invalid Types this w Hfit).
    run. lookup_heap. rewrite Htb.
    rewrite (variant_helper_copy_declared Types T rhs this _ Hfit HT).
    run. lookup_heap. fold src.
    destruct (copy_construct T src) as [o | e |]; run; lookup_heap;
      rewrite ?Htb, ?Z.eqb_refl; repeat split.
  - unfold operator_assign, operator_assign_move, move_assign.
    run. rewrite Hta.
    rewrite (variant_helper_destroy_invalid Types this w Hfit).
    run. lookup_heap. rewrite Htb.
    rewrite (variant_helper_move_declared Types T rhs this _ Hfit HT).
    run. lookup_heap. fold src.
    destruct (fst (move_construct T src)) as [o | e |]; run; lookup_heap;
      rewrite ?Htb, ?Z.eqb_refl; repeat split.
  - intros Htt Htr r.
    destruct (variant_copy_declared Types T temp rhs w Hfit HT Htb Htr)
      as [Htrace1 [Hframe1 Hbuilt]].
    fold src in Htrace1, Hbuilt.
    unfold r, operator_assign, operator_assign_template.
    destruct (variant_copy Types temp rhs w) as [r1 w1] eqn:Ecopy.
    cbn [fst snd] in Htrace1, Hframe1, Hbuilt.
    assert (Hempty : type_index (heap w1 this) = invalid_value).
    { rewrite (Hframe1 this ltac:(congruence)). exact Hta. }
    destruct (copy_construct T src) as [o1 | e |].
    + destruct Hbuilt as [-> Htemp].
      assert (Htb1 : type_index (heap w1 temp) = direct_type T Types).
      { rewrite Htemp. reflexivity. }
      destruct (move_assign_into_empty Types T this temp w1
                  Hfit HT Hempty Htb1) as [Htrace2 [Htemp2 [_ Hmoved]]].
      rewrite Htemp in Htrace2, Htemp2, Hmoved. cbn [data] in *.
      destruct (fst (move_construct T o1)) as [o2 | e |].
      * destruct Hmoved as [Hret2 Hthis2].
        destruct (move_assign Types this temp w1) as [r2 w2] eqn:Emove.
        cbn [fst snd] in Htrace2, Htemp2, Hret2, Hthis2. subst r2.
        assert (Htb2 : type_index (heap w2 temp) = direct_type T Types).
        { rewrite Htemp2. reflexivity. }
        pose proof (variant_destructor_declared Types T temp w2 Hfit HT Htb2)
          as Hdtor.
        unfold noexcept, bind, scope_exit.
        rewrite Ecopy, Emove, Hdtor. cbn [fst snd heap trace].
        split; [reflexivity|]. split; [exact Hthis2|].
        rewrite Htrace2, Htrace1, Htemp2. cbn [data].
        rewrite <- !app_assoc. reflexivity.
      * destruct Hmoved as [Hret2 _].
        unfold noexcept at 1, bind. rewrite Ecopy.
        apply (scope_exit_noexcept_terminates
                 (move_assign Types this temp)
                 (variant_destructor Types temp) w1).
        rewrite Hret2. discriminate.
      * unfold noexcept at 1, bind. rewrite Ecopy.
        apply (scope_exit_noexcept_terminates
                 (move_assign Types this temp)
                 (variant_destructor Types temp) w1).
        rewrite Hmoved. discriminate.
    + subst r1. unfold noexcept, bind. rewrite Ecopy. cbn [fst snd].
      split; [reflexivity|]. split; [exact Htrace1|].
      unfold valid, load_type_index, bind, ret.
      rewrite Hempty, Z.eqb_refl. reflexivity.
    + subst r1. unfold noexcept, bind. rewrite Ecopy. cbn [fst snd].
      split; [reflexivity|]. split; [exact Htrace1|].
      unfold valid, load_type_index, bind, ret.
      rewrite Hempty, Z.eqb_refl. reflexivity.
Qed.

(** ** Assigning a variant to itself *)

(** X19: what [v = v] does depends on the member the expression
    selects.  Through a const reference to [v]
    ([operator=(variant const&)]) and after [std::move]
    ([operator=(variant&&)]) the variant is left empty: its alternative
    is destroyed, the tag set to invalid, and the source, being the same
    object, has nothing left to copy or move.  The plain [v = v] on a
    non-const variant selects [operator=(T&&)]: [v] is copied into a
    local, destroyed, and moved back from the local, which is then
    destroyed; [v] ends holding its alternative again. *)
Theorem self_assignment (Types : list ty) (U : ty)
    (is_U : addr -> M obj bool) (this temp : addr) (w : world obj) :
  fits Types ->
  variant_is U Types = Some is_U ->
  is_U this w = (Ret true, w) ->
  let old := data (heap w this) in
  (let r := operator_assign Types const_lvalue this temp this w in
   fst r = Ret tt /\
   heap (snd r) this = mk_variant invalid_value old /\
   trace (snd r) = trace w ++ [destructor_call U old]) /\
  (let r := operator_assign Types rvalue this temp this w in
   fst r = Ret tt /\
   heap (snd r) this = mk_variant invalid_value old /\
   trace (snd r) = trace w ++ [destructor_call U old]) /\
  (forall o1 o2 : obj,
      temp <> this ->
      copy_construct U old = Ret o1 ->
      fst (move_construct U o1) = Ret o2 ->
      let r := operator_assign Types lvalue this temp this w in
      fst r = Ret tt /\
      heap (snd r) this = mk_variant (direct_type U Types) o2 /\
      is_U this (snd r) = (Ret true, snd r) /\
      trace (snd r)
      = trace w ++ [copy_call U old;
                    destructor_call U old;
                    move_call U o1;
                    destructor_call U (snd (move_construct U o1))]).
Proof.
  intros Hfit His Hthis old.
  pose proof (is_true_tag U Types is_U this w His Hthis) as Hta.
  pose proof (is_declared U Types is_U Hfit His) as HU.
  split; [|split].
  - exact (copy_assign_self Types U is_U this w Hfit His Hthis).
  - unfold operator_assign, operator_assign_move, move_assign.
    run. rewrite Hta.
    rewrite (variant_helper_destroy_declared Types U this w Hfit HU).
    run. lookup_heap.
    rewrite (variant_helper_move_invalid Types this this _ Hfit).
    lookup_heap. repeat split.
  - intros o1 o2 Hne Ho1 Ho2 r.
    destruct (variant_copy_declared Types U temp this w Hfit HU Hta Hne)
      as [Htrace1 [Hframe1 Hbuilt]].
    fold old in Htrace1, Hbuilt. rewrite Ho1 in Hbuilt.
    destruct Hbuilt as [Hret1 Htemp].
    destruct (variant_copy Types temp this w) as [r1 w1] eqn:Ecopy.
    cbn [fst snd] in Htrace1, Hframe1, Hret1, Htemp. subst r1.
    assert (Hne' : this <> temp) by congruence.
    assert (Hta1 : type_index (heap w1 this) = direct_type U Types).
    { rewrite (Hframe1 this Hne'). exact Hta. }
    assert (Htb1 : type_index (heap w1 temp) = direct_type U Types).
    { rewrite Htemp. reflexivity. }
    assert (Ho2' : fst (move_construct U (data (heap w1 temp))) = Ret o2).
    { rewrite Htemp. exact Ho2. }
    destruct (move_assign_returns Types U U this temp o2 w1
                Hfit HU HU Hta1 Htb1 Hne' Ho2')
      as [w2 [Hmove [Hthis2 [Htemp2 [_ Htrace2]]]]].
    assert (Htb2 : type_index (heap w2 temp) = direct_type U Types).
    { rewrite Htemp2. reflexivity. }
    pose proof (variant_destructor_declared Types U temp w2 Hfit HU Htb2)
      as Hdtor.
    assert (Hr : r = (Ret tt,
                      mk_world (heap w2)
                        (trace w2
                         ++ [destructor_call U (data (heap w2 temp))]))).
    { unfold r, operator_assign, operator_assign_template.
      unfold noexcept, bind, scope_exit.
      rewrite Ecopy, Hmove, Hdtor. reflexivity. }
    rewrite Hr. cbn [fst snd heap trace].
    split; [reflexivity|]. split; [exact Hthis2|]. split.
    + destruct (variant_is_inv U Types is_U His) as [_ ->].
      unfold bind, load_type_index, ret. cbn [heap].
      rewrite Hthis2. cbn [type_index]. rewrite Z.eqb_refl. reflexivity.
    + rewrite Htrace2, Htemp2, Htrace1, (Hframe1 this Hne'), Htemp.
      cbn [data]. fold old. rewrite <- !app_assoc. reflexivity.
Qed.

(** ** get<T>() through a wrapper *)

Lemma has_type_true_declared (T : ty) (Types : list ty) :
  fits Types ->
  has_type T Types = true ->
  direct_type T Types <> invalid_value.
Proof. intros Hfit H. apply has_type_direct_type; assumption. Qed.

(** X17: when the pack holds [recursive_wrapper<T>] and neither [T] nor
    [std::reference_wrapper<T const>], [get<T>()] on a const variant
    reads the alternative [recursive_wrapper<T>] and returns what the
    wrapper's [get()] gives, or throws when another alternative is
    active.  When the pack holds [recursive_wrapper<T>] together with
    [T], [get<T>()] does not compile, and together with
    [std::reference_wrapper<T const>] it does not compile on a const
    variant: two overloads are enabled and neither is better. *)
Theorem get_through_recursive_wrapper (Types : list ty) (T : ty) :
  fits Types ->
  has_type (recursive_wrapper T) Types = true ->
  (has_type T Types = false ->
   has_type (reference_wrapper (add_const T)) Types = false ->
   exists get_T,
     get true T Types = Some get_T /\
     forall (this : addr) (w : world obj),
       (type_index (heap w this)
        = direct_type (recursive_wrapper T) Types ->
        get_T this w
        = (Ret (recursive_wrapper_get (data (heap w this))), w)) /\
       (type_index (heap w this)
        <> direct_type (recursive_wrapper T) Types ->
        get_T this w = (Throw (bad_variant_access "in get<T>()"), w))) /\
  (has_type T Types = true ->
   get (obj := obj) true T Types = None /\
   get (obj := obj) false T Types = None) /\
  (has_type (reference_wrapper (add_const T)) Types = true ->
   get (obj := obj) true T Types = None).
Proof.
  intros Hfit Hrec.
  pose proof (has_type_true_declared _ _ Hfit Hrec) as HR.
  assert (Hclass : variant_class Types = Some tt).
  { destruct Types; [discriminate|].
    unfold variant_class, static_assert. rewrite (sizeof_pack_fits _ Hfit).
    cbn [List.length].
    destruct (Z.ltb_spec 0 (Z.of_nat (S (List.length Types))));
      [reflexivity | lia]. }
  assert (Hen : forall c, get_enabled c T Types get_recursive_wrapper = true).
  { intros c. unfold get_enabled. cbn [get_stored_type].
    destruct (Z.eqb_spec (direct_type (recursive_wrapper T) Types)
                         invalid_value); [contradiction | reflexivity]. }
  split; [|split].
  - intros Hno Hrefc.
    assert (Hres : get_resolve true T Types
                   = Some (true, get_recursive_wrapper)).
    { unfold get_resolve, get_candidates. cbn [filter].
      rewrite (get_enabled_false true T Types get_direct Hno).
      rewrite (Hen true).
      rewrite (get_enabled_false true T Types get_reference_wrapper Hrefc).
      reflexivity. }
    unfold get. rewrite Hclass, Hres. cbn [inst_bind fst snd].
    eexists. split; [reflexivity|].
    intros this w. split; intros Htag.
    + rewrite (get_body_match true get_recursive_wrapper T Types this w Htag).
      reflexivity.
    + apply get_body_mismatch. exact Htag.
  - intros Hhas.
    pose proof (has_type_true_declared _ _ Hfit Hhas) as HT.
    assert (Hd : forall c, get_enabled c T Types get_direct = true).
    { intros c. unfold get_enabled. cbn [get_stored_type].
      destruct (Z.eqb_spec (direct_type T Types) invalid_value);
        [contradiction | reflexivity]. }
    split; unfold get; rewrite Hclass; cbn [inst_bind];
      unfold get_resolve, get_candidates; cbn [filter].
    + rewrite (Hd true), (Hen true).
      destruct (get_enabled true T Types get_reference_wrapper); reflexivity.
    + rewrite (Hd false), (Hen false).
      destruct (get_enabled false T Types get_reference_wrapper); reflexivity.
  - intros Hhas.
    pose proof (has_type_true_declared _ _ Hfit Hhas) as HT.
    assert (Hr : get_enabled true T Types get_reference_wrapper = true).
    { unfold get_enabled. cbn [get_stored_type].
      destruct (Z.eqb_spec (direct_type (reference_wrapper (add_const T))
                                        Types) invalid_value);
        [contradiction | reflexivity]. }
    unfold get. rewrite Hclass. cbn [inst_bind].
    unfold get_resolve, get_candidates. cbn [filter].
    rewrite (Hen true), Hr.
    destruct (get_enabled true T Types get_direct); reflexivity.
Qed.

(** ** Comparing values of a const-qualified alternative *)

(** X18: when the pack holds both [T const] and [T], comparing two
    variants that both hold the alternative [T const] throws
    [bad_variant_access]: the comparer is called with a [T] and asks the
    left operand for a [T], which is the other alternative. *)
Theorem compare_const_alternative_throws (Types : list ty) (T : ty)
    (op_eq op_lt : addr -> addr -> M obj bool)
    (is_cT : addr -> M obj bool) (a b : addr) (w : world obj) :
  fits Types ->
  has_type T Types = true ->
  operator_eq Types = Some op_eq ->
  operator_lt Types = Some op_lt ->
  variant_is (const T) Types = Some is_cT ->
  is_cT a w = (Ret true, w) ->
  is_cT b w = (Ret true, w) ->
  op_eq a b w = (Throw (bad_variant_access "in get<T>()"), w) /\
  op_lt a b w = (Throw (bad_variant_access "in get<T>()"), w).
Proof.
  intros Hfit Hhas Heq Hlt His Ha Hb.
  pose proof (has_type_true_declared _ _ Hfit Hhas) as HT.
  pose proof (is_declared (const T) Types is_cT Hfit His) as HcT.
  pose proof (is_true_tag (const T) Types is_cT a w His Ha) as Hta.
  pose proof (is_true_tag (const T) Types is_cT b w His Hb) as Htb.
  assert (Hmis : type_index (heap w a) <> direct_type T Types).
  { rewrite Hta. intros E.
    pose proof (direct_type_inj (const T) T Types Hfit HcT E) as Habs.
    clear - Habs. induction T; inversion Habs; auto. }
  assert (Hboth : forall Comp visit_,
             visit (comparer Types Comp) Types = Some visit_ ->
             visit_ b a w = (Throw (bad_variant_access "in get<T>()"), w)).
  { intros Comp visit_ Hvisit. unfold visit in Hvisit. inst_inv Hvisit.
    destruct (direct_type_split (const T) Types HcT)
      as [pre [post [HTypes Hidx]]].
    assert (Hd : dispatcher (comparer Types Comp) Types
                   (pre ++ const T :: post) = Some visit_)
      by (rewrite <- HTypes; exact Hvisit).
    assert (Hfit' : fits (pre ++ const T :: post))
      by (rewrite <- HTypes; exact Hfit).
    assert (Htb' : type_index (heap w b) = sizeof_pack post) by congruence.
    destruct (dispatcher_scan _ _ _ _ _ _ b a w Hd Hfit' Htb')
      as [get_cT [call [Hg [Hc ->]]]].
    unfold bind.
    rewrite (get_declared_run (const T) Types get_cT b w Hg HcT Htb).
    cbn [visitor_argument unwrapper_type remove_const] in Hc.
    unfold comparer in Hc. inst_inv Hc. injection Hc as <-.
    unfold bind.
    rewrite (get_declared true T Types a1 E0 HT).
    rewrite (get_body_mismatch true get_direct T Types a w Hmis).
    reflexivity. }
  destruct (operator_eq_inv Types op_eq Heq) as [veq [Hveq Hreq]].
  destruct (operator_lt_inv Types op_lt Hlt) as [vlt [Hvlt Hrlt]].
  rewrite Hreq, Hrlt, Hta, Htb, Z.eqb_refl.
  split; [exact (Hboth _ _ Hveq) | exact (Hboth _ _ Hvlt)].
Qed.

End Further.

(** * Binary visitation, and the properties at concrete variants *)

Import Example.
Import Example2.

(** C6: binary visitation of two operands holding declared alternatives
    calls the visitor exactly once, on the payload of each operand
    taken at the payload type of its own alternative (through the
    wrapper when the alternative is wrapped), whether the two
    alternatives are the same or not.  Adding the variants made from 3
    and from 4 gives 7.  In [variant<int, recursive_wrapper<node>>],
    adding an [int] 3 and a wrapped [node] 4, with a visitor that has no
    overload for the wrapper and reads a wrapper object as 0, gives 7
    either way round, and two wrapped [node] 4 give 8. *)
Theorem binary_visit_unwraps_each_operand :
  (forall (obj : Type) (alt : Alternatives obj) (F R : Type)
          (F_ : binary_visitor F R) (Types : list ty) (T0 T1 : ty)
          (visit_ : addr -> addr -> F -> M obj R)
          (is_T0 is_T1 : addr -> M obj bool)
          (v0 v1 : addr) (f : F) (w : world obj),
      fits Types ->
      binary_visit F_ Types = Some visit_ ->
      variant_is T0 Types = Some is_T0 ->
      variant_is T1 Types = Some is_T1 ->
      is_T0 v0 w = (Ret true, w) ->
      is_T1 v1 w = (Ret true, w) ->
      exists call,
        F_ (payload_type T0) (payload_type T1) = Some call /\
        visit_ v0 v1 f w
        = call f (payload_of T0 (data (heap w v0)))
                 (payload_of T1 (data (heap w v1))) w) /\
  (exists ctor sum w1 w2,
      variant_value int_ [int_; long_] = Some ctor /\
      apply_visitor2 adder [int_; long_] = Some sum /\
      ctor 1%nat (int_value 3) blank = (Ret tt, w1) /\
      ctor 2%nat (int_value 4) w1 = (Ret tt, w2) /\
      sum tt 1%nat 2%nat w2 = (Ret 7, w2)) /\
  (let Types := [int_; recursive_wrapper node] in
   let w := place (mk_variant 1 (int_value 3))
                  (mk_variant 0 (boxed (int_value 4))) in
   node_adder int_ (recursive_wrapper node) = None /\
   to_Z (boxed (int_value 4)) = 0 /\
   exists sum,
     apply_visitor2 node_adder Types = Some sum /\
     sum tt 1%nat 2%nat w = (Ret 7, w) /\
     sum tt 2%nat 1%nat w = (Ret 7, w) /\
     sum tt 2%nat 2%nat w = (Ret 8, w)).
Proof.
  split; [|split].
  - intros obj alt F R F_ Types T0 T1 visit_ is_T0 is_T1 v0 v1 f w
      Hfit Hvisit His0 His1 H0 H1.
    unfold binary_visit in Hvisit. inst_inv Hvisit.
    rewrite <- !visitor_argument_payload, <- !unwrapper_apply_const_payload.
    apply (binary_dispatcher_declared F_ Types T0 T1 visit_ v0 v1 f w
             Hvisit Hfit
             (is_declared T0 Types is_T0 Hfit His0)
             (is_declared T1 Types is_T1 Hfit His1)
             (is_true_tag T0 Types is_T0 v0 w His0 H0)
             (is_true_tag T1 Types is_T1 v1 w His1 H1)).
  - do 4 eexists.
    split; [reflexivity|]. split; [reflexivity|].
    split; [reflexivity|]. split; reflexivity.
  - intros Types w. split; [reflexivity|]. split; [reflexivity|].
    eexists. split; [reflexivity|].
    split; [reflexivity|]. split; reflexivity.
Qed.

(** The general part at an [int] and a wrapped [node]: the visitor is
    called at the types [int] and [node], with 3 and with the 4 taken
    out of the wrapper. *)
Lemma binary_visit_unwraps_each_operand_witness :
  let Types := [int_; recursive_wrapper node] in
  let w := place (mk_variant 1 (int_value 3))
                 (mk_variant 0 (boxed (int_value 4))) in
  exists visit_ call,
    binary_visit node_adder Types = Some visit_ /\
    node_adder int_ node = Some call /\
    visit_ 1%nat 2%nat tt w = call tt (int_value 3) (int_value 4) w.
Proof.
  intros Types w.
  eexists. eexists. split; [reflexivity|]. split; [reflexivity|].
  destruct (proj1 binary_visit_unwraps_each_operand value example_alternatives
              unit Z node_adder Types int_ (recursive_wrapper node) _
              (fun this => i <- load_type_index this ;;
                           ret (i =? direct_type int_ Types))
              (fun this => i <- load_type_index this ;;
                           ret (i =? direct_type (recursive_wrapper node)
                                       Types))
              1%nat 2%nat tt w
              ltac:(unfold fits; cbn; lia)
              eq_refl eq_refl eq_refl eq_refl eq_refl)
    as [call [Hcall Hrun]].
  injection Hcall as <-. exact Hrun.
Defined.

Ltac small_pack := unfold fits; cbn; lia.

Lemma int_string_distinct : NoDup [int_; string_].
Proof.
  constructor.
  - intros [H | []]. discriminate H.
  - constructor; [intros [] | constructor].
Defined.

(** X20 at [variant<int, std::string>] and the string "hi". *)
Lemma construct_then_is_valid_get_witness :
  exists ctor get_T is_T w',
    variant_value string_ [int_; string_] = Some ctor /\
    get true string_ [int_; string_] = Some get_T /\
    variant_is string_ [int_; string_] = Some is_T /\
    ctor 1%nat (string_value "hi") blank = (Ret tt, w') /\
    is_T 1%nat w' = (Ret true, w') /\
    valid [int_; string_] 1%nat w' = (Ret true, w') /\
    get_T 1%nat w' = (Ret (string_value "hi"), w').
Proof.
  destruct (construct_then_is_valid_get (alt := example_alternatives)
              [int_; string_] string_ true _ _
              1%nat (string_value "hi") blank
              ltac:(small_pack) eq_refl eq_refl eq_refl eq_refl)
    as [is_T [w' [His [Hctor [Hi [Hv Hg]]]]]].
  eexists. eexists. exists is_T, w'.
  split; [reflexivity|]. split; [reflexivity|].
  split; [exact His|]. split; [exact Hctor|].
  split; [exact Hi|]. split; [exact Hv | exact Hg].
Defined.

(** C3 at [variant<int, std::string>] holding the string "x", asked for
    an [int]. *)
Lemma get_wrong_type_throws_witness :
  let w := place (mk_variant 0 (string_value "x"))
                 (mk_variant 1 (int_value 2)) in
  exists get_T is_U,
    get true int_ [int_; string_] = Some get_T /\
    variant_is string_ [int_; string_] = Some is_U /\
    is_U 1%nat w = (Ret true, w) /\
    get_T 1%nat w = (Throw (bad_variant_access "in get<T>()"), w) /\
    is_U 1%nat (snd (get_T 1%nat w)) = (Ret true, snd (get_T 1%nat w)) /\
    heap (snd (get_T 1%nat w)) 1%nat = mk_variant 0 (string_value "x").
Proof.
  intros w.
  destruct (get_wrong_type_throws (alt := example_alternatives)
              [int_; string_] int_ string_ true _ _
              1%nat w
              ltac:(small_pack) eq_refl eq_refl eq_refl eq_refl
              ltac:(discriminate))
    as [Hthrow [His [Hheap _]]].
  eexists. eexists.
  split; [reflexivity|]. split; [reflexivity|]. split; [reflexivity|].
  split; [exact Hthrow|]. split; [exact His | exact Hheap].
Defined.

(** X22 at [variant<int, long>]: an [int] 5 and a [long] 5 hold the
    same object and are not equal; two [int] 5 are. *)
Lemma operator_eq_tags_then_values_witness :
  let w := place (mk_variant 1 (int_value 5)) (mk_variant 0 (int_value 5)) in
  exists op,
    operator_eq [int_; long_] = Some op /\
    data (heap w 1%nat) = data (heap w 2%nat) /\
    op 1%nat 2%nat w = (Ret false, w) /\
    op 1%nat 1%nat w = (Ret true, w).
Proof.
  intros w.
  destruct (operator_eq_tags_then_values (alt := example_alternatives)
              [int_; long_] int_ long_ _ _ _
              1%nat 2%nat w
              ltac:(small_pack) eq_refl eq_refl eq_refl eq_refl eq_refl)
    as [_ [_ Hsame]].
  destruct (operator_eq_tags_then_values (alt := example_alternatives)
              [int_; long_] int_ int_ _ _ _
              1%nat 1%nat w
              ltac:(small_pack) eq_refl eq_refl eq_refl eq_refl eq_refl)
    as [Hrun _].
  eexists. split; [reflexivity|]. split; [reflexivity|].
  split; [exact (Hsame ltac:(discriminate) eq_refl) | exact (Hrun eq_refl)].
Defined.

(** C1: at [variant<int, std::string>] the variant made from the [int]
    1000000 holds the alternative at position 0 and the one made from
    the empty string the alternative at position 1, as [which()]
    reports; [operator<] says the first is not less than the second,
    where the ordering by declared position makes it less.  The
    operator compares the raw tags, which run against the declared
    order. *)
Lemma int_not_less_than_string :
  exists ctor_int ctor_string op w1 w2,
    variant_value int_ [int_; string_] = Some ctor_int /\
    variant_value string_ [int_; string_] = Some ctor_string /\
    operator_lt [int_; string_] = Some op /\
    ctor_int 1%nat (int_value 1000000) blank = (Ret tt, w1) /\
    ctor_string 2%nat (string_value "") w1 = (Ret tt, w2) /\
    which [int_; string_] 1%nat w2 = (Ret 0, w2) /\
    which [int_; string_] 2%nat w2 = (Ret 1, w2) /\
    op 1%nat 2%nat w2 = (Ret false, w2) /\
    op 1%nat 2%nat w2 <> (Ret true, w2).
Proof.
  do 5 eexists.
  split; [reflexivity|]. split; [reflexivity|]. split; [reflexivity|].
  split; [reflexivity|]. split; [reflexivity|]. split; [reflexivity|].
  split; [reflexivity|]. split; [reflexivity | discriminate].
Qed.

(** X21 at [variant<int, std::string>]: the [int] 1000000 against the
    empty string. *)
Lemma operator_lt_tags_then_values_witness :
  let w := place (mk_variant 1 (int_value 1000000))
                 (mk_variant 0 (string_value "")) in
  exists op,
    operator_lt [int_; string_] = Some op /\
    op 1%nat 2%nat w = (Ret false, w) /\
    op 2%nat 1%nat w = (Ret true, w).
Proof.
  intros w.
  destruct (operator_lt_tags_then_values (alt := example_alternatives)
              [int_; string_] 0 1 int_ string_
              _ _ _ 1%nat 2%nat w
              ltac:(small_pack) int_string_distinct eq_refl eq_refl
              ltac:(lia) eq_refl eq_refl eq_refl eq_refl eq_refl)
    as [Hab [Hba _]].
  eexists. split; [reflexivity|]. split; [exact Hab | exact Hba].
Defined.

(** C10 at [variant<int, std::string>]. *)
Lemma compare_two_empty_throws_witness :
  exists ctor op_eq op_lt w1 w2,
    variant_no_init [int_; string_] = Some ctor /\
    operator_eq [int_; string_] = Some op_eq /\
    operator_lt [int_; string_] = Some op_lt /\
    ctor 1%nat blank = (Ret tt, w1) /\
    ctor 2%nat w1 = (Ret tt, w2) /\
    op_eq 1%nat 2%nat w2 = (Throw (bad_variant_access "in get<T>()"), w2) /\
    op_lt 1%nat 2%nat w2 = (Throw (bad_variant_access "in get<T>()"), w2).
Proof.
  destruct (compare_two_empty_throws (alt := example_alternatives)
              [int_; string_] _ _ _ 1%nat 2%nat blank
              ltac:(small_pack) eq_refl eq_refl eq_refl)
    as [w1 [w2 [H1 [H2 [_ [_ [Heq Hlt]]]]]]].
  eexists. eexists. eexists. exists w1, w2.
  split; [reflexivity|]. split; [reflexivity|]. split; [reflexivity|].
  split; [exact H1|]. split; [exact H2|]. split; [exact Heq | exact Hlt].
Defined.

(** C7 as stated, at [variant<int, std::string>]: the default-constructed
    variant holds the [int] of position 0 and its raw tag is 1, not 0. *)
Lemma default_constructed_tag_is_not_zero :
  exists ctor w',
    variant_default [int_; string_] = Some ctor /\
    ctor 1%nat blank = (Ret tt, w') /\
    nth_error [int_; string_] 0 = Some int_ /\
    direct_type int_ [int_; string_] = 1 /\
    get_type_index [int_; string_] 1%nat w' = (Ret 1, w') /\
    get_type_index [int_; string_] 1%nat w' <> (Ret 0, w').
Proof.
  do 2 eexists.
  split; [reflexivity|]. split; [reflexivity|]. split; [reflexivity|].
  split; [reflexivity|]. split; [reflexivity | discriminate].
Qed.

(** C7 as the code has it, at [variant<int, std::string>]. *)
Lemma tag_counts_alternatives_after_witness :
  exists ctor_default ctor_string w0 w1,
    variant_default [int_; string_] = Some ctor_default /\
    variant_value string_ [int_; string_] = Some ctor_string /\
    ctor_default 1%nat blank = (Ret tt, w0) /\
    get_type_index [int_; string_] 1%nat w0 = (Ret 1, w0) /\
    which [int_; string_] 1%nat w0 = (Ret 0, w0) /\
    ctor_string 2%nat (string_value "s") blank = (Ret tt, w1) /\
    get_type_index [int_; string_] 2%nat w1 = (Ret 0, w1) /\
    which [int_; string_] 2%nat w1 = (Ret 1, w1).
Proof.
  destruct (tag_counts_alternatives_after (alt := example_alternatives)
              [int_; string_] ltac:(small_pack) int_string_distinct)
    as [Hvalue [Hdefault _]].
  destruct (Hdefault _ eq_refl) as [first_type [Hfirst [_ Hrun]]].
  injection Hfirst as <-.
  destruct (Hrun 1%nat (int_value 0) blank eq_refl)
    as [w0 [Hctor0 [Htag0 [Hwhich0 _]]]].
  destruct (Hvalue 1%nat string_ _ 2%nat (string_value "s") (string_value "s")
              blank eq_refl eq_refl eq_refl ltac:(lia))
    as [w1 [Hctor1 [Htag1 Hwhich1]]].
  eexists. eexists. exists w0, w1.
  split; [reflexivity|]. split; [reflexivity|].
  split; [exact Hctor0|]. split; [exact Htag0|]. split; [exact Hwhich0|].
  split; [exact Hctor1|]. split; [exact Htag1 | exact Hwhich1].
Defined.

(** C8: at [variant<long>], a [long] 1 and the type [int], which is not
    in the pack: [is<int>()] does not compile, and [set<int>(9)]
    compiles, runs and returns; it destroys the [long], builds an [int]
    in the storage, and leaves the variant with the invalid tag, so that
    [valid()] is false.  [set<T>()] has no check that [T] is an
    alternative. *)
Lemma set_outside_pack_runs :
  let w := place (mk_variant 0 (int_value 1)) (mk_variant 0 (int_value 2)) in
  has_type int_ [long_] = false /\
  variant_is (obj := value) int_ [long_] = None /\
  exists set_T w',
    set int_ [long_] = Some set_T /\
    set_T 1%nat [int_value 9] w = (Ret tt, w') /\
    heap w' 1%nat = mk_variant invalid_value (int_value 9) /\
    valid [long_] 1%nat w' = (Ret false, w') /\
    trace w' = [destructor_call long_ (int_value 1);
                constructor_call int_ [int_value 9]].
Proof.
  intros w. split; [reflexivity|]. split; [reflexivity|].
  do 2 eexists.
  split; [reflexivity|]. split; [reflexivity|].
  split; [reflexivity|]. split; reflexivity.
Qed.

(** C2: at [variant<long, int>] and a const lvalue [int] 7.  The
    constructor is instantiated at [int const], which is not in the
    pack, so the first alternative [int const] converts to is built: the
    variant holds a [long]; [int] is declared, and [is<int>()] is false
    and [get<int>()] throws. *)
Lemma const_lvalue_builds_earlier_alternative :
  let Types := [long_; int_] in
  exists ctor is_int is_long get_int w',
    variant_value (alt := cv_alternatives) (const int_) Types = Some ctor /\
    has_type int_ Types = true /\
    variant_is int_ Types = Some is_int /\
    variant_is long_ Types = Some is_long /\
    get (alt := cv_alternatives) true int_ Types = Some get_int /\
    ctor 1%nat (int_value 7) blank = (Ret tt, w') /\
    trace w' = [converting_constructor_call long_ (const int_) (int_value 7)] /\
    is_long 1%nat w' = (Ret true, w') /\
    is_int 1%nat w' = (Ret false, w') /\
    get_int 1%nat w' = (Throw (bad_variant_access "in get<T>()"), w').
Proof.
  intros Types. do 5 eexists.
  split; [reflexivity|]. split; [reflexivity|]. split; [reflexivity|].
  split; [reflexivity|]. split; [reflexivity|]. split; [reflexivity|].
  split; [reflexivity|]. split; [reflexivity|]. split; reflexivity.
Qed.

(** C4: at [variant<int, std::string, fragile>], [a] holding the [int] 1
    is assigned from a variant [b] that is a non-const lvalue.
    [operator=(T&&) noexcept] is selected.  With [b] holding a
    [fragile], whose copy constructor throws, the program ends in
    [std::terminate] and [a] still holds its [int]: it is not left
    empty, and nothing of it was destroyed.  With [b] holding the string
    "s", the copy is made first, into a local, and four calls are made
    where the specified sequence has two.  From a const [b] the
    specified sequence is followed. *)
Lemma assign_from_lvalue_terminates :
  let Types := [int_; string_; fragile_] in
  let w := place (mk_variant 2 (int_value 1)) (mk_variant 0 (int_value 9)) in
  let w' := place (mk_variant 2 (int_value 1))
                  (mk_variant 1 (string_value "s")) in
  let r := operator_assign Types lvalue 1%nat 3%nat 2%nat w in
  let r' := operator_assign Types lvalue 1%nat 3%nat 2%nat w' in
  let r_const := operator_assign Types const_lvalue 1%nat 3%nat 2%nat w in
  (fst r = Terminate /\
   heap (snd r) 1%nat = mk_variant 2 (int_value 1) /\
   valid Types 1%nat (snd r) = (Ret true, snd r) /\
   trace (snd r) = [copy_call fragile_ (int_value 9)]) /\
  (fst r' = Ret tt /\
   heap (snd r') 1%nat = mk_variant 1 (string_value "s") /\
   trace (snd r')
   = [copy_call string_ (string_value "s");
      destructor_call int_ (int_value 1);
      move_call string_ (string_value "s");
      destructor_call string_ (string_value "")]) /\
  (fst r_const = Throw (foreign_exception 7) /\
   valid Types 1%nat (snd r_const) = (Ret false, snd r_const) /\
   trace (snd r_const)
   = [destructor_call int_ (int_value 1);
      copy_call fragile_ (int_value 9)]).
Proof.
  intros Types w w' r r' r_const.
  split; [|split].
  - split; [reflexivity|]. split; [reflexivity|]. split; reflexivity.
  - split; [reflexivity|]. split; reflexivity.
  - split; [reflexivity|]. split; reflexivity.
Qed.

(** C5: at [variant<int const, int>], two variants built from the same
    const [int] 5 hold the same alternative and equal values, and
    [operator==] does not return true: it throws [bad_variant_access].
    The comparer is called with an [int] and asks the left operand for
    [get<int>()], which is the other alternative. *)
Lemma equal_const_values_throw :
  let Types := [const int_; int_] in
  exists ctor is_const_int op w1 w2,
    variant_value (const int_) Types = Some ctor /\
    variant_is (const int_) Types = Some is_const_int /\
    operator_eq Types = Some op /\
    ctor 1%nat (int_value 5) blank = (Ret tt, w1) /\
    ctor 2%nat (int_value 5) w1 = (Ret tt, w2) /\
    is_const_int 1%nat w2 = (Ret true, w2) /\
    is_const_int 2%nat w2 = (Ret true, w2) /\
    equal_to int_ (data (heap w2 1%nat)) (data (heap w2 2%nat)) = true /\
    op 1%nat 2%nat w2 = (Throw (bad_variant_access "in get<T>()"), w2) /\
    op 1%nat 2%nat w2 <> (Ret true, w2).
Proof.
  intros Types. do 5 eexists.
  split; [reflexivity|]. split; [reflexivity|]. split; [reflexivity|].
  split; [reflexivity|]. split; [reflexivity|]. split; [reflexivity|].
  split; [reflexivity|]. split; [reflexivity|].
  split; [reflexivity | discriminate].
Qed.

(** X24 at [variant<int, long>] and [std::string]. *)
Lemma undeclared_type_is_get_rejected_witness :
  has_type string_ [int_; long_] = false /\
  variant_is (obj := value) string_ [int_; long_] = None /\
  get (obj := value) true string_ [int_; long_] = None /\
  get (obj := value) false string_ [int_; long_] = None.
Proof.
  destruct (undeclared_type_is_get_rejected (alt := example_alternatives)
              [int_; long_] string_ eq_refl) as [His Hget].
  destruct (Hget eq_refl eq_refl) as [Hconst Hmutable].
  split; [reflexivity|]. split; [exact His|].
  split; [exact Hconst | exact (Hmutable eq_refl)].
Defined.

(** X23 at [variant<int, std::string, fragile>]: assigning from a const
    variant holding a [fragile], whose constructors throw, and from an
    rvalue holding a string. *)
Lemma assign_destroy_invalidate_construct_witness :
  let Types := [int_; string_; fragile_] in
  let w := place (mk_variant 2 (int_value 1)) (mk_variant 0 (int_value 9)) in
  let w' := place (mk_variant 2 (int_value 1))
                  (mk_variant 1 (string_value "s")) in
  let r := operator_assign Types const_lvalue 1%nat 3%nat 2%nat w in
  let r' := operator_assign Types rvalue 1%nat 3%nat 2%nat w' in
  (fst r = Throw (foreign_exception 7) /\
   heap (snd r) 1%nat = mk_variant invalid_value (int_value 1) /\
   trace (snd r)
   = [destructor_call int_ (int_value 1);
      copy_call fragile_ (int_value 9)]) /\
  (fst r' = Ret tt /\
   heap (snd r') 1%nat = mk_variant 1 (string_value "s") /\
   heap (snd r') 2%nat = mk_variant 1 (string_value "") /\
   trace (snd r')
   = [destructor_call int_ (int_value 1);
      move_call string_ (string_value "s")]).
Proof.
  intros Types w w' r r'.
  destruct (assign_destroy_invalidate_construct
              (alt := example_alternatives) Types fragile_ int_ _ _
              1%nat 3%nat 2%nat w
              ltac:(small_pack) eq_refl eq_refl eq_refl eq_refl
              ltac:(discriminate))
    as [[Htrace [_ [_ [Hthrow [Hheap _]]]]] _].
  destruct (assign_destroy_invalidate_construct
              (alt := example_alternatives) Types string_ int_ _ _
              1%nat 3%nat 2%nat w'
              ltac:(small_pack) eq_refl eq_refl eq_refl eq_refl
              ltac:(discriminate))
    as [_ [Htrace' [Hsrc [_ [Hret Hheap']]]]].
  split.
  - split; [exact Hthrow|]. split; [exact Hheap | exact Htrace].
  - split; [exact Hret|]. split; [exact Hheap'|].
    split; [exact Hsrc | exact Htrace'].
Defined.

(** C9 at [variant<int, std::string>]: moving from a variant holding the
    string "abc". *)
Lemma move_construct_keeps_source_tag_witness :
  let Types := [int_; string_] in
  let w := place (mk_variant 0 (int_value 0))
                 (mk_variant 0 (string_value "abc")) in
  let r := variant_move Types 1%nat 2%nat w in
  fst r = Ret tt /\
  heap (snd r) 1%nat = mk_variant 0 (string_value "abc") /\
  heap (snd r) 2%nat = mk_variant 0 (string_value "") /\
  trace (snd r) = [move_call string_ (string_value "abc")] /\
  variant_destructor Types 2%nat (snd r)
  = (Ret tt,
     mk_world (heap (snd r))
       [move_call string_ (string_value "abc");
        destructor_call string_ (string_value "")]).
Proof.
  intros Types w r.
  destruct (move_construct_keeps_source_tag (alt := example_alternatives)
              Types string_ _ 1%nat 2%nat w
              ltac:(small_pack) eq_refl eq_refl ltac:(discriminate))
    as [Htrace [Hold [_ [Hdestroy [Hret Hnew]]]]].
  split; [exact Hret|]. split; [exact Hnew|]. split; [exact Hold|].
  split; [exact Htrace | exact Hdestroy].
Defined.

(** * The further properties at concrete variants *)

(** X1 at [variant<int, std::string, long>]: 32 bytes. *)
Lemma data_size_is_largest_witness :
  data_size size_of [int_; string_; long_] = Some 32 /\
  forall T, In T [int_; string_; long_] -> size_of T <= 32.
Proof.
  destruct (proj1 (data_size_is_largest size_of [int_; string_; long_])
              ltac:(discriminate)) as [size [Hsize [_ Hmax]]].
  injection Hsize as <-. split; [reflexivity | exact Hmax].
Defined.

(** X2 at [variant<int, std::string>] holding the [int] 42. *)
Lemma apply_visitor_calls_once_witness :
  let w := place (mk_variant 1 (int_value 42))
                 (mk_variant 0 (string_value "s")) in
  exists av,
    apply_visitor numeral [int_; string_] = Some av /\
    av tt 1%nat w = (Ret 42, w).
Proof.
  intros w.
  destruct (apply_visitor_calls_once (alt := example_alternatives) numeral
              [int_; string_] int_ _ _ 1%nat tt w
              ltac:(small_pack) eq_refl eq_refl eq_refl)
    as [call [Hcall Hrun]].
  injection Hcall as <-.
  eexists. split; [reflexivity | exact Hrun].
Defined.

(** X3 at [variant<int, std::string>] built with [no_init]. *)
Lemma apply_visitor_empty_throws_witness :
  let w := place (mk_variant invalid_value (int_value 0))
                 (mk_variant 0 (string_value "s")) in
  exists av,
    apply_visitor numeral [int_; string_] = Some av /\
    av tt 1%nat w = (Throw (bad_variant_access "in get<T>()"), w).
Proof.
  intros w. eexists. split; [reflexivity|].
  exact (apply_visitor_empty_throws (alt := example_alternatives) numeral
           [int_; string_] _ 1%nat tt w ltac:(small_pack) eq_refl eq_refl).
Defined.

(** X4 at [variant<int, long>]: the adder on an [int] and an empty
    variant, either way round. *)
Lemma binary_visit_empty_throws_witness :
  let w := place (mk_variant 1 (int_value 3))
                 (mk_variant invalid_value (int_value 4)) in
  exists av,
    apply_visitor2 adder [int_; long_] = Some av /\
    av tt 1%nat 2%nat w = (Throw (bad_variant_access "in get<T>()"), w) /\
    av tt 2%nat 1%nat w = (Throw (bad_variant_access "in get<T>()"), w).
Proof.
  intros w. eexists. split; [reflexivity|]. split.
  - exact (binary_visit_empty_throws (alt := example_alternatives) adder
             [int_; long_] _ 1%nat 2%nat tt w ltac:(small_pack) eq_refl
             (or_intror eq_refl)).
  - exact (binary_visit_empty_throws (alt := example_alternatives) adder
             [int_; long_] _ 2%nat 1%nat tt w ltac:(small_pack) eq_refl
             (or_introl eq_refl)).
Defined.

(** X5 at [variant<int, std::string>]: a copy of the string "abc". *)
Lemma copy_construct_then_equal_witness :
  let Types := [int_; string_] in
  let w := place (mk_variant 1 (int_value 0))
                 (mk_variant 0 (string_value "abc")) in
  let r := variant_copy Types 1%nat 2%nat w in
  exists op,
    operator_eq Types = Some op /\
    fst r = Ret tt /\
    heap (snd r) 1%nat = mk_variant 0 (string_value "abc") /\
    heap (snd r) 2%nat = mk_variant 0 (string_value "abc") /\
    trace (snd r) = [copy_call string_ (string_value "abc")] /\
    op 1%nat 2%nat (snd r) = (Ret true, snd r).
Proof.
  intros Types w r.
  destruct (copy_construct_then_equal (alt := example_alternatives)
              Types string_ _ 1%nat 2%nat w
              ltac:(small_pack) eq_refl eq_refl ltac:(discriminate))
    as [Htrace [Hframe [Hret [Hthis Hequal]]]].
  eexists. split; [reflexivity|].
  split; [exact Hret|]. split; [exact Hthis|].
  split; [exact (Hframe 2%nat ltac:(discriminate))|].
  split; [exact Htrace|].
  exact (Hequal _ eq_refl eq_refl).
Defined.

(** X6 at [variant<int, std::string>]: copying and moving from an empty
    variant. *)
Lemma construct_from_empty_is_empty_witness :
  let Types := [int_; string_] in
  let w := place (mk_variant 1 (int_value 8))
                 (mk_variant invalid_value (int_value 0)) in
  variant_copy Types 1%nat 2%nat w
  = (Ret tt, snd (variant_copy Types 1%nat 2%nat w)) /\
  heap (snd (variant_copy Types 1%nat 2%nat w)) 1%nat
  = mk_variant invalid_value (int_value 8) /\
  trace (snd (variant_copy Types 1%nat 2%nat w)) = [] /\
  heap (snd (variant_move Types 1%nat 2%nat w)) 1%nat
  = mk_variant invalid_value (int_value 8) /\
  trace (snd (variant_move Types 1%nat 2%nat w)) = [].
Proof.
  intros Types w.
  destruct (construct_from_empty_is_empty (alt := example_alternatives)
              Types 1%nat 2%nat w ltac:(small_pack) eq_refl)
    as [[Hret [Hthis [_ [Htrace _]]]] [_ [Hthis' [_ [Htrace' _]]]]].
  split; [reflexivity|]. split; [exact Hthis|]. split; [exact Htrace|].
  split; [exact Hthis' | exact Htrace'].
Defined.

(** X7 at [variant<int, std::string>]: destroying an empty variant and
    one holding the string "abc". *)
Lemma destructor_calls_at_most_one_witness :
  let Types := [int_; string_] in
  let w := place (mk_variant invalid_value (int_value 0))
                 (mk_variant 0 (string_value "abc")) in
  variant_destructor Types 1%nat w = (Ret tt, w) /\
  variant_destructor Types 2%nat w
  = (Ret tt,
     mk_world (heap w) [destructor_call string_ (string_value "abc")]).
Proof.
  intros Types w.
  destruct (destructor_calls_at_most_one (obj := value)
              Types 1%nat w ltac:(small_pack)) as [_ [Hempty _]].
  destruct (destructor_calls_at_most_one (obj := value)
              Types 2%nat w ltac:(small_pack)) as [_ [_ Hheld]].
  split; [exact (Hempty eq_refl) | exact (Hheld string_ _ eq_refl eq_refl)].
Defined.

(** X8 at [variant<int, std::string>] holding the [int] 1:
    [set<std::string>("s")]. *)
Lemma set_destroys_then_constructs_witness :
  let Types := [int_; string_] in
  let w := place (mk_variant 1 (int_value 1)) (mk_variant 1 (int_value 2)) in
  exists set_T,
    set string_ Types = Some set_T /\
    fst (set_T 1%nat [string_value "s"] w) = Ret tt /\
    heap (snd (set_T 1%nat [string_value "s"] w)) 1%nat
    = mk_variant 0 (string_value "s") /\
    heap (snd (set_T 1%nat [string_value "s"] w)) 2%nat
    = mk_variant 1 (int_value 2) /\
    trace (snd (set_T 1%nat [string_value "s"] w))
    = [destructor_call int_ (int_value 1);
       constructor_call string_ [string_value "s"]].
Proof.
  intros Types w.
  destruct (set_destroys_then_constructs (alt := example_alternatives)
              Types string_ int_ _ _ 1%nat [string_value "s"] w
              ltac:(small_pack) eq_refl eq_refl eq_refl)
    as [Htrace [Hframe [Hret Hthis]]].
  eexists. split; [reflexivity|].
  split; [exact Hret|]. split; [exact Hthis|].
  split; [exact (Hframe 2%nat ltac:(discriminate)) | exact Htrace].
Defined.

(** X9 at [variant<int, std::string>] holding an [int]. *)
Lemma is_exclusive_witness :
  let Types := [int_; string_] in
  let w := place (mk_variant 1 (int_value 1))
                 (mk_variant invalid_value (int_value 0)) in
  exists is_int is_string,
    variant_is int_ Types = Some is_int /\
    variant_is string_ Types = Some is_string /\
    is_int 1%nat w = (Ret true, w) /\
    valid Types 1%nat w = (Ret true, w) /\
    is_string 1%nat w = (Ret false, w) /\
    is_int 2%nat w = (Ret false, w).
Proof.
  intros Types w.
  destruct (is_exclusive (obj := value) Types int_ _
              1%nat w ltac:(small_pack) eq_refl) as [Hheld _].
  destruct (Hheld eq_refl) as [Hvalid Hother].
  destruct (is_exclusive (obj := value) Types int_ _
              2%nat w ltac:(small_pack) eq_refl) as [_ Hempty].
  eexists. eexists. split; [reflexivity|]. split; [reflexivity|].
  split; [reflexivity|]. split; [exact Hvalid|].
  split; [exact (Hother string_ _ eq_refl ltac:(discriminate))|].
  exact (Hempty eq_refl).
Defined.

(** X10 at [variant<int, std::string>]: a string is at position 1, an
    empty variant reports 2. *)
Lemma which_is_declared_position_witness :
  let Types := [int_; string_] in
  let w := place (mk_variant 0 (string_value "s"))
                 (mk_variant invalid_value (int_value 0)) in
  which Types 1%nat w = (Ret 1, w) /\
  nth_error Types 1 = Some string_ /\
  which Types 2%nat w = (Ret 2, w).
Proof.
  intros Types w.
  destruct (which_is_declared_position (obj := value)
              Types 1%nat w ltac:(cbn; lia)) as [Hheld _].
  destruct (Hheld string_ _ eq_refl eq_refl) as [i [Hwhich Hnth]].
  destruct (which_is_declared_position (obj := value)
              Types 2%nat w ltac:(cbn; lia)) as [_ Hempty].
  split; [reflexivity|]. split; [reflexivity | exact (Hempty eq_refl)].
Defined.

(** X11 at [variant<int, std::string>]: an [int] against an empty
    variant. *)
Lemma empty_compares_greater_witness :
  let Types := [int_; string_] in
  let w := place (mk_variant 1 (int_value 1))
                 (mk_variant invalid_value (int_value 0)) in
  exists op_eq op_lt,
    operator_eq Types = Some op_eq /\
    operator_lt Types = Some op_lt /\
    op_eq 1%nat 2%nat w = (Ret false, w) /\
    op_eq 2%nat 1%nat w = (Ret false, w) /\
    op_lt 1%nat 2%nat w = (Ret true, w) /\
    op_lt 2%nat 1%nat w = (Ret false, w).
Proof.
  intros Types w.
  destruct (empty_compares_greater (alt := example_alternatives)
              Types int_ _ _ _ 1%nat 2%nat w
              ltac:(small_pack) eq_refl eq_refl eq_refl eq_refl eq_refl)
    as [H1 [H2 [H3 H4]]].
  eexists. eexists. split; [reflexivity|]. split; [reflexivity|].
  split; [exact H1|]. split; [exact H2|]. split; [exact H3 | exact H4].
Defined.

(** X12 at [variant<std::string, long, int>] and a [fragile] (converts
    to nothing), and at [variant<std::string, long>] and an [int]
    (converts to [long]). *)
Lemma construct_by_first_convertible_witness :
  (exists ctor,
      variant_value int_ [string_; long_] = Some ctor /\
      fst (ctor 1%nat (int_value 7) blank) = Ret tt /\
      heap (snd (ctor 1%nat (int_value 7) blank)) 1%nat
      = mk_variant 0 (int_value 7)) /\
  variant_value (obj := value) fragile_ [string_; long_; int_] = None.
Proof.
  destruct (construct_by_first_convertible (alt := example_alternatives) int_)
    as [Hfirst Hnone].
  split.
  - destruct (Hfirst [string_] long_ [] ltac:(small_pack) eq_refl
                ltac:(intros P [<- | []]; reflexivity) eq_refl)
      as [ctor [Hctor Hrun]].
    exists ctor. split; [exact Hctor|].
    destruct (Hrun 1%nat (int_value 7) blank) as [_ [_ [Hret Hthis]]].
    split; [exact Hret | exact Hthis].
  - apply (proj2 (construct_by_first_convertible
                    (alt := example_alternatives) fragile_)).
    intros P [<- | [<- | [<- | []]]]; reflexivity.
Defined.

(** X13 at [variant<int, std::string>] holding the string "old",
    assigned the string "new". *)
Lemma assign_value_rebuilds_witness :
  let Types := [int_; string_] in
  let w := place (mk_variant 0 (string_value "old"))
                 (mk_variant 1 (int_value 0)) in
  exists assign,
    operator_assign_value_move string_ Types = Some assign /\
    fst (assign 1%nat 3%nat (string_value "new") w) = Ret tt /\
    heap (snd (assign 1%nat 3%nat (string_value "new") w)) 1%nat
    = mk_variant 0 (string_value "new") /\
    trace (snd (assign 1%nat 3%nat (string_value "new") w))
    = [converting_constructor_call string_ string_ (string_value "new");
       destructor_call string_ (string_value "old");
       move_call string_ (string_value "new");
       destructor_call string_ (string_value "")].
Proof.
  intros Types w.
  destruct (assign_value_rebuilds (alt := example_alternatives)
              Types string_ string_ _ _ 1%nat 3%nat
              (string_value "new") (string_value "new") (string_value "new") w
              ltac:(small_pack) eq_refl eq_refl eq_refl eq_refl
              ltac:(discriminate) eq_refl eq_refl)
    as [Hret [Hthis [_ Htrace]]].
  eexists. split; [reflexivity|].
  split; [exact Hret|]. split; [exact Hthis | exact Htrace].
Defined.

(** X14 at [variant<long, int>] holding the [int] 5, assigned a const
    [int] lvalue 7: the variant ends holding a [long]. *)
Lemma assign_const_value_by_first_convertible_witness :
  let Types := [long_; int_] in
  let w := place (mk_variant 0 (int_value 5)) (mk_variant 0 (int_value 0)) in
  exists assign is_long,
    operator_assign_value_copy (alt := cv_alternatives) int_ Types
    = Some assign /\
    variant_is long_ Types = Some is_long /\
    has_type int_ Types = true /\
    fst (assign 1%nat 3%nat (int_value 7) w) = Ret tt /\
    heap (snd (assign 1%nat 3%nat (int_value 7) w)) 1%nat
    = mk_variant 1 (int_value 7) /\
    is_long 1%nat (snd (assign 1%nat 3%nat (int_value 7) w))
    = (Ret true, snd (assign 1%nat 3%nat (int_value 7) w)).
Proof.
  intros Types w.
  destruct (assign_const_value_by_first_convertible (alt := cv_alternatives)
              int_ int_ long_ [] [int_] _ _ 1%nat 3%nat
              (int_value 7) (int_value 7) (int_value 7) w
              ltac:(small_pack) eq_refl ltac:(intros P []) eq_refl
              ltac:(intros []) eq_refl eq_refl eq_refl
              ltac:(discriminate) eq_refl eq_refl)
    as [Hret [Hthis _]].
  eexists. eexists. split; [reflexivity|]. split; [reflexivity|].
  split; [reflexivity|]. split; [exact Hret|].
  split; [exact Hthis | reflexivity].
Defined.

(** X15 at [variant<int, std::string>]: a string assigned from an empty
    variant. *)
Lemma assign_from_empty_empties_witness :
  let Types := [int_; string_] in
  let w := place (mk_variant 0 (string_value "abc"))
                 (mk_variant invalid_value (int_value 0)) in
  fst (copy_assign Types 1%nat 2%nat w) = Ret tt /\
  heap (snd (copy_assign Types 1%nat 2%nat w)) 1%nat
  = mk_variant invalid_value (string_value "abc") /\
  trace (snd (copy_assign Types 1%nat 2%nat w))
  = [destructor_call string_ (string_value "abc")] /\
  fst (move_assign Types 1%nat 2%nat w) = Ret tt /\
  trace (snd (move_assign Types 1%nat 2%nat w))
  = [destructor_call string_ (string_value "abc")].
Proof.
  intros Types w.
  destruct (assign_from_empty_empties (alt := example_alternatives)
              Types string_ _ 1%nat 2%nat w
              ltac:(small_pack) eq_refl eq_refl eq_refl)
    as [[Hret [Hthis [_ [Htrace _]]]] [Hret' [_ [_ [Htrace' _]]]]].
  split; [exact Hret|]. split; [exact Hthis|]. split; [exact Htrace|].
  split; [exact Hret' | exact Htrace'].
Defined.

(** X16 at [variant<int, std::string, fragile>]: an empty variant
    assigned from a const variant holding a string, from an rvalue
    holding a [fragile], and from non-const lvalues holding a string and
    a [fragile]. *)
Lemma assign_into_empty_constructs_only_witness :
  let Types := [int_; string_; fragile_] in
  let w := place (mk_variant invalid_value (int_value 0))
                 (mk_variant 1 (string_value "abc")) in
  let w' := place (mk_variant invalid_value (int_value 0))
                  (mk_variant 0 (int_value 9)) in
  let r1 := operator_assign Types const_lvalue 1%nat 3%nat 2%nat w in
  let r2 := operator_assign Types rvalue 1%nat 3%nat 2%nat w' in
  let r3 := operator_assign Types lvalue 1%nat 3%nat 2%nat w in
  let r4 := operator_assign Types lvalue 1%nat 3%nat 2%nat w' in
  (fst r1 = Ret tt /\
   heap (snd r1) 1%nat = mk_variant 1 (string_value "abc") /\
   trace (snd r1) = [copy_call string_ (string_value "abc")]) /\
  (fst r2 = Throw (foreign_exception 7) /\
   valid Types 1%nat (snd r2) = (Ret false, snd r2)) /\
  (fst r3 = Ret tt /\
   heap (snd r3) 1%nat = mk_variant 1 (string_value "abc") /\
   trace (snd r3)
   = [copy_call string_ (string_value "abc");
      move_call string_ (string_value "abc");
      destructor_call string_ (string_value "")]) /\
  (fst r4 = Terminate /\
   trace (snd r4) = [copy_call fragile_ (int_value 9)] /\
   valid Types 1%nat (snd r4) = (Ret false, snd r4)).
Proof.
  intros Types w w' r1 r2 r3 r4.
  destruct (assign_into_empty_constructs_only (alt := example_alternatives)
              Types string_ _ 1%nat 3%nat 2%nat w
              ltac:(small_pack) eq_refl eq_refl eq_refl)
    as [[Htrace [Hret Hthis]] [_ Hlvalue]].
  destruct (assign_into_empty_constructs_only (alt := example_alternatives)
              Types fragile_ _ 1%nat 3%nat 2%nat w'
              ltac:(small_pack) eq_refl eq_refl eq_refl)
    as [_ [[_ [Hthrow Hvalid]] Hlvalue']].
  split; [|split; [|split]].
  - split; [exact Hret|]. split; [exact Hthis | exact Htrace].
  - split; [exact Hthrow | exact Hvalid].
  - exact (Hlvalue ltac:(discriminate) ltac:(discriminate)).
  - exact (Hlvalue' ltac:(discriminate) ltac:(discriminate)).
Defined.

(** X17 at [variant<int, recursive_wrapper<node>>], at
    [variant<node, recursive_wrapper<node>>] and, for [get<int const>()],
    at [variant<recursive_wrapper<int const>,
    std::reference_wrapper<int const>>]. *)
Lemma get_through_recursive_wrapper_witness :
  let w := place (mk_variant 0 (boxed (int_value 5)))
                 (mk_variant 1 (int_value 6)) in
  (exists get_T,
      get true node [int_; recursive_wrapper node] = Some get_T /\
      get_T 1%nat w = (Ret (int_value 5), w) /\
      get_T 2%nat w = (Throw (bad_variant_access "in get<T>()"), w)) /\
  get (obj := value) true node [node; recursive_wrapper node] = None /\
  get (obj := value) true (const int_)
    [recursive_wrapper (const int_); reference_wrapper (const int_)] = None.
Proof.
  intros w. split; [|split].
  - destruct (get_through_recursive_wrapper (alt := example_alternatives)
                [int_; recursive_wrapper node] node
                ltac:(small_pack) eq_refl) as [Hwrapped _].
    destruct (Hwrapped eq_refl eq_refl) as [get_T [Hget Hrun]].
    exists get_T. split; [exact Hget|]. split.
    + exact (proj1 (Hrun 1%nat w) eq_refl).
    + exact (proj2 (Hrun 2%nat w) ltac:(discriminate)).
  - destruct (get_through_recursive_wrapper (alt := example_alternatives)
                [node; recursive_wrapper node] node
                ltac:(small_pack) eq_refl) as [_ [Hboth _]].
    exact (proj1 (Hboth eq_refl)).
  - destruct (get_through_recursive_wrapper (alt := example_alternatives)
                [recursive_wrapper (const int_);
                 reference_wrapper (const int_)] (const int_)
                ltac:(small_pack) eq_refl) as [_ [_ Href]].
    exact (Href eq_refl).
Defined.

(** X18 at [variant<int const, int>]: two variants holding the
    [int const] 5. *)
Lemma compare_const_alternative_throws_witness :
  let Types := [const int_; int_] in
  let w := place (mk_variant 1 (int_value 5)) (mk_variant 1 (int_value 5)) in
  exists op_eq op_lt,
    operator_eq Types = Some op_eq /\
    operator_lt Types = Some op_lt /\
    op_eq 1%nat 2%nat w = (Throw (bad_variant_access "in get<T>()"), w) /\
    op_lt 1%nat 2%nat w = (Throw (bad_variant_access "in get<T>()"), w).
Proof.
  intros Types w.
  destruct (compare_const_alternative_throws (alt := example_alternatives)
              Types int_ _ _ _ 1%nat 2%nat w
              ltac:(small_pack) eq_refl eq_refl eq_refl eq_refl eq_refl
              eq_refl)
    as [Heq Hlt].
  eexists. eexists. split; [reflexivity|]. split; [reflexivity|].
  split; [exact Heq | exact Hlt].
Defined.

(** X19 at [variant<int, std::string>] holding the string "abc". *)
Lemma self_assignment_witness :
  let Types := [int_; string_] in
  let w := place (mk_variant 0 (string_value "abc"))
                 (mk_variant 1 (int_value 0)) in
  let r1 := operator_assign Types const_lvalue 1%nat 3%nat 1%nat w in
  let r2 := operator_assign Types rvalue 1%nat 3%nat 1%nat w in
  let r3 := operator_assign Types lvalue 1%nat 3%nat 1%nat w in
  (fst r1 = Ret tt /\
   heap (snd r1) 1%nat = mk_variant invalid_value (string_value "abc") /\
   trace (snd r1) = [destructor_call string_ (string_value "abc")]) /\
  (fst r2 = Ret tt /\
   heap (snd r2) 1%nat = mk_variant invalid_value (string_value "abc") /\
   trace (snd r2) = [destructor_call string_ (string_value "abc")]) /\
  (fst r3 = Ret tt /\
   heap (snd r3) 1%nat = mk_variant 0 (string_value "abc") /\
   trace (snd r3)
   = [copy_call string_ (string_value "abc");
      destructor_call string_ (string_value "abc");
      move_call string_ (string_value "abc");
      destructor_call string_ (string_value "")]).
Proof.
  intros Types w r1 r2 r3.
  destruct (self_assignment (alt := example_alternatives) Types string_ _
              1%nat 3%nat w ltac:(small_pack) eq_refl eq_refl)
    as [Hconst [Hmove Hplain]].
  destruct (Hplain (string_value "abc") (string_value "abc")
              ltac:(discriminate) eq_refl eq_refl)
    as [Hret [Hthis [_ Htrace]]].
  split; [exact Hconst|]. split; [exact Hmove|].
  split; [exact Hret|]. split; [exact Hthis | exact Htrace].
Defined.

(** X25 at [variant<int, std::string>] holding the [int] 1:
    [set<long>(9)]. *)
Lemma set_outside_pack_unchecked_witness :
  let Types := [int_; string_] in
  let w := place (mk_variant 1 (int_value 1)) (mk_variant 1 (int_value 2)) in
  has_type long_ Types = false /\
  exists set_T w',
    set long_ Types = Some set_T /\
    set_T 1%nat [int_value 9] w = (Ret tt, w') /\
    heap w' 1%nat = mk_variant invalid_value (int_value 9) /\
    valid Types 1%nat w' = (Ret false, w').
Proof.
  intros Types w. split; [reflexivity|].
  exact (set_outside_pack_unchecked (alt := example_alternatives)
           Types long_ 1%nat [int_value 9] (int_value 9) w
           eq_refl eq_refl eq_refl).
Defined.
